(** * The pnpm linker of berry: store population and dependency-directory
      reconciliation

    Shallow embedding of [packages/plugin-pnp/sources/PnpmLinker.ts] and a
    verification of the properties stated about it.

    Layout of the development:
    - errors and the result monad of fallible code;
    - [ppath]: portable paths as lists of segments;
    - [xfs]: a tree model of the file system with symbolic links;
    - the data model of the core library (identifiers, locators, packages);
    - the installer ([PnpmInstaller]) and its operations, the reconciler
      written once for the disk and for the disk with the journal of the
      writing calls made on it;
    - the properties. *)

From Stdlib Require Import String Ascii List Bool Arith Lia.
From stdpp Require Import base option list strings gmap fin_maps.

Set Default Proof Using "Type".
Open Scope string_scope.
Open Scope list_scope.

(** ** Errors and results *)

(** The [code] property of the errors raised by file-system calls. *)
Inductive Errno :=
| ENOENT | ENOTDIR | EEXIST | EINVAL | ELOOP | EBUSY | EACCES | EIO.

(** A thrown JavaScript value: an error of the file system, which carries
    a [code], or a plain [new Error(message)], whose [code] is undefined. *)
Inductive Error :=
| FsError (code : Errno)
| PlainError (message : string).

Global Instance Errno_eq_dec : EqDecision Errno.
Proof. solve_decision. Defined.

Global Instance Error_eq_dec : EqDecision Error.
Proof. solve_decision. Defined.

(** [err.code !== `ENOENT`] *)
Definition codeIsNot (code : Errno) (e : Error) : bool :=
  match e with
  | FsError c => negb (bool_decide (c = code))
  | PlainError _ => true
  end.

Inductive Result (A : Type) : Type :=
| Ok (a : A)
| Err (e : Error).
Arguments Ok {A} a.
Arguments Err {A} e.

Global Instance Result_ret : MRet Result := @Ok.
Global Instance Result_bind : MBind Result :=
  λ A B f r, match r with Ok a => f a | Err e => Err e end.

Definition isOk {A} (r : Result A) : bool :=
  match r with Ok _ => true | Err _ => false end.

Global Instance Result_eq_dec {A} `{EqDecision A} : EqDecision (Result A).
Proof. solve_decision. Defined.

(** [s.startsWith(p)] *)
Definition startsWith (s p : string) : bool := String.prefix p s.

(** ** Portable paths *)

Abbreviation Filename := string (only parsing).

(** An absolute, normalised portable path is kept as the list of its
    segments below the root; a relative path (a link target, a name cast to
    a path) is the list of its segments, [".."] included. File names hold no
    separator, so a path string and its list of segments determine each
    other. *)
Abbreviation PortablePath := (list string) (only parsing).

(** Splits a string at every ["/"]. *)
Fixpoint splitSegments (cur : string) (s : string) : list string :=
  match s with
  | EmptyString => [cur]
  | String c s' =>
      if Ascii.eqb c "/" then cur :: splitSegments "" s'
      else splitSegments (cur +:+ String c EmptyString) s'
  end.

Definition toPortablePath (s : string) : PortablePath := splitSegments "" s.

Definition isDotSegment (s : string) : bool :=
  bool_decide (s = "") || bool_decide (s = ".").

(** A segment that names an entry: not empty, not ["."], not [".."]. *)
Definition isPlainSegment (s : string) : bool :=
  negb (isDotSegment s) && negb (bool_decide (s = "..")).

Module ppath.

(** Appends the segments of [rel] to [base], normalising on the way: empty
    and ["."] segments vanish, [".."] drops the last segment. *)
Fixpoint join (base : PortablePath) (rel : list string) : PortablePath :=
  match rel with
  | [] => base
  | s :: rel' =>
      if isDotSegment s then join base rel'
      else if bool_decide (s = "..") then join (removelast base) rel'
      else join (base ++ [s]) rel'
  end.

(** [ppath.resolve(root, prefix)] for a relative [prefix]. *)
Definition resolve (root : PortablePath) (rel : list string) : PortablePath :=
  join root rel.

Definition dirname (p : PortablePath) : PortablePath := removelast p.

Fixpoint stripCommon (from to : PortablePath) : PortablePath * PortablePath :=
  match from, to with
  | a :: from', b :: to' =>
      if bool_decide (a = b) then stripCommon from' to' else (from, to)
  | _, _ => (from, to)
  end.

(** [ppath.relative(from, to)]: climb out of what is left of [from] once the
    common prefix is gone, then descend into what is left of [to]. *)
Definition relative (from to : PortablePath) : list string :=
  let '(up, down) := stripCommon from to in
  replicate (length up) ".." ++ down.

End ppath.

(** [nodeModules] of the [Filename] enumeration. *)
Definition nodeModules : Filename := "node_modules".

(** ** The file system *)

Module xfs.

(** Modelled from the spec: the file-system library ([xfs] of the fslib
    package) is not among the sources. The disk is a tree whose directories
    map names to nodes; a symbolic link holds its target as a list of
    segments (a leading empty segment makes it absolute). Every call resolves
    the directory part of its path through the links it meets, as the
    operating system does; access rights and timestamps are left out. *)
#[warnings="-register-all"]
Inductive Node :=
| File (content : string)
| Symlink (target : list string)
| Directory (children : gmap string Node).

Inductive Kind := KFile | KSymlink | KDirectory.

Global Instance Kind_eq_dec : EqDecision Kind.
Proof. solve_decision. Defined.

(** A directory entry as [readdir] reports it with [withFileTypes]. *)
Record Dirent := mkDirent { name : Filename; kind : Kind }.

Global Instance Dirent_eq_dec : EqDecision Dirent.
Proof. solve_decision. Defined.

Definition isSymbolicLink (d : Dirent) : bool := bool_decide (kind d = KSymlink).

Definition kindOf (n : Node) : Kind :=
  match n with
  | File _ => KFile
  | Symlink _ => KSymlink
  | Directory _ => KDirectory
  end.

(** The node at a path, links not followed. *)
Fixpoint lookupNode (n : Node) (p : PortablePath) : option Node :=
  match p with
  | [] => Some n
  | s :: p' =>
      match n with
      | Directory ch =>
          match ch !! s with
          | Some c => lookupNode c p'
          | None => None
          end
      | _ => None
      end
  end.

(** Rewrites the children of the directory at [q]. *)
Fixpoint updateDir (n : Node) (q : PortablePath)
    (f : gmap string Node → gmap string Node) : Node :=
  match q with
  | [] =>
      match n with
      | Directory ch => Directory (f ch)
      | _ => n
      end
  | s :: q' =>
      match n with
      | Directory ch =>
          match ch !! s with
          | Some c => Directory (<[s := updateDir c q' f]> ch)
          | None => n
          end
      | _ => n
      end
  end.

Definition isAbsolute (t : list string) : bool :=
  match t with
  | s :: _ => bool_decide (s = "")
  | [] => false
  end.

(** Walks [todo] from the directory [cur], following every link met, at most
    [hops] of them. The answer is the link-free path of an existing node. *)
Fixpoint follow (hops : nat) (root : Node) : PortablePath → list string → Result PortablePath :=
  fix go (cur : PortablePath) (todo : list string) {struct todo} : Result PortablePath :=
    match todo with
    | [] => Ok cur
    | s :: rest =>
        if isDotSegment s then go cur rest
        else if bool_decide (s = "..") then go (removelast cur) rest
        else
          match lookupNode root cur with
          | Some (Directory ch) =>
              match ch !! s with
              | Some (Symlink t) =>
                  match hops with
                  | O => Err (FsError ELOOP)
                  | S hops' =>
                      follow hops' root (if isAbsolute t then [] else cur) (t ++ rest)
                  end
              | Some _ => go (cur ++ [s]) rest
              | None => Err (FsError ENOENT)
              end
          | Some _ => Err (FsError ENOTDIR)
          | None => Err (FsError ENOENT)
          end
    end.

Definition maxHops : nat := 40.

Definition realpath (fs : Node) (p : PortablePath) : Result PortablePath :=
  follow maxHops fs [] p.

(** The directory a path designates: its link-free path and its children. *)
Definition resolveDir (fs : Node) (p : PortablePath)
    : Result (PortablePath * gmap string Node) :=
  q ← realpath fs p;
  match lookupNode fs q with
  | Some (Directory ch) => Ok (q, ch)
  | Some _ => Err (FsError ENOTDIR)
  | None => Err (FsError ENOENT)
  end.

Definition splitLast (p : PortablePath) : option (PortablePath * Filename) :=
  match p with
  | [] => None
  | _ => Some (removelast p, List.last p "")
  end.

(** [lstat]: the last segment is not followed. *)
Definition lstatPromise (p : PortablePath) (fs : Node) : Result Node :=
  match splitLast p with
  | None => Ok fs
  | Some (d, s) =>
      '(_, ch) ← resolveDir fs d;
      match ch !! s with
      | Some n => Ok n
      | None => Err (FsError ENOENT)
      end
  end.

(** [existsSync]: links are followed, any failure means absent. *)
Definition existsSync (p : PortablePath) (fs : Node) : bool :=
  isOk (realpath fs p).

(** Where an entry goes in a listing kept in the order of the names. *)
Fixpoint insertDirent (d : Dirent) (l : list Dirent) : list Dirent :=
  match l with
  | [] => [d]
  | d' :: l' =>
      if String.leb (name d) (name d') then d :: l else d' :: insertDirent d l'
  end.

(** The entries a listing reports, in the order of their names compared
    byte by byte; the empty name, ["."] and [".."] are never among them. *)
Definition direntsOf (ch : gmap string Node) : list Dirent :=
  foldr insertDirent []
    (List.filter (λ d, isPlainSegment (name d))
       ((λ e, mkDirent e.1 (kindOf e.2)) <$> map_to_list ch)).

(** [readdirPromise(p, {withFileTypes: true})] *)
Definition readdirPromise (p : PortablePath) (fs : Node) : Result (list Dirent) :=
  '(_, ch) ← resolveDir fs p;
  Ok (direntsOf ch).

Definition readlinkPromise (p : PortablePath) (fs : Node) : Result (list string) :=
  n ← lstatPromise p fs;
  match n with
  | Symlink t => Ok t
  | _ => Err (FsError EINVAL)
  end.

(** [mkdirPromise(p)]: one level, the parent must exist. *)
Definition mkdirPromise (p : PortablePath) (fs : Node) : Result Node :=
  match splitLast p with
  | None => Err (FsError EEXIST)
  | Some (d, s) =>
      '(q, ch) ← resolveDir fs d;
      match ch !! s with
      | Some _ => Err (FsError EEXIST)
      | None => Ok (updateDir fs q (insert s (Directory ∅)))
      end
  end.

(** [mkdirpPromise]: every prefix that does not exist is created; a prefix
    that exists is left as it is, whatever it is. *)
Fixpoint mkdirpFrom (done : PortablePath) (todo : list string) (fs : Node) : Result Node :=
  match todo with
  | [] => Ok fs
  | s :: rest =>
      let subPath := done ++ [s] in
      if existsSync subPath fs then mkdirpFrom subPath rest fs
      else
        match mkdirPromise subPath fs with
        | Ok fs' => mkdirpFrom subPath rest fs'
        | Err e => if codeIsNot EEXIST e then Err e else mkdirpFrom subPath rest fs
        end
  end.

Definition mkdirpPromise (p : PortablePath) (fs : Node) : Result Node :=
  mkdirpFrom [] p fs.

(** [mkdirPromise(p, {recursive: true})]: as above, but what is found at [p]
    in the end has to be a directory; anything else there is reported as
    being in the way. *)
Definition mkdirRecursive (p : PortablePath) (fs : Node) : Result Node :=
  fs' ← mkdirpFrom [] p fs;
  q ← realpath fs' p;
  match lookupNode fs' q with
  | Some (Directory _) => Ok fs'
  | Some _ => Err (FsError EEXIST)
  | None => Err (FsError ENOENT)
  end.

(** [removePromise]: nothing to do when the path is absent; a directory goes
    with all it holds, anything else is unlinked. *)
Definition removePromise (p : PortablePath) (fs : Node) : Result Node :=
  match splitLast p with
  | None => Err (FsError EBUSY)
  | Some (d, s) =>
      match resolveDir fs d with
      | Err e => if codeIsNot ENOENT e then Err e else Ok fs
      | Ok (q, ch) =>
          match ch !! s with
          | None => Ok fs
          | Some _ => Ok (updateDir fs q (delete s))
          end
      end
  end.

(** [symlinkPromise(target, p)] *)
Definition symlinkPromise (target : list string) (p : PortablePath) (fs : Node) : Result Node :=
  match target, splitLast p with
  | [], _ => Err (FsError ENOENT)
  | _, None => Err (FsError EEXIST)
  | _, Some (d, s) =>
      '(q, ch) ← resolveDir fs d;
      match ch !! s with
      | Some _ => Err (FsError EEXIST)
      | None => Ok (updateDir fs q (insert s (Symlink target)))
      end
  end.

(** What a copy leaves at the destination: a directory is merged entry by
    entry; a file or a link replaces what is there only when [overwrite] is
    set, and is written when nothing is there. *)
Fixpoint copyNode (overwrite : bool) (src : Node) (dst : option Node) : Node :=
  match src with
  | Directory sch =>
      let mergeInto dch :=
        Directory (merge (λ s d,
          match s with
          | Some s' => Some (copyNode overwrite s' d)
          | None => d
          end) sch dch) in
      match dst with
      | None => mergeInto ∅
      | Some (Directory dch) => mergeInto dch
      | Some d => if overwrite then mergeInto ∅ else d
      end
  | _ =>
      match dst with
      | None => src
      | Some d => if overwrite then src else d
      end
  end.

(** [copyPromise(destination, source, {baseFs, overwrite})]: [source] is
    the node found in the source file system. *)
Definition copyPromise (destination : PortablePath) (source : Node)
    (overwrite : bool) (fs : Node) : Result Node :=
  match splitLast destination with
  | None => Err (FsError EBUSY)
  | Some (d, s) =>
      fs1 ← mkdirpPromise d fs;
      '(q, ch) ← resolveDir fs1 d;
      Ok (updateDir fs1 q (insert s (copyNode overwrite source (ch !! s))))
  end.

(** The calls of the linker that write to the disk. *)
Inductive Op :=
| OpMkdirp (p : PortablePath)
| OpRemove (p : PortablePath)
| OpSymlink (target : list string) (p : PortablePath).

Definition apply (op : Op) : Node → Result Node :=
  match op with
  | OpMkdirp p => mkdirpPromise p
  | OpRemove p => removePromise p
  | OpSymlink target p => symlinkPromise target p
  end.

End xfs.

(** ** Insertion-ordered maps *)

(** A JavaScript [Map] keyed by paths: [get], [set], [delete] and the keys
    in insertion order. *)
Module JsMap.

Definition t (V : Type) : Type := list (PortablePath * V).

Definition empty {V} : t V := [].

Fixpoint get {V} (k : PortablePath) (m : t V) : option V :=
  match m with
  | [] => None
  | (k', v) :: m' => if decide (k' = k) then Some v else get k m'
  end.

(** An existing key keeps its place. *)
Fixpoint set {V} (k : PortablePath) (v : V) (m : t V) : t V :=
  match m with
  | [] => [(k, v)]
  | (k', v') :: m' =>
      if decide (k' = k) then (k, v) :: m' else (k', v') :: set k v m'
  end.

Fixpoint delete {V} (k : PortablePath) (m : t V) : t V :=
  match m with
  | [] => []
  | (k', v') :: m' =>
      if decide (k' = k) then delete k m' else (k', v') :: delete k m'
  end.

Definition keys {V} (m : t V) : list PortablePath := m.*1.

End JsMap.

(** ** The data model of the core library *)

Abbreviation LocatorHash := string (only parsing).

Record Ident := mkIdent {
  scope : option string;
  name : string;
}.

Record Descriptor := mkDescriptor {
  descriptorIdent :> Ident;
  range : string;
}.

Record Locator := mkLocator {
  locatorIdent :> Ident;
  reference : string;
  locatorHash : LocatorHash;
}.

(** The two link types, and any other value the field may hold at run
    time. *)
Inductive LinkType :=
| HARD
| SOFT
| OtherLinkType (tag : string).

Record Package := mkPackage {
  packageLocator :> Locator;
  linkType : LinkType;
}.

(** A read-only file system holding fetched content. *)
Record FakeFS := mkFakeFS {
  getRealPath : PortablePath;
  contents : xfs.Node;
}.

Record FetchResult := mkFetchResult {
  packageFs : FakeFS;
  prefixPath : list string;
}.

Record Workspace := mkWorkspace {
  workspaceCwd : PortablePath;
  anchoredLocator : Locator;
}.

Record Configuration := mkConfiguration {
  get : string → string;
}.

Record Project := mkProject {
  cwd : PortablePath;
  configuration : Configuration;
  tryWorkspaceByLocator : Locator → option Workspace;
}.

Record LinkOptions := mkLinkOptions {
  project : Project;
}.

Module structUtils.

(** The helpers of the core library the linker calls, kept abstract: the
    linker only relies on their results. [devirtualizeLocator] raises on a
    locator that is not virtual; the linker calls it on virtual ones only. *)
Class Impl := {
  isVirtualLocator : Locator → bool;
  devirtualizeLocator : Locator → Locator;
  slugifyLocator : Locator → Filename;
  stringifyLocator : Locator → string;
}.

(** Modelled from the spec: [stringifyIdent] is not among the sources. An
    identifier is an optional scope and a name; a scoped one reads
    [@scope/name]. *)
Definition stringifyIdent (ident : Ident) : string :=
  match scope ident with
  | Some s => if bool_decide (s = "") then name ident else "@" +:+ s +:+ "/" +:+ name ident
  | None => name ident
  end.

End structUtils.

(** Values of type [any]. *)
#[warnings="-register-all"]
Inductive Any :=
| JsUndefined
| JsNull
| JsBool (b : bool)
| JsNumber (n : nat)
| JsString (s : string)
| JsObject (fields : list (string * Any)).

(** ** State and errors *)

(** An asynchronous computation over a state: it ends with a value or with a
    thrown error, and the state it leaves is kept in both cases. *)
Definition StateErr (S A : Type) : Type := S → S * Result A.

Global Instance StateErr_ret {S} : MRet (StateErr S) := λ A a s, (s, Ok a).
Global Instance StateErr_bind {S} : MBind (StateErr S) :=
  λ A B f c s,
    match c s with
    | (s', Ok a) => f a s'
    | (s', Err e) => (s', Err e)
    end.

Definition throw {S A} (e : Error) : StateErr S A := λ s, (s, Err e).

(** A call that changes the disk, or fails and leaves it as it was. *)
Definition xfsWrite (op : xfs.Node → Result xfs.Node) : StateErr xfs.Node unit :=
  λ fs, match op fs with
        | Ok fs' => (fs', Ok tt)
        | Err e => (fs, Err e)
        end.

(** A call that only reads the disk. *)
Definition xfsRead {A} (op : xfs.Node → Result A) : StateErr xfs.Node A :=
  λ fs, (fs, op fs).

(** What the reconciliation runs on: a disk it writes to and reads. There
    are two of them: the disk itself, and the disk together with the journal
    of the writing calls made on it, failed ones included. *)
Class Disk (S : Type) := {
  modify : xfs.Op → StateErr S unit;
  query : ∀ {A}, (xfs.Node → Result A) → StateErr S A;
}.

Global Instance plainDisk : Disk xfs.Node | 0 := {|
  modify op := xfsWrite (xfs.apply op);
  query A read := xfsRead read;
|}.

Record Journaled := mkJournaled {
  tree : xfs.Node;
  journal : list xfs.Op;
}.

Global Instance journaledDisk : Disk Journaled | 10 := {|
  modify op := λ s,
    match xfs.apply op (tree s) with
    | Ok fs' => (mkJournaled fs' (journal s ++ [op]), Ok tt)
    | Err e => (mkJournaled (tree s) (journal s ++ [op]), Err e)
    end;
  query A read := λ s, (s, read (tree s));
|}.

(** ** Promises *)

Inductive PromiseState :=
| Pending
| Fulfilled
| Rejected (reason : Error).

(** The task [installPackageHard] schedules: create the slot, then copy the
    fetched content into it without overwriting. *)
Definition copyJob (pkgPath : PortablePath) (fetchResult : FetchResult) : StateErr xfs.Node unit :=
  xfsWrite (xfs.mkdirRecursive pkgPath);;
  source ← (λ fs, (fs, xfs.lstatPromise (prefixPath fetchResult) (contents (packageFs fetchResult))));
  xfsWrite (xfs.copyPromise pkgPath source false).

(** A scheduled task, kept as what its closure captures, and how far it
    got. The event loop may run a pending task at any moment from the one
    it is scheduled, whatever becomes of the other tasks. Of the runs this
    allows the model follows one: a task runs in one piece ([settle]), at
    the first wait that comes after it was scheduled, the tasks of a wait
    in the order they were scheduled. What is stated of the tasks a caller
    finds between two calls is stated through [laterStateOf], a relation
    that does not tell when a task has run. *)
Record Promise := mkPromise {
  taskPath : PortablePath;
  taskSource : FetchResult;
  state : PromiseState;
}.

Definition job (p : Promise) : StateErr xfs.Node unit :=
  copyJob (taskPath p) (taskSource p).

Definition settle (p : Promise) (fs : xfs.Node) : Promise * xfs.Node :=
  match state p with
  | Pending =>
      match job p fs with
      | (fs', Ok _) => (mkPromise (taskPath p) (taskSource p) Fulfilled, fs')
      | (fs', Err e) => (mkPromise (taskPath p) (taskSource p) (Rejected e), fs')
      end
  | _ => (p, fs)
  end.

Fixpoint firstRejected (ps : list Promise) : option Error :=
  match ps with
  | [] => None
  | p :: ps' =>
      match state p with
      | Rejected e => Some e
      | _ => firstRejected ps'
      end
  end.

(** Every task that has not run yet runs, each on its own, in the order
    they were scheduled; a task that fails stops none of the others. *)
Fixpoint settleAll (ps : list Promise) (fs : xfs.Node) : list Promise * xfs.Node :=
  match ps with
  | [] => ([], fs)
  | p :: ps' =>
      let '(p', fs1) := settle p fs in
      let '(ps'', fs2) := settleAll ps' fs1 in
      (p' :: ps'', fs2)
  end.

(** [await Promise.all(ps)]: rejected with the reason of a task that has
    failed already, when there is one, and else with the reason of the first
    task that fails; resumed when every task is done. *)
Definition promiseAll (ps : list Promise) (fs : xfs.Node) : list Promise * xfs.Node * Result unit :=
  let '(ps', fs') := settleAll ps fs in
  (ps', fs',
   match firstRejected ps with
   | Some e => Err e
   | None =>
       match firstRejected ps' with
       | Some e => Err e
       | None => Ok tt
       end
   end).

(** ** The installer *)

Record PnpmInstaller := mkPnpmInstaller {
  opts : LinkOptions;
  locations : gmap string (list string);
  pendingCopies : list Promise;
  customData : Any;
}.

(** What an installer call runs on: the installer object and the disk. *)
Record Machine := mkMachine {
  this : PnpmInstaller;
  disk : xfs.Node;
}.

Abbreviation Async := (StateErr Machine) (only parsing).

Definition getThis : StateErr Machine PnpmInstaller := λ m, (m, Ok (this m)).

Definition modifyThis (f : PnpmInstaller → PnpmInstaller) : StateErr Machine unit :=
  λ m, (mkMachine (f (this m)) (disk m), Ok tt).

Definition onDisk {A} (c : StateErr xfs.Node A) : StateErr Machine A :=
  λ m, let '(fs', r) := c (disk m) in (mkMachine (this m) fs', r).

Definition setLocations (l : gmap string (list string)) (i : PnpmInstaller) : PnpmInstaller :=
  mkPnpmInstaller (opts i) l (pendingCopies i) (customData i).

Definition setPendingCopies (ps : list Promise) (i : PnpmInstaller) : PnpmInstaller :=
  mkPnpmInstaller (opts i) (locations i) ps (customData i).

Definition setCustomData (d : Any) (i : PnpmInstaller) : PnpmInstaller :=
  mkPnpmInstaller (opts i) (locations i) (pendingCopies i) d.

(** The record [installPackage] answers with; no build is ever asked for. *)
Record InstallStatus := mkInstallStatus {
  packageLocation : PortablePath;
  buildDirective : option (list string);
}.

Definition truthy {A} (o : option A) : bool :=
  match o with Some _ => true | None => false end.

Definition registrationError (what : string) : Error :=
  PlainError ("Assertion failed: Expected the package to have been registered (" +:+ what +:+ ")").

Module PnpmLinker.

Definition supportsPackage (pkg : Package) (opts : LinkOptions) : bool :=
  bool_decide (get (configuration (project opts)) "nodeLinker" = "pnpm").

Definition findPackageLocation (locator : Locator) (opts : LinkOptions) : Any := JsNull.

Definition findPackageLocator (location : PortablePath) (opts : LinkOptions) : Any := JsNull.

(** [new PnpmInstaller(opts)] *)
Definition makeInstaller (opts : LinkOptions) : PnpmInstaller :=
  mkPnpmInstaller opts ∅ [] (JsObject []).

End PnpmLinker.

Section Installer.

Context `{structUtils.Impl}.

Definition attachCustomData (customData : Any) : Async unit :=
  modifyThis (setCustomData customData).

Definition installPackageSoft (pkg : Package) (fetchResult : FetchResult) : Async InstallStatus :=
  let pkgPath := ppath.resolve (getRealPath (packageFs fetchResult)) (prefixPath fetchResult) in
  modifyThis (λ this, setLocations (<[locatorHash pkg := pkgPath]> (locations this)) this);;
  mret (mkInstallStatus pkgPath None).

Definition installPackageHard (pkg : Package) (fetchResult : FetchResult) : Async InstallStatus :=
  let pkgKey := structUtils.slugifyLocator pkg in
  this ← getThis;
  let pkgPath := ppath.join (cwd (project (opts this))) [nodeModules; ".store"; pkgKey] in
  modifyThis (λ this, setLocations (<[locatorHash pkg := pkgPath]> (locations this)) this);;
  modifyThis (λ this,
    setPendingCopies (pendingCopies this ++ [mkPromise pkgPath fetchResult Pending]) this);;
  mret (mkInstallStatus pkgPath None).

Definition installPackage (pkg : Package) (fetchResult : FetchResult) : Async InstallStatus :=
  match linkType pkg with
  | SOFT => installPackageSoft pkg fetchResult
  | HARD => installPackageHard pkg fetchResult
  | OtherLinkType _ => throw (PlainError "Assertion failed: Unsupported package link type")
  end.

Definition isPnpmVirtualCompatible (this : PnpmInstaller) (locator : Locator) : bool :=
  negb (structUtils.isVirtualLocator locator)
  || negb (truthy (tryWorkspaceByLocator (project (opts this)) locator)).

(** Whether the project knows the locator as one of its workspaces. *)
Definition isWorkspace (this : PnpmInstaller) (locator : Locator) : bool :=
  truthy (tryWorkspaceByLocator (project (opts this)) locator).

(** [await Promise.all(this.pendingCopies)] *)
Definition awaitPendingCopies : Async unit :=
  λ m,
    let '(ps, fs, r) := promiseAll (pendingCopies (this m)) (disk m) in
    (mkMachine (setPendingCopies ps (this m)) fs, r).

(** The loop over the entries of the dependency directory: it fills
    [extraneous] and stops at the first listing that fails, with what was
    recorded so far. [readdir] lists a directory of the disk. *)
Fixpoint scanEntries (readdir : PortablePath → Result (list xfs.Dirent))
    (nmPath : PortablePath) (entries : list xfs.Dirent)
    (extraneous : JsMap.t xfs.Dirent) : JsMap.t xfs.Dirent * Result unit :=
  match entries with
  | [] => (extraneous, Ok tt)
  | entry :: entries' =>
      if startsWith (xfs.name entry) "." then
        scanEntries readdir nmPath entries' extraneous
      else if startsWith (xfs.name entry) "@" then
        match readdir (ppath.join nmPath [xfs.name entry]) with
        | Err err => (extraneous, Err err)
        | Ok subEntries =>
            scanEntries readdir nmPath entries'
              (fold_left
                 (λ ext subEntry, JsMap.set [xfs.name entry; xfs.name subEntry] subEntry ext)
                 subEntries extraneous)
        end
      else
        scanEntries readdir nmPath entries' (JsMap.set [xfs.name entry] entry extraneous)
  end.

(** The [try] block. *)
Definition scanDirectory (readdir : PortablePath → Result (list xfs.Dirent))
    (nmPath : PortablePath) : JsMap.t xfs.Dirent * Result unit :=
  match readdir nmPath with
  | Err err => (JsMap.empty, Err err)
  | Ok entries => scanEntries readdir nmPath entries JsMap.empty
  end.

(** The [try] block with its [catch]: a missing directory is not an error,
    anything else is thrown again. *)
Definition listExtraneous (readdir : PortablePath → Result (list xfs.Dirent))
    (nmPath : PortablePath) : Result (JsMap.t xfs.Dirent) :=
  match scanDirectory readdir nmPath with
  | (extraneous, Ok _) => Ok extraneous
  | (extraneous, Err err) =>
      if codeIsNot ENOENT err then Err err else Ok extraneous
  end.

(** The locator whose registered path a dependency is linked to. *)
Definition targetDependency (this : PnpmInstaller) (dependency : Locator) : Locator :=
  if isPnpmVirtualCompatible this dependency
  then dependency
  else structUtils.devirtualizeLocator dependency.

(** One turn of the loop over the dependencies; the answer is [extraneous]
    once the name has been taken out of it. *)
Definition linkDependency {S : Type} {D : Disk S}
    (this : PnpmInstaller) (nmPath : PortablePath)
    (extraneous : JsMap.t xfs.Dirent) (entry : Descriptor * Locator)
    : StateErr S (JsMap.t xfs.Dirent) :=
  let '(descriptor, dependency) := entry in
  match locations this !! locatorHash (targetDependency this dependency) with
  | None => throw (registrationError (structUtils.stringifyLocator dependency))
  | Some depSrcPath =>
      let name := toPortablePath (structUtils.stringifyIdent descriptor) in
      let depDstPath := ppath.join nmPath name in
      let depLinkPath := ppath.relative (ppath.dirname depDstPath) depSrcPath in
      let existing := JsMap.get name extraneous in
      let extraneous := JsMap.delete name extraneous in
      let create : StateErr S (JsMap.t xfs.Dirent) :=
        modify (xfs.OpMkdirp (ppath.dirname depDstPath));;
        modify (xfs.OpSymlink depLinkPath depDstPath);;
        mret extraneous in
      match existing with
      | Some existing =>
          if xfs.isSymbolicLink existing then
            current ← query (xfs.readlinkPromise depDstPath);
            if bool_decide (current = depLinkPath) then mret extraneous
            else modify (xfs.OpRemove depDstPath);; create
          else modify (xfs.OpRemove depDstPath);; create
      | None => create
      end
  end.

Fixpoint linkDependencies {S : Type} {D : Disk S}
    (this : PnpmInstaller) (nmPath : PortablePath)
    (dependencies : list (Descriptor * Locator)) (extraneous : JsMap.t xfs.Dirent)
    : StateErr S (JsMap.t xfs.Dirent) :=
  match dependencies with
  | [] => mret extraneous
  | entry :: dependencies' =>
      extraneous' ← linkDependency this nmPath extraneous entry;
      linkDependencies this nmPath dependencies' extraneous'
  end.

Fixpoint removeExtraneous {S : Type} {D : Disk S}
    (nmPath : PortablePath) (names : list PortablePath) : StateErr S unit :=
  match names with
  | [] => mret tt
  | name :: names' =>
      modify (xfs.OpRemove (ppath.join nmPath name));;
      removeExtraneous nmPath names'
  end.

(** What [attachInternalDependencies] does once the dependent's path is
    known, on either disk. *)
Definition reconcile {S : Type} {D : Disk S}
    (this : PnpmInstaller) (pkgPath : PortablePath)
    (dependencies : list (Descriptor * Locator)) : StateErr S unit :=
  let nmPath := ppath.join pkgPath [nodeModules] in
  modify (xfs.OpMkdirp nmPath);;
  extraneous ← query (λ fs, listExtraneous (λ p, xfs.readdirPromise p fs) nmPath);
  extraneous ← linkDependencies this nmPath dependencies extraneous;
  removeExtraneous nmPath (JsMap.keys extraneous).

Definition attachInternalDependencies (locator : Locator)
    (dependencies : list (Descriptor * Locator)) : Async unit :=
  awaitPendingCopies;;
  this ← getThis;
  if negb (isPnpmVirtualCompatible this locator) then mret tt
  else
    match locations this !! locatorHash locator with
    | None => throw (registrationError (structUtils.stringifyLocator locator))
    | Some pkgPath => onDisk (reconcile this pkgPath dependencies)
    end.

Definition attachExternalDependents (locator : Locator) (dependentPaths : list PortablePath)
    : Async unit :=
  throw (PlainError "External dependencies haven't been implemented for the pnpm linker").

Definition finalizeInstall : Async Any :=
  this ← getThis;
  if negb (bool_decide (get (configuration (project (opts this))) "nodeLinker" = "pnpm"))
  then mret JsUndefined
  else mret JsNull.

Definition withCustomData (d : Any) (m : Machine) : Machine :=
  mkMachine (setCustomData d (this m)) (disk m).

(** *** Sequences of calls *)

(** The operations a caller runs on an installer once the custom data is
    attached, and what they answer. *)
Inductive Call :=
| CallInstallPackage (pkg : Package) (fetchResult : FetchResult)
| CallAttachInternalDependencies (locator : Locator) (dependencies : list (Descriptor * Locator))
| CallAttachExternalDependents (locator : Locator) (dependentPaths : list (list string))
| CallFinalizeInstall.

Inductive Answer :=
| AnswerStatus (status : InstallStatus)
| AnswerVoid
| AnswerAny (value : Any).

Definition perform (c : Call) : Async Answer :=
  match c with
  | CallInstallPackage pkg fetchResult =>
      status ← installPackage pkg fetchResult; mret (AnswerStatus status)
  | CallAttachInternalDependencies locator dependencies =>
      attachInternalDependencies locator dependencies;; mret AnswerVoid
  | CallAttachExternalDependents locator dependentPaths =>
      attachExternalDependents locator dependentPaths;; mret AnswerVoid
  | CallFinalizeInstall =>
      value ← finalizeInstall; mret (AnswerAny value)
  end.

(** Runs the calls in turn, whatever each one answers, as a caller that
    catches errors would. *)
Fixpoint performAll (cs : list Call) (m : Machine) : Machine * list (Result Answer) :=
  match cs with
  | [] => (m, [])
  | c :: cs' =>
      let '(m1, r) := perform c m in
      let '(m2, rs) := performAll cs' m1 in
      (m2, r :: rs)
  end.

(** What can be seen of a run: the answers, the disk, and the installer
    apart from its custom data. *)
Definition observable (run : Machine * list (Result Answer))
    : list (Result Answer) * xfs.Node * (LinkOptions * gmap string (list string) * list Promise) :=
  (run.2, disk run.1,
   (opts (this run.1), locations (this run.1), pendingCopies (this run.1))).

End Installer.

(** ** A sample project *)

Module Sample.

Fixpoint afterHash (s : string) : option string :=
  match s with
  | EmptyString => None
  | String c s' => if Ascii.eqb c "#" then Some s' else afterHash s'
  end.

Fixpoint dashed (s : string) : string :=
  match s with
  | EmptyString => EmptyString
  | String c s' =>
      String (if Ascii.eqb c "/" || Ascii.eqb c ":" || Ascii.eqb c "#" || Ascii.eqb c "@"
              then "-"%char else c) (dashed s')
  end.

Definition makeLocator (ident : Ident) (reference : string) : Locator :=
  mkLocator ident reference (structUtils.stringifyIdent ident +:+ "@" +:+ reference).

(** Modelled from the spec: the helpers of [structUtils] are not among the
    sources. A virtual locator wraps a concrete one with a peer-context
    discriminator: its reference reads [virtual:<context>#<reference>], and
    devirtualizing gives the locator of the same identifier with the inner
    reference. *)
Definition impl : structUtils.Impl := {|
  structUtils.isVirtualLocator l := startsWith (reference l) "virtual:";
  structUtils.devirtualizeLocator l :=
    match afterHash (reference l) with
    | Some r => makeLocator l r
    | None => l
    end;
  structUtils.slugifyLocator l := dashed (structUtils.stringifyIdent l +:+ "-" +:+ reference l);
  structUtils.stringifyLocator l := structUtils.stringifyIdent l +:+ "@" +:+ reference l;
|}.

Definition dir (entries : list (string * xfs.Node)) : xfs.Node :=
  xfs.Directory (list_to_map entries).

Definition leftPad : Ident := mkIdent None "left-pad".
Definition app : Ident := mkIdent (Some "my") "app".
Definition root : Ident := mkIdent None "root".

Definition leftPadLocator : Locator := makeLocator leftPad "npm:1.0.0".
Definition leftPadVirtual : Locator := makeLocator leftPad "virtual:5f3a#npm:1.0.0".
Definition appLocator : Locator := makeLocator app "workspace:packages/app".
Definition appVirtual : Locator := makeLocator app "virtual:77aa#workspace:packages/app".
Definition rootLocator : Locator := makeLocator root "workspace:.".

(** The workspaces of the project are [root] and [@my/app]; a virtual
    locator is looked up by what it wraps. *)
Definition sampleProject : Project :=
  mkProject ["proj"] (mkConfiguration (λ _, "pnpm"))
    (λ l,
       let l' := if @structUtils.isVirtualLocator impl l
                 then @structUtils.devirtualizeLocator impl l else l in
       if bool_decide (locatorHash l' = locatorHash appLocator)
       then Some (mkWorkspace ["proj"; "packages"; "app"] appLocator)
       else if bool_decide (locatorHash l' = locatorHash rootLocator)
       then Some (mkWorkspace ["proj"] rootLocator)
       else None).

Definition sampleOpts : LinkOptions := mkLinkOptions sampleProject.

Definition packageJson : xfs.Node := xfs.File "{}".

(** The disk before the first install: the two workspaces, and in the
    dependency directory of the root a stale link, a tool cache and a stale
    scoped entry. *)
Definition disk0 : xfs.Node :=
  dir [("proj",
        dir [("package.json", packageJson);
             ("node_modules",
              dir [("stale", xfs.Symlink [".store"; "stale"]);
                   (".cache", dir [("state", xfs.File "1")]);
                   ("@old", dir [("gone", xfs.File "")])]);
             ("packages", dir [("app", dir [("package.json", packageJson)])])])].

Definition leftPadArchive : FakeFS :=
  mkFakeFS ["cache"; "left-pad.zip"]
    (dir [("node_modules", dir [("left-pad", dir [("index.js", xfs.File "pad")])])]).

Definition leftPadFetch : FetchResult := mkFetchResult leftPadArchive ["node_modules"; "left-pad"].
Definition appFetch : FetchResult := mkFetchResult (mkFakeFS ["proj"; "packages"; "app"] (dir [])) [].
Definition rootFetch : FetchResult := mkFetchResult (mkFakeFS ["proj"] (dir [])) [].

Definition machine0 : Machine := mkMachine (PnpmLinker.makeInstaller sampleOpts) disk0.

(** Every package of the sample registered, virtual instances included. *)
Definition installAll : StateErr Machine unit :=
  @installPackage impl (mkPackage rootLocator SOFT) rootFetch;;
  @installPackage impl (mkPackage leftPadLocator HARD) leftPadFetch;;
  @installPackage impl (mkPackage leftPadVirtual HARD) leftPadFetch;;
  @installPackage impl (mkPackage appLocator SOFT) appFetch;;
  @installPackage impl (mkPackage appVirtual SOFT) appFetch;;
  mret tt.

Definition machine1 : Machine := (installAll machine0).1.

Definition rootDependencies : list (Descriptor * Locator) :=
  [(mkDescriptor leftPad "^1.0.0", leftPadLocator);
   (mkDescriptor app "workspace:*", appLocator)].

(** The state once the scheduled copies have run. *)
Definition machine2 : Machine := (awaitPendingCopies machine1).1.

(** The state once the dependency directory of the root is reconciled. *)
Definition machine3 : Machine :=
  (@attachInternalDependencies impl rootLocator rootDependencies machine1).1.

(** The store slot of the virtual instance of [left-pad]. *)
Definition leftPadVirtualSlot : list string :=
  ["proj"; "node_modules"; ".store"; "left-pad-virtual-5f3a-npm-1.0.0"].












(** A project where a file sits in the place of the dependency directory of
    the root, so that no slot of the store can be created, and the state
    once the root and [left-pad] are registered there. *)
Definition blockedDisk : xfs.Node :=
  dir [("proj", dir [("package.json", packageJson); ("node_modules", xfs.File "")])].

Definition blockedStart : Machine :=
  ((@installPackage impl (mkPackage rootLocator SOFT) rootFetch;;
    @installPackage impl (mkPackage leftPadLocator HARD) leftPadFetch;;
    mret tt)
     (mkMachine (PnpmLinker.makeInstaller sampleOpts) blockedDisk)).1.

(** The workspaces of the sample and two more packages, all of them linked
    from where they are: nothing is copied. *)
Definition scopedFoo : Ident := mkIdent (Some "s") "foo".
Definition scopedFooLocator : Locator := makeLocator scopedFoo "link:packages/foo".
Definition hiddenName : Ident := mkIdent None ".hidden".
Definition hiddenNameLocator : Locator := makeLocator hiddenName "link:packages/hidden".

Definition linkedOn (fs : xfs.Node) : Machine :=
  ((@installPackage impl (mkPackage rootLocator SOFT) rootFetch;;
    @installPackage impl (mkPackage appLocator SOFT) appFetch;;
    @installPackage impl (mkPackage scopedFooLocator SOFT)
      (mkFetchResult (mkFakeFS ["proj"; "packages"; "foo"] (dir [])) []);;
    @installPackage impl (mkPackage hiddenNameLocator SOFT)
      (mkFetchResult (mkFakeFS ["proj"; "packages"; "hidden"] (dir [])) []);;
    mret tt)
     (mkMachine (PnpmLinker.makeInstaller sampleOpts) fs)).1.

(** The sample project installed in [real], with [proj] a link to it. *)
Definition linkedDisk : xfs.Node :=
  dir [("real",
        dir [("package.json", packageJson);
             ("packages", dir [("app", dir [("package.json", packageJson)])])]);
       ("proj", xfs.Symlink ["real"])].

Definition linkedStart : Machine :=
  (installAll (mkMachine (PnpmLinker.makeInstaller sampleOpts) linkedDisk)).1.

(** That project once the copies have run, and once the dependency
    directory of the root is reconciled. *)
Definition linkedWaited : Machine := (awaitPendingCopies linkedStart).1.


(** A dependency directory one of whose scopes is a link to the directory
    itself. *)
Definition aliasedScopeDisk : xfs.Node :=
  dir [("proj",
        dir [("package.json", packageJson);
             ("node_modules",
              dir [(".bin", dir [("tool", xfs.File "")]);
                   ("@s", xfs.Symlink ["."])])])].

(** A dependent whose dependency directory is a link to the directory the
    dependent is installed in. *)
Definition selfLinkedDisk : xfs.Node :=
  dir [("proj",
        dir [(".npmrc", xfs.File "");
             ("package.json", packageJson);
             ("node_modules", xfs.Symlink ["."])])].


(** A project with no dependency directory yet. *)
Definition bareDisk : xfs.Node :=
  dir [("proj", dir [("package.json", packageJson)])].

(** A disk where the project is not there yet. *)
Definition emptyDisk : xfs.Node := dir [].

(** One dependency in the scope [@s], and one whose name starts with a
    dot. *)
Definition scopedFooDependencies : list (Descriptor * Locator) :=
  [(mkDescriptor scopedFoo "*", scopedFooLocator)].

Definition hiddenNameDependencies : list (Descriptor * Locator) :=
  [(mkDescriptor hiddenName "*", hiddenNameLocator)].

(** Dependencies that name [left-pad] twice. *)
Definition repeatedDependencies : list (Descriptor * Locator) :=
  [(mkDescriptor leftPad "^1.0.0", leftPadLocator);
   (mkDescriptor app "workspace:*", appLocator);
   (mkDescriptor leftPad "^1.1.0", leftPadLocator)].

End Sample.

(** ** Vocabulary of the properties *)

(** A path all of whose segments name entries. *)
Definition plainPath (p : list string) : Prop :=
  Forall (λ s, isPlainSegment s = true) p.

Definition notLink (n : xfs.Node) : Prop := xfs.kindOf n ≠ xfs.KSymlink.

Fixpoint noSlash (s : string) : bool :=
  match s with
  | EmptyString => true
  | String c s' => negb (Ascii.eqb c "/") && noSlash s'
  end.

(** The identifiers package names give: the name is a plain segment without
    separator; without a scope it starts neither with a dot nor with the
    scope marker; a scope holds no separator. *)
Definition wfIdent (ident : Ident) : Prop :=
  isPlainSegment (name ident) = true
  ∧ noSlash (name ident) = true
  ∧ match scope ident with
    | Some s =>
        noSlash s = true
        ∧ (s = "" → startsWith (name ident) "." = false ∧ startsWith (name ident) "@" = false)
    | None => startsWith (name ident) "." = false ∧ startsWith (name ident) "@" = false
    end.

(** The name a dependency is linked under, as a path below the dependency
    directory. *)
Definition dependencyKey (descriptor : Descriptor) : list string :=
  toPortablePath (structUtils.stringifyIdent descriptor).

(** The keys the listing of a dependency directory records: a name that is
    neither hidden nor a scope, or a scope and a name in it. *)
Definition entryKey (key : list string) : bool :=
  match key with
  | [n] => isPlainSegment n && negb (startsWith n ".") && negb (startsWith n "@")
  | [s; c] => startsWith s "@" && isPlainSegment c
  | _ => false
  end.

(** The scopes of a directory are directories themselves. *)
Definition scopesAreDirectories (ch : gmap string xfs.Node) : Prop :=
  ∀ s c, startsWith s "@" = true → ch !! s = Some c → xfs.kindOf c = xfs.KDirectory.

(** The keys the listing records for one entry of the directory: the entry
    under its own name, or each entry of a scope under the name of the scope
    and its own. Nothing is recorded for an entry whose name starts with a
    dot. *)
Definition recordedFor (readdir : list string → Result (list xfs.Dirent))
    (nmPath : list string) (entry : xfs.Dirent) (key : list string) (d : xfs.Dirent) : Prop :=
  startsWith (xfs.name entry) "." = false
  ∧ ((startsWith (xfs.name entry) "@" = false ∧ key = [xfs.name entry] ∧ d = entry)
     ∨ (startsWith (xfs.name entry) "@" = true
        ∧ ∃ subEntries,
            readdir (ppath.join nmPath [xfs.name entry]) = Ok subEntries
            ∧ d ∈ subEntries ∧ key = [xfs.name entry; xfs.name d])).

(** A file or a link: what a copy could overwrite. *)
Definition isLeaf (n : xfs.Node) : Prop := xfs.kindOf n ≠ xfs.KDirectory.

(** A size for inductions on the tree. *)
Fixpoint nodeSize (n : xfs.Node) : nat :=
  match n with
  | xfs.Directory ch => S (map_fold (λ _ c acc, nodeSize c + acc) 0 ch)
  | _ => 1
  end.

(** What a copy leaves for one name of a directory, given the entry of the
    source and the entry of the destination under that name. *)
Definition copyEntry (overwrite : bool) (s d : option xfs.Node) : option xfs.Node :=
  match s with
  | Some s' => Some (xfs.copyNode overwrite s' d)
  | None => d
  end.


(** The node a key designates below a directory with children [ch]. *)
Definition entryAt (ch : gmap string xfs.Node) (key : list string) : option xfs.Node :=
  xfs.lookupNode (xfs.Directory ch) key.

(** [ch'] is [ch] with the entry at [key] set to [x]: the other recorded
    entries, the hidden entries and the scopes are as they were. *)
Definition updatedAt (key : list string) (x : option xfs.Node)
    (ch ch' : gmap string xfs.Node) : Prop :=
  entryAt ch' key = x
  ∧ (∀ key', entryKey key' = true → key' ≠ key → entryAt ch' key' = entryAt ch key')
  ∧ (∀ n, startsWith n "." = true → ch' !! n = ch !! n)
  ∧ scopesAreDirectories ch'.

(** The dependent is installed in a directory reached without links, and
    its dependency directory, where there is one, is a directory whose
    scopes are directories. *)
Definition plainDependent (fs : xfs.Node) (pkgPath : list string) : Prop :=
  plainPath pkgPath
  ∧ ∃ pch, xfs.lookupNode fs pkgPath = Some (xfs.Directory pch)
           ∧ match pch !! nodeModules with
             | None => True
             | Some (xfs.Directory nch) => scopesAreDirectories nch
             | Some _ => False
             end.

(** Checks of the two conditions above, for evaluation. *)
Definition scopesAreDirectoriesb (ch : gmap string xfs.Node) : bool :=
  forallb (λ e : string * xfs.Node,
             negb (startsWith e.1 "@") || bool_decide (xfs.kindOf e.2 = xfs.KDirectory))
    (map_to_list ch).

Definition plainDependentb (fs : xfs.Node) (pkgPath : list string) : bool :=
  forallb isPlainSegment pkgPath
  && match xfs.lookupNode fs pkgPath with
     | Some (xfs.Directory pch) =>
         match pch !! nodeModules with
         | None => true
         | Some (xfs.Directory nch) => scopesAreDirectoriesb nch
         | Some _ => false
         end
     | _ => false
     end.

(** A node without what it holds: a directory is taken empty. *)
Definition shape (n : xfs.Node) : xfs.Node :=
  match n with
  | xfs.Directory _ => xfs.Directory ∅
  | _ => n
  end.

(** [fs'] has every node of [fs], of the same kind, with the same content
    for a file and the same target for a link; it may hold more. *)
Definition grows (fs fs' : xfs.Node) : Prop :=
  ∀ p n, xfs.lookupNode fs p = Some n →
         ∃ n', xfs.lookupNode fs' p = Some n' ∧ shape n' = shape n.

(** The path [p] designates the directory found at the link-free path [d],
    whose entries are [ch], and the way from [p] to it does not go through
    what the directory holds: it is the same way when the directory is
    empty. *)
Definition dirAt (fs : xfs.Node) (p d : list string) (ch : gmap string xfs.Node) : Prop :=
  xfs.resolveDir fs p = Ok (d, ch)
  ∧ xfs.realpath (xfs.updateDir fs d (λ _, ∅)) p = Ok d.


(** The dependent installed at [pkgPath], a path that may go through links,
    can be reconciled: either its dependency directory is there, reached
    by a way that does not go through it, with directories for scopes, or
    it is not there and can be made: some directory on the way to it is
    there and has no entry for the next name of the way, the names from
    there on being plain ones. *)
Definition reconcilable (fs : xfs.Node) (pkgPath : list string) : Prop :=
  (∃ d ch, dirAt fs (pkgPath ++ [nodeModules]) d ch ∧ scopesAreDirectories ch)
  ∨ (∃ base q pch a rest,
       pkgPath ++ [nodeModules] = base ++ a :: rest
       ∧ xfs.resolveDir fs base = Ok (q, pch)
       ∧ pch !! a = None
       ∧ Forall (λ s, isPlainSegment s = true) (a :: rest)).

(** A check of that condition, for evaluation. *)
Definition reconcilableb (fs : xfs.Node) (pkgPath : list string) : bool :=
  let p := pkgPath ++ [nodeModules] in
  match xfs.resolveDir fs p with
  | Ok (d, ch) =>
      bool_decide (xfs.realpath (xfs.updateDir fs d (λ _, ∅)) p = Ok d)
      && scopesAreDirectoriesb ch
  | Err _ =>
      existsb (λ i,
                 match xfs.resolveDir fs (take i p), drop i p with
                 | Ok (_, pch), a :: rest =>
                     bool_decide (pch !! a = None) && forallb isPlainSegment (a :: rest)
                 | _, _ => false
                 end)
        (seq 0 (length p))
  end.



(** The target of the link for a dependency registered at [src]. *)
Definition desiredTarget (nmPath : list string) (descriptor : Descriptor)
    (src : list string) : list string :=
  ppath.relative (ppath.dirname (ppath.join nmPath (dependencyKey descriptor))) src.

Section Vocabulary.

Context {su : structUtils.Impl}.

(** The dependency is registered and its entry is the link to its path. *)
Definition linked (this : PnpmInstaller) (nmPath : list string)
    (ch : gmap string xfs.Node) (entry : Descriptor * Locator) : Prop :=
  ∃ src, locations this !! locatorHash (targetDependency this entry.2) = Some src
         ∧ entryAt ch (dependencyKey entry.1)
           = Some (xfs.Symlink (desiredTarget nmPath entry.1 src)).

(** The state of the loop over the dependencies, once the dependencies in
    [seen] have had their turn: [ch] are the entries of the dependency
    directory, [ch0] those it had when the loop began, [extraneous] what is
    left of the listing. *)
Definition reconciling (this : PnpmInstaller) (nmPath : list string)
    (ch0 ch : gmap string xfs.Node) (extraneous : JsMap.t xfs.Dirent)
    (seen : list (Descriptor * Locator)) : Prop :=
  scopesAreDirectories ch
  ∧ (∀ key d, JsMap.get key extraneous = Some d →
       entryKey key = true
       ∧ ∃ node, entryAt ch key = Some node ∧ xfs.kind d = xfs.kindOf node)
  ∧ (∀ key node, entryKey key = true → entryAt ch key = Some node →
       is_Some (JsMap.get key extraneous) ∨ key ∈ dependencyKey <$> seen.*1)
  ∧ Forall (linked this nmPath ch) seen
  ∧ (∀ key, key ∈ dependencyKey <$> seen.*1 → JsMap.get key extraneous = None)
  ∧ NoDup (dependencyKey <$> seen.*1)
  ∧ Forall (λ entry : Descriptor * Locator, wfIdent entry.1) seen
  ∧ (∀ n, startsWith n "." = true → ch !! n = ch0 !! n).

End Vocabulary.

(** ** Vocabulary of the further properties *)

(** The copies a run of installs schedules: one for each package whose
    link type is [HARD], in the order of the installs. *)
Definition scheduledBy {su : structUtils.Impl} (projectCwd : list string)
    (installs : list (Package * FetchResult)) : list Promise :=
  flat_map (λ install : Package * FetchResult,
              match linkType install.1 with
              | HARD =>
                  [mkPromise
                     (ppath.join projectCwd
                        [nodeModules; ".store"; structUtils.slugifyLocator install.1])
                     install.2 Pending]
              | _ => []
              end) installs.

(** The calls that install the packages of a list, in turn. *)
Definition installCalls (installs : list (Package * FetchResult)) : list Call :=
  map (λ install : Package * FetchResult, CallInstallPackage install.1 install.2) installs.

(** A task as a later state of the installer holds it: the same task, and
    the same outcome once it has one. *)
Definition laterStateOf (p p' : Promise) : Prop :=
  taskPath p' = taskPath p ∧ taskSource p' = taskSource p
  ∧ (state p ≠ Pending → state p' = state p).

(** [fs'] is [fs] wherever the directory [d] is not involved: at every path
    that neither lies in [d] nor leads to it. *)
Definition sameOutside (d : list string) (fs fs' : xfs.Node) : Prop :=
  ∀ p, ¬ d `prefix_of` p → ¬ p `prefix_of` d → xfs.lookupNode fs' p = xfs.lookupNode fs p.

(** The dependency is registered, somewhere else than in the directory its
    link goes to. *)
Definition linkable {su : structUtils.Impl} (this : PnpmInstaller) (nmPath : list string)
    (entry : Descriptor * Locator) : Prop :=
  ∃ src, locations this !! locatorHash (targetDependency this entry.2) = Some src
         ∧ src ≠ ppath.dirname (ppath.join nmPath (dependencyKey entry.1)).

(** No file and no link on the way: every node found along the path [p],
    the node at [p] included, is a directory. Where the path stops being
    there, it can be created. *)
Fixpoint clearPath (n : xfs.Node) (p : list string) : bool :=
  match n with
  | xfs.Directory ch =>
      match p with
      | [] => true
      | s :: p' =>
          match ch !! s with
          | Some c => clearPath c p'
          | None => true
          end
      end
  | _ => false
  end.

(** The entries of the directory at [p], none when no directory is there. *)
Definition directoryAt (fs : xfs.Node) (p : list string) : gmap string xfs.Node :=
  match xfs.lookupNode fs p with
  | Some (xfs.Directory ch) => ch
  | _ => ∅
  end.

(** What a copy task reads: the node at the prefix path in the file system
    of the fetched package. *)
Definition fetched (fetchResult : FetchResult) : Result xfs.Node :=
  xfs.lstatPromise (prefixPath fetchResult) (contents (packageFs fetchResult)).

(** A copy that has not run yet, for a slot that is an entry of the
    directory [store] and can be created on the disk [fs], of a package that
    was fetched. *)
Definition slotTask (store : list string) (fs : xfs.Node) (p : Promise) : Prop :=
  state p = Pending
  ∧ (∃ slug, isPlainSegment slug = true ∧ taskPath p = store ++ [slug])
  ∧ clearPath fs (taskPath p) = true
  ∧ isOk (fetched (taskSource p)) = true.

(** The slot of the task holds, on [fs'], the fetched package copied over
    what the slot held on [fs], nothing overwritten. *)
Definition populated (fs fs' : xfs.Node) (p : Promise) : Prop :=
  ∃ source,
    fetched (taskSource p) = Ok source
    ∧ xfs.lookupNode fs' (taskPath p)
      = Some (xfs.copyNode false source
                (Some (xfs.Directory (directoryAt fs (taskPath p))))).

(** * Properties *)

(** The reconciliation on the disk itself: its writes and reads are those
    of the file system. *)
Ltac plain_disk := cbn [modify query plainDisk xfs.apply].

Section Properties.

Context {su : structUtils.Impl}.

(** ** The barrier *)

Lemma settle_state (p : Promise) (fs : xfs.Node) :
  state (settle p fs).1 ≠ Pending.
Proof.
  unfold settle. destruct (state p) eqn:E; simpl; try congruence.
  by destruct (job p fs) as [fs' [[]|e]].
Qed.

Lemma settleAll_settled (ps : list Promise) (fs : xfs.Node) :
  Forall (λ p, state p ≠ Pending) (settleAll ps fs).1.
Proof.
  revert fs. induction ps as [|p ps IH]; intros fs; simpl; [constructor|].
  pose proof (settle_state p fs) as Hp. destruct (settle p fs) as [p' fs1].
  specialize (IH fs1). destruct (settleAll ps fs1) as [ps'' fs2]. by constructor.
Qed.


(** Tasks that have all run, none of which failed, are fulfilled. *)
Lemma firstRejected_none (ps : list Promise) :
  Forall (λ p, state p ≠ Pending) ps → firstRejected ps = None →
  Forall (λ p, state p = Fulfilled) ps.
Proof.
  induction 1 as [|p ps Hp Hps IH]; simpl; [constructor|].
  destruct (state p) eqn:E; try done. intros Hn. constructor; auto.
Qed.


Lemma promiseAll_fulfilled (ps ps' : list Promise) (fs fs' : xfs.Node) :
  promiseAll ps fs = (ps', fs', Ok tt) →
  Forall (λ p, state p = Fulfilled) ps'.
Proof.
  unfold promiseAll. pose proof (settleAll_settled ps fs) as Hs.
  destruct (settleAll ps fs) as [ps1 fs1]. simpl in Hs.
  destruct (firstRejected ps); [done|].
  destruct (firstRejected ps1) eqn:E; [done|].
  intros [= <- _]. by apply firstRejected_none.
Qed.

Lemma awaitPendingCopies_fulfilled (m m1 : Machine) :
  awaitPendingCopies m = (m1, Ok tt) →
  Forall (λ p, state p = Fulfilled) (pendingCopies (this m1)).
Proof.
  unfold awaitPendingCopies.
  destruct (promiseAll _ _) as [[ps fs] r] eqn:E. intros [= <- ->].
  simpl. by eapply promiseAll_fulfilled.
Qed.

(** Waiting changes the tasks and the disk, nothing else. *)
Lemma awaitPendingCopies_this (m m1 : Machine) (r : Result unit) :
  awaitPendingCopies m = (m1, r) →
  opts (this m1) = opts (this m)
  ∧ locations (this m1) = locations (this m)
  ∧ customData (this m1) = customData (this m).
Proof.
  unfold awaitPendingCopies.
  destruct (promiseAll _ _) as [[ps fs] r']. by intros [= <- _].
Qed.

Lemma isPnpmVirtualCompatible_opts (this this' : PnpmInstaller) (locator : Locator) :
  opts this' = opts this →
  isPnpmVirtualCompatible this' locator = isPnpmVirtualCompatible this locator.
Proof. unfold isPnpmVirtualCompatible. by intros ->. Qed.

Lemma isPnpmVirtualCompatible_negb (this : PnpmInstaller) (locator : Locator) :
  isPnpmVirtualCompatible this locator
  = negb (structUtils.isVirtualLocator locator && isWorkspace this locator).
Proof.
  unfold isPnpmVirtualCompatible, isWorkspace.
  by destruct (structUtils.isVirtualLocator locator), (truthy _).
Qed.

(** [attachInternalDependencies] once the wait is over. *)
Lemma attachInternalDependencies_after_wait
    (locator : Locator) (dependencies : list (Descriptor * Locator)) (m m1 : Machine) :
  awaitPendingCopies m = (m1, Ok tt) →
  attachInternalDependencies locator dependencies m
  = if negb (isPnpmVirtualCompatible (this m) locator) then (m1, Ok tt)
    else match locations (this m) !! locatorHash locator with
         | None => (m1, Err (registrationError (structUtils.stringifyLocator locator)))
         | Some pkgPath => onDisk (reconcile (this m1) pkgPath dependencies) m1
         end.
Proof.
  intros E. destruct (awaitPendingCopies_this _ _ _ E) as (Ho & Hl & _).
  unfold attachInternalDependencies, mbind, StateErr_bind. rewrite E.
  unfold getThis. rewrite (isPnpmVirtualCompatible_opts _ _ _ Ho), Hl.
  destruct (negb _); [done|]. by destruct (locations (this m) !! _).
Qed.

Lemma attachInternalDependencies_wait_fails
    (locator : Locator) (dependencies : list (Descriptor * Locator)) (m m1 : Machine) (e : Error) :
  awaitPendingCopies m = (m1, Err e) →
  attachInternalDependencies locator dependencies m = (m1, Err e).
Proof.
  intros E. unfold attachInternalDependencies, mbind, StateErr_bind. by rewrite E.
Qed.

(** ** C9 *)

(** C9. For every locator, every list of dependent paths and every state,
    [attachExternalDependents] ends with the error saying that external
    dependencies are not implemented for this linker, and leaves the
    installer and the disk exactly as they were. *)
Theorem attachExternalDependents_always_fails :
  ∀ (locator : Locator) (dependentPaths : list (list string)) (m : Machine),
    attachExternalDependents locator dependentPaths m
    = (m, Err (PlainError "External dependencies haven't been implemented for the pnpm linker")).
Proof. reflexivity. Qed.

(** ** The locator a dependency is linked to *)

Lemma targetDependency_eq (this : PnpmInstaller) (dependency : Locator) :
  targetDependency this dependency
  = if structUtils.isVirtualLocator dependency
    then if isWorkspace this dependency
         then structUtils.devirtualizeLocator dependency
         else dependency
    else dependency.
Proof.
  unfold targetDependency. rewrite isPnpmVirtualCompatible_negb.
  by destruct (structUtils.isVirtualLocator dependency), (isWorkspace this dependency).
Qed.

(** ** C2 *)

(** C2, as amended. Once the wait for the copies is over, the call returns
    at once, with the disk and the location table as the wait left them,
    exactly when the dependent is virtual and corresponds to a workspace.
    For every other dependent it goes on: it fails if the dependent is not
    registered and reconciles its dependency directory if it is. *)
Theorem attachInternalDependencies_skips_virtual_workspaces :
  ∀ (locator : Locator) (dependencies : list (Descriptor * Locator)) (m m1 : Machine),
    awaitPendingCopies m = (m1, Ok tt) →
    locations (this m1) = locations (this m)
    ∧ attachInternalDependencies locator dependencies m
      = if structUtils.isVirtualLocator locator && isWorkspace (this m) locator
        then (m1, Ok tt)
        else match locations (this m) !! locatorHash locator with
             | None => (m1, Err (registrationError (structUtils.stringifyLocator locator)))
             | Some pkgPath => onDisk (reconcile (this m1) pkgPath dependencies) m1
             end.
Proof.
  intros locator dependencies m m1 E. split.
  - by destruct (awaitPendingCopies_this _ _ _ E) as (_ & ? & _).
  - rewrite (attachInternalDependencies_after_wait _ _ _ _ E).
    rewrite isPnpmVirtualCompatible_negb, negb_involutive. done.
Qed.

(** ** C4 *)


(** ** C6 *)

Lemma linkDependency_unregistered (this : PnpmInstaller) (nmPath : list string)
    (extraneous : JsMap.t xfs.Dirent) (descriptor : Descriptor) (dependency : Locator)
    (fs : xfs.Node) :
  locations this !! locatorHash (targetDependency this dependency) = None →
  linkDependency this nmPath extraneous (descriptor, dependency) fs
  = (fs, Err (registrationError (structUtils.stringifyLocator dependency))).
Proof. intros E. unfold linkDependency. by rewrite E. Qed.

Lemma linkDependencies_cons (this : PnpmInstaller) (nmPath : list string)
    (entry : Descriptor * Locator) (dependencies : list (Descriptor * Locator))
    (extraneous : JsMap.t xfs.Dirent) (fs : xfs.Node) :
  linkDependencies this nmPath (entry :: dependencies) extraneous fs
  = match linkDependency this nmPath extraneous entry fs with
    | (fs1, Ok extraneous1) => linkDependencies this nmPath dependencies extraneous1 fs1
    | (fs1, Err e) => (fs1, Err e)
    end.
Proof. reflexivity. Qed.

Lemma linkDependencies_unregistered (this : PnpmInstaller) (nmPath : list string)
    (dependencies : list (Descriptor * Locator)) (extraneous : JsMap.t xfs.Dirent)
    (fs : xfs.Node) :
  Exists (λ entry, locations this !! locatorHash (targetDependency this entry.2) = None)
    dependencies →
  ∃ fs' e, linkDependencies this nmPath dependencies extraneous fs = (fs', Err e).
Proof.
  intros Hex. revert extraneous fs.
  induction Hex as [[descriptor dependency] rest Hnone | entry rest Hex IH];
    intros extraneous fs; rewrite linkDependencies_cons.
  - simpl in Hnone. rewrite (linkDependency_unregistered _ nmPath extraneous descriptor _ fs Hnone).
    eauto.
  - destruct (linkDependency this nmPath extraneous entry fs) as [fs1 [ext1|e]]; eauto.
Qed.

Lemma reconcile_unregistered (this : PnpmInstaller) (pkgPath : list string)
    (dependencies : list (Descriptor * Locator)) (fs : xfs.Node) :
  Exists (λ entry, locations this !! locatorHash (targetDependency this entry.2) = None)
    dependencies →
  ∃ fs' e, reconcile this pkgPath dependencies fs = (fs', Err e).
Proof.
  intros Hex. unfold reconcile, mbind, StateErr_bind. plain_disk. unfold xfsWrite, xfsRead.
  destruct (xfs.mkdirpPromise _ fs) as [fs1|e]; [|eauto].
  destruct (listExtraneous _ _) as [ext|e]; [|eauto].
  destruct (linkDependencies_unregistered this (ppath.join pkgPath [nodeModules])
              dependencies ext fs1 Hex) as (fs2 & e & ->).
  eauto.
Qed.

(** C6, as amended. For a dependent that is reconciled, that is one that
    is not both virtual and a workspace, and once the wait for the copies
    is over: if the dependent has no entry in the location table the call
    raises the assertion error that names it and changes nothing; if the
    locator a dependency is linked to has no entry, the turn of the loop
    that reaches it raises the assertion error that names the dependency,
    and the call never ends well. A dependent that is virtual and a
    workspace is skipped before the table is looked at. *)
Theorem unregistered_locators_are_fatal :
  ∀ (locator : Locator) (dependencies : list (Descriptor * Locator)) (m m1 : Machine),
    awaitPendingCopies m = (m1, Ok tt) →
    isPnpmVirtualCompatible (this m) locator = true →
    (locations (this m) !! locatorHash locator = None →
     attachInternalDependencies locator dependencies m
     = (m1, Err (registrationError (structUtils.stringifyLocator locator))))
    ∧ (∀ nmPath extraneous descriptor dependency fs,
         locations (this m) !! locatorHash (targetDependency (this m) dependency) = None →
         linkDependency (this m) nmPath extraneous (descriptor, dependency) fs
         = (fs, Err (registrationError (structUtils.stringifyLocator dependency))))
    ∧ (Exists (λ entry, locations (this m)
                        !! locatorHash (targetDependency (this m) entry.2) = None)
         dependencies →
       ∃ m' e, attachInternalDependencies locator dependencies m = (m', Err e)).
Proof.
  intros locator dependencies m m1 E Hc.
  rewrite (attachInternalDependencies_after_wait _ _ _ _ E), Hc. simpl.
  split; [|split].
  - by intros ->.
  - intros. by apply linkDependency_unregistered.
  - intros Hex. destruct (locations (this m) !! locatorHash locator) as [pkgPath|]; [|eauto].
    destruct (awaitPendingCopies_this _ _ _ E) as (Ho & Hl & _).
    assert (Exists (λ entry, locations (this m1)
                     !! locatorHash (targetDependency (this m1) entry.2) = None) dependencies)
      as Hex1.
    { eapply Exists_impl; [exact Hex|]. intros entry. simpl.
      unfold targetDependency. by rewrite (isPnpmVirtualCompatible_opts _ _ _ Ho), Hl. }
    destruct (reconcile_unregistered (this m1) pkgPath dependencies (disk m1) Hex1)
      as (fs' & e & Hr).
    unfold onDisk. rewrite Hr. eauto.
Qed.

(** ** The call once the dependency directory is there *)


(** ** C10 *)

(** The reconciliation reads the options and the location table of the
    installer, nothing else. *)
Lemma linkDependency_reads (this this' : PnpmInstaller) (nmPath : list string)
    (extraneous : JsMap.t xfs.Dirent) (entry : Descriptor * Locator) (fs : xfs.Node) :
  opts this' = opts this → locations this' = locations this →
  linkDependency this' nmPath extraneous entry fs
  = linkDependency this nmPath extraneous entry fs.
Proof.
  intros Ho Hl. destruct entry as [descriptor dependency].
  unfold linkDependency, targetDependency.
  by rewrite (isPnpmVirtualCompatible_opts _ _ _ Ho), Hl.
Qed.

Lemma linkDependencies_reads (this this' : PnpmInstaller) (nmPath : list string)
    (dependencies : list (Descriptor * Locator)) (extraneous : JsMap.t xfs.Dirent)
    (fs : xfs.Node) :
  opts this' = opts this → locations this' = locations this →
  linkDependencies this' nmPath dependencies extraneous fs
  = linkDependencies this nmPath dependencies extraneous fs.
Proof.
  intros Ho Hl. revert extraneous fs.
  induction dependencies as [|entry rest IH]; intros extraneous fs; [done|].
  rewrite !linkDependencies_cons, (linkDependency_reads _ _ _ _ _ _ Ho Hl).
  destruct (linkDependency this nmPath extraneous entry fs) as [fs1 [ext1|e]]; [|done].
  apply IH.
Qed.

Lemma reconcile_reads (this this' : PnpmInstaller) (pkgPath : list string)
    (dependencies : list (Descriptor * Locator)) (fs : xfs.Node) :
  opts this' = opts this → locations this' = locations this →
  reconcile this' pkgPath dependencies fs = reconcile this pkgPath dependencies fs.
Proof.
  intros Ho Hl. unfold reconcile, mbind, StateErr_bind. plain_disk. unfold xfsRead.
  destruct (xfsWrite _ fs) as [fs1 [[]|e]]; [|done].
  destruct (listExtraneous _ _) as [ext|e]; [|done].
  by rewrite (linkDependencies_reads _ _ _ _ _ _ Ho Hl).
Qed.

Lemma perform_withCustomData (c : Call) (d : Any) (m : Machine) :
  perform c (withCustomData d m)
  = (withCustomData d (perform c m).1, (perform c m).2).
Proof.
  destruct c as [pkg fetchResult|locator dependencies|locator dependentPaths|]; simpl.
  - unfold installPackage. destruct (linkType pkg); try done.
  - unfold mbind, StateErr_bind, attachInternalDependencies, mbind, StateErr_bind.
    unfold awaitPendingCopies. simpl.
    destruct (promiseAll _ _) as [[ps fs] [[]|e]]; simpl; [|done].
    unfold isPnpmVirtualCompatible. simpl.
    destruct (negb _); simpl; [done|].
    destruct (locations (this m) !! locatorHash locator) as [pkgPath|]; simpl; [|done].
    unfold onDisk. simpl.
    rewrite (reconcile_reads (setPendingCopies ps (this m))
               (setPendingCopies ps (setCustomData d (this m)))) by done.
    by destruct (reconcile _ _ _ _) as [fs' [[]|e]].
  - done.
  - unfold mbind, StateErr_bind, finalizeInstall, mbind, StateErr_bind. simpl.
    by destruct (negb _).
Qed.

Lemma performAll_withCustomData (cs : list Call) (d : Any) (m : Machine) :
  performAll cs (withCustomData d m)
  = (withCustomData d (performAll cs m).1, (performAll cs m).2).
Proof.
  revert m. induction cs as [|c cs IH]; intros m; simpl; [done|].
  rewrite perform_withCustomData.
  destruct (perform c m) as [m1 r]. simpl. rewrite IH.
  by destruct (performAll cs m1) as [m2 rs].
Qed.

(** C10. Whatever value is attached as custom data, and whether one is
    attached at all, every later sequence of calls to [installPackage],
    [attachInternalDependencies], [attachExternalDependents] and
    [finalizeInstall] gives the same answers, leaves the same disk and the
    same installer apart from the custom data; the value attached is stored
    and still there at the end. *)
Theorem customData_is_never_read :
  ∀ (d : Any) (calls : list Call) (m : Machine),
    observable (performAll calls (attachCustomData d m).1) = observable (performAll calls m)
    ∧ customData (this (performAll calls (attachCustomData d m).1).1) = d.
Proof.
  intros d calls m.
  change (attachCustomData d m).1 with (withCustomData d m).
  rewrite performAll_withCustomData. done.
Qed.

End Properties.

(** ** Paths *)

Lemma isPlainSegment_spec (s : string) :
  isPlainSegment s = true ↔ isDotSegment s = false ∧ s ≠ "..".
Proof.
  unfold isPlainSegment. rewrite andb_true_iff, !negb_true_iff.
  by rewrite bool_decide_eq_false.
Qed.

Lemma join_plain (base rel : list string) :
  plainPath rel → ppath.join base rel = base ++ rel.
Proof.
  intros Hrel. revert base. induction Hrel as [|s rel Hs _ IH]; intros base; simpl.
  - by rewrite app_nil_r.
  - apply isPlainSegment_spec in Hs as [-> Hs].
    rewrite bool_decide_eq_false_2 by done.
    by rewrite IH, <- app_assoc.
Qed.

Lemma plainPath_app (p q : list string) :
  plainPath (p ++ q) ↔ plainPath p ∧ plainPath q.
Proof. apply Forall_app. Qed.

Lemma removelast_snoc {A} (l : list A) (x : A) : removelast (l ++ [x]) = l.
Proof. apply removelast_last. Qed.

Lemma splitLast_snoc (p : list string) (s : string) :
  xfs.splitLast (p ++ [s]) = Some (p, s).
Proof.
  unfold xfs.splitLast. destruct (p ++ [s]) eqn:E.
  - by destruct p.
  - rewrite <- E. by rewrite removelast_last, last_last.
Qed.

(** ** Looking nodes up *)

Lemma lookupNode_app (n : xfs.Node) (p q : list string) :
  xfs.lookupNode n (p ++ q) = xfs.lookupNode n p ≫= λ m, xfs.lookupNode m q.
Proof.
  revert n. induction p as [|s p IH]; intros n; simpl; [done|].
  destruct n as [| |ch]; try done.
  destruct (ch !! s); [apply IH|done].
Qed.

Lemma lookupNode_snoc (n : xfs.Node) (p : list string) (s : string) :
  xfs.lookupNode n (p ++ [s])
  = match xfs.lookupNode n p with
    | Some (xfs.Directory ch) => ch !! s
    | _ => None
    end.
Proof.
  rewrite lookupNode_app. destruct (xfs.lookupNode n p) as [[| |ch]|]; simpl; try done.
  by destruct (ch !! s).
Qed.

Lemma lookupNode_updateDir_app (fs n : xfs.Node) (a b : list string)
    (f : gmap string xfs.Node → gmap string xfs.Node) :
  xfs.lookupNode fs a = Some n →
  xfs.lookupNode (xfs.updateDir fs (a ++ b) f) a = Some (xfs.updateDir n b f).
Proof.
  revert fs. induction a as [|s a IH]; intros fs; simpl.
  - by intros [= ->].
  - destruct fs as [| |ch]; try done.
    destruct (ch !! s) as [c|] eqn:E; [|done].
    intros Hc. simpl. rewrite lookup_insert_eq. by apply IH.
Qed.

Lemma lookupNode_updateDir (fs : xfs.Node) (q : list string) (ch : gmap string xfs.Node)
    (f : gmap string xfs.Node → gmap string xfs.Node) :
  xfs.lookupNode fs q = Some (xfs.Directory ch) →
  xfs.lookupNode (xfs.updateDir fs q f) q = Some (xfs.Directory (f ch)).
Proof.
  intros E. rewrite <- (app_nil_r q) at 1.
  by rewrite (lookupNode_updateDir_app _ _ _ _ _ E).
Qed.

(** ** Paths without links *)

Lemma follow_cons (hops : nat) (fs : xfs.Node) (cur : list string) (s : string)
    (rest : list string) :
  xfs.follow hops fs cur (s :: rest)
  = if isDotSegment s then xfs.follow hops fs cur rest
    else if bool_decide (s = "..") then xfs.follow hops fs (removelast cur) rest
    else
      match xfs.lookupNode fs cur with
      | Some (xfs.Directory ch) =>
          match ch !! s with
          | Some (xfs.Symlink t) =>
              match hops with
              | O => Err (FsError ELOOP)
              | S hops' =>
                  xfs.follow hops' fs (if xfs.isAbsolute t then [] else cur) (t ++ rest)
              end
          | Some _ => xfs.follow hops fs (cur ++ [s]) rest
          | None => Err (FsError ENOENT)
          end
      | Some _ => Err (FsError ENOTDIR)
      | None => Err (FsError ENOENT)
      end.
Proof. by destruct hops. Qed.

Lemma follow_nil (hops : nat) (fs : xfs.Node) (cur : list string) :
  xfs.follow hops fs cur [] = Ok cur.
Proof. by destruct hops. Qed.

(** A path whose segments are plain and that meets no link is its own real
    path. *)
Lemma follow_linkfree_app (hops : nat) (fs n : xfs.Node) (cur a b : list string) :
  plainPath a →
  xfs.lookupNode fs (cur ++ a) = Some n →
  notLink n →
  xfs.follow hops fs cur (a ++ b) = xfs.follow hops fs (cur ++ a) b.
Proof.
  intros Hplain. revert cur.
  induction Hplain as [|s rest Hs _ IH]; intros cur Hn Hnl.
  - by rewrite app_nil_r.
  - simpl. rewrite follow_cons. apply isPlainSegment_spec in Hs as [-> Hs].
    rewrite bool_decide_eq_false_2 by done.
    assert (xfs.follow hops fs (cur ++ [s]) (rest ++ b)
            = xfs.follow hops fs (cur ++ s :: rest) b) as Hgo.
    { rewrite (IH (cur ++ [s])); rewrite <- ?app_assoc; done. }
    rewrite lookupNode_app in Hn.
    destruct (xfs.lookupNode fs cur) as [[| |ch]|]; simpl in Hn; try done.
    destruct (ch !! s) as [c|] eqn:Ec; [|done].
    destruct c as [| t |]; try done.
    destruct rest; simpl in Hn; [|done]. injection Hn as <-. by destruct Hnl.
Qed.

Lemma follow_linkfree (hops : nat) (fs n : xfs.Node) (cur todo : list string) :
  plainPath todo →
  xfs.lookupNode fs (cur ++ todo) = Some n →
  notLink n →
  xfs.follow hops fs cur todo = Ok (cur ++ todo).
Proof.
  intros Hp Hn Hnl. rewrite <- (app_nil_r todo) at 1.
  by rewrite (follow_linkfree_app _ _ n), follow_nil.
Qed.

Lemma realpath_linkfree (fs n : xfs.Node) (p : list string) :
  plainPath p → xfs.lookupNode fs p = Some n → notLink n →
  xfs.realpath fs p = Ok p.
Proof. intros. unfold xfs.realpath. by erewrite follow_linkfree. Qed.

Lemma resolveDir_linkfree (fs : xfs.Node) (p : list string) (ch : gmap string xfs.Node) :
  plainPath p → xfs.lookupNode fs p = Some (xfs.Directory ch) →
  xfs.resolveDir fs p = Ok (p, ch).
Proof.
  intros Hp E. unfold xfs.resolveDir.
  rewrite (realpath_linkfree fs (xfs.Directory ch) p) by done.
  simpl. by rewrite E.
Qed.

(** ** The calls on a directory that is reached without links *)

Section Directory.

Variables (fs : xfs.Node) (d : list string) (ch : gmap string xfs.Node).
Hypothesis Hd : plainPath d.
Hypothesis Hch : xfs.lookupNode fs d = Some (xfs.Directory ch).

Lemma lstatPromise_child (s : string) :
  xfs.lstatPromise (d ++ [s]) fs
  = match ch !! s with Some n => Ok n | None => Err (FsError ENOENT) end.
Proof using Hd Hch.
  unfold xfs.lstatPromise. rewrite splitLast_snoc.
  by rewrite (resolveDir_linkfree _ _ _ Hd Hch).
Qed.

Lemma readlinkPromise_child (s : string) :
  xfs.readlinkPromise (d ++ [s]) fs
  = match ch !! s with
    | Some (xfs.Symlink t) => Ok t
    | Some _ => Err (FsError EINVAL)
    | None => Err (FsError ENOENT)
    end.
Proof using Hd Hch.
  unfold xfs.readlinkPromise. rewrite lstatPromise_child.
  by destruct (ch !! s) as [[]|].
Qed.

Lemma readdirPromise_dir :
  xfs.readdirPromise d fs = Ok (xfs.direntsOf ch).
Proof using Hd Hch.
  unfold xfs.readdirPromise. by rewrite (resolveDir_linkfree _ _ _ Hd Hch).
Qed.

Lemma removePromise_child (s : string) :
  xfs.removePromise (d ++ [s]) fs
  = Ok (match ch !! s with
        | Some _ => xfs.updateDir fs d (delete s)
        | None => fs
        end).
Proof using Hd Hch.
  unfold xfs.removePromise. rewrite splitLast_snoc.
  rewrite (resolveDir_linkfree _ _ _ Hd Hch). by destruct (ch !! s).
Qed.

Lemma symlinkPromise_child (t : list string) (s : string) :
  xfs.symlinkPromise t (d ++ [s]) fs
  = match t with
    | [] => Err (FsError ENOENT)
    | _ =>
        match ch !! s with
        | Some _ => Err (FsError EEXIST)
        | None => Ok (xfs.updateDir fs d (insert s (xfs.Symlink t)))
        end
    end.
Proof using Hd Hch.
  unfold xfs.symlinkPromise. rewrite splitLast_snoc.
  destruct t; [done|].
  by rewrite (resolveDir_linkfree _ _ _ Hd Hch).
Qed.

Lemma mkdirPromise_child (s : string) :
  xfs.mkdirPromise (d ++ [s]) fs
  = match ch !! s with
    | Some _ => Err (FsError EEXIST)
    | None => Ok (xfs.updateDir fs d (insert s (xfs.Directory ∅)))
    end.
Proof using Hd Hch.
  unfold xfs.mkdirPromise. rewrite splitLast_snoc.
  by rewrite (resolveDir_linkfree _ _ _ Hd Hch).
Qed.

Lemma existsSync_dir : xfs.existsSync d fs = true.
Proof using Hd Hch.
  unfold xfs.existsSync. by rewrite (realpath_linkfree fs (xfs.Directory ch) d).
Qed.

Lemma existsSync_child (s : string) (n : xfs.Node) :
  isPlainSegment s = true → ch !! s = Some n → notLink n →
  xfs.existsSync (d ++ [s]) fs = true.
Proof using Hd Hch.
  intros Hs En Hn. unfold xfs.existsSync.
  rewrite (realpath_linkfree fs n (d ++ [s])); [done| |by rewrite lookupNode_snoc, Hch|done].
  apply plainPath_app. split; [done|]. by constructor.
Qed.

Lemma existsSync_child_absent (s : string) :
  isPlainSegment s = true → ch !! s = None →
  xfs.existsSync (d ++ [s]) fs = false.
Proof using Hd Hch.
  intros Hs En. unfold xfs.existsSync, xfs.realpath.
  rewrite (follow_linkfree_app _ _ (xfs.Directory ch) [] d [s]) by done.
  rewrite follow_cons. apply isPlainSegment_spec in Hs as [-> Hs].
  rewrite bool_decide_eq_false_2 by done. simpl. by rewrite Hch, En.
Qed.

End Directory.

(** ** Creating directories *)

Lemma mkdirpFrom_existing (fs n : xfs.Node) (base todo : list string) :
  plainPath (base ++ todo) →
  xfs.lookupNode fs (base ++ todo) = Some n →
  notLink n →
  xfs.mkdirpFrom base todo fs = Ok fs.
Proof.
  revert base. induction todo as [|s rest IH]; intros base Hp Hn Hnl; [done|].
  simpl.
  assert (xfs.existsSync (base ++ [s]) fs = true) as ->.
  { replace (base ++ s :: rest) with ((base ++ [s]) ++ rest) in Hn, Hp
      by by rewrite <- app_assoc.
    apply plainPath_app in Hp as [Hp _].
    rewrite lookupNode_app in Hn.
    destruct (xfs.lookupNode fs (base ++ [s])) as [c|] eqn:Ec; [|done].
    unfold xfs.existsSync. rewrite (realpath_linkfree fs c); [done..|].
    destruct rest; simpl in Hn; [by injection Hn as ->|].
    by destruct c. }
  apply IH; rewrite <- ?app_assoc; done.
Qed.

Lemma mkdirpPromise_existing (fs n : xfs.Node) (p : list string) :
  plainPath p → xfs.lookupNode fs p = Some n → notLink n →
  xfs.mkdirpPromise p fs = Ok fs.
Proof. intros. by eapply (mkdirpFrom_existing fs n []). Qed.

Lemma mkdirpFrom_app (fs n : xfs.Node) (base a b : list string) :
  plainPath (base ++ a) →
  xfs.lookupNode fs (base ++ a) = Some n →
  notLink n →
  xfs.mkdirpFrom base (a ++ b) fs = xfs.mkdirpFrom (base ++ a) b fs.
Proof.
  revert base. induction a as [|s rest IH]; intros base Hp Hn Hnl.
  - by rewrite app_nil_r.
  - simpl.
    assert (xfs.existsSync (base ++ [s]) fs = true) as ->.
    { replace (base ++ s :: rest) with ((base ++ [s]) ++ rest) in Hn, Hp
        by by rewrite <- app_assoc.
      apply plainPath_app in Hp as [Hp _].
      rewrite lookupNode_app in Hn.
      destruct (xfs.lookupNode fs (base ++ [s])) as [c|] eqn:Ec; [|done].
      unfold xfs.existsSync. rewrite (realpath_linkfree fs c); [done..|].
      destruct rest; simpl in Hn; [by injection Hn as ->|].
      by destruct c. }
    rewrite IH; rewrite <- ?app_assoc; done.
Qed.

(** Creating one more level below a directory reached without links. *)
Lemma mkdirpPromise_child (fs : xfs.Node) (d : list string) (ch : gmap string xfs.Node)
    (s : string) :
  plainPath d → isPlainSegment s = true →
  xfs.lookupNode fs d = Some (xfs.Directory ch) →
  (∀ t, ch !! s ≠ Some (xfs.Symlink t)) →
  xfs.mkdirpPromise (d ++ [s]) fs
  = Ok (match ch !! s with
        | Some _ => fs
        | None => xfs.updateDir fs d (insert s (xfs.Directory ∅))
        end).
Proof.
  intros Hd Hs Hch Hnl. unfold xfs.mkdirpPromise.
  rewrite (mkdirpFrom_app fs (xfs.Directory ch) [] d [s]) by done.
  simpl. destruct (ch !! s) as [c|] eqn:Ec.
  - rewrite (existsSync_child fs d ch Hd Hch s c); [done..|].
    destruct c; try done. by destruct (Hnl target).
  - rewrite (existsSync_child_absent fs d ch Hd Hch s) by done.
    by rewrite (mkdirPromise_child fs d ch Hd Hch), Ec.
Qed.

(** ** Insertion-ordered maps *)

Section JsMapFacts.

Context {V : Type}.
Implicit Types (m : JsMap.t V) (k : list string) (v : V).

Lemma JsMap_get_set_eq k v m : JsMap.get k (JsMap.set k v m) = Some v.
Proof.
  induction m as [|[k' v'] m IH]; simpl.
  - by rewrite decide_True.
  - destruct (decide (k' = k)) as [->|Hne]; simpl.
    + by rewrite decide_True.
    + by rewrite decide_False.
Qed.

Lemma JsMap_get_set_ne k k' v m :
  k ≠ k' → JsMap.get k' (JsMap.set k v m) = JsMap.get k' m.
Proof.
  intros Hne. induction m as [|[k0 v0] m IH]; simpl.
  - by rewrite decide_False.
  - destruct (decide (k0 = k)) as [->|Hne0]; simpl.
    + by rewrite !decide_False.
    + destruct (decide (k0 = k')); [done|apply IH].
Qed.

Lemma JsMap_get_set k k' v m :
  JsMap.get k' (JsMap.set k v m) = if decide (k = k') then Some v else JsMap.get k' m.
Proof.
  destruct (decide (k = k')) as [->|Hne].
  - apply JsMap_get_set_eq.
  - by apply JsMap_get_set_ne.
Qed.

Lemma JsMap_get_delete_eq k m : JsMap.get k (JsMap.delete k m) = None.
Proof.
  induction m as [|[k' v'] m IH]; simpl; [done|].
  destruct (decide (k' = k)) as [->|Hne]; simpl; [done|].
  by rewrite decide_False.
Qed.

Lemma JsMap_get_delete_ne k k' m :
  k ≠ k' → JsMap.get k' (JsMap.delete k m) = JsMap.get k' m.
Proof.
  intros Hne. induction m as [|[k0 v0] m IH]; simpl; [done|].
  destruct (decide (k0 = k)) as [->|Hne0]; simpl.
  - by rewrite decide_False.
  - destruct (decide (k0 = k')); [done|apply IH].
Qed.

Lemma JsMap_elem_of_keys k m : k ∈ JsMap.keys m ↔ is_Some (JsMap.get k m).
Proof.
  unfold JsMap.keys. induction m as [|[k' v'] m IH]; simpl.
  - split; [by intros ?%elem_of_nil|by intros [? ?]].
  - rewrite elem_of_cons, IH. destruct (decide (k' = k)) as [->|Hne].
    + split; [by eexists|by left].
    + split; [intros [?|?]; [congruence|done]|by right].
Qed.

Lemma JsMap_keys_nil m : JsMap.keys m = [] → m = [].
Proof. by destruct m. Qed.

End JsMapFacts.

(** ** Prefixes of names *)

Lemma prefix_one (a c : ascii) (s : string) :
  String.prefix (String a "") (String c s) = bool_decide (a = c).
Proof.
  change (String.prefix (String a "") (String c s))
    with (if Ascii.ascii_dec a c then String.prefix "" s else false).
  destruct (Ascii.ascii_dec a c) as [->|Hne].
  - rewrite bool_decide_eq_true_2 by done. by destruct s.
  - by rewrite bool_decide_eq_false_2.
Qed.

Lemma startsWith_one (s : string) (a : ascii) :
  startsWith s (String a "") = true ↔ ∃ rest, s = String a rest.
Proof.
  unfold startsWith. destruct s as [|c s].
  - split; [done|by intros [? ?]].
  - rewrite prefix_one, bool_decide_eq_true. split.
    + intros ->. eauto.
    + by intros [rest [= -> _]].
Qed.

Lemma startsWith_at_plain (s : string) :
  startsWith s "@" = true → isPlainSegment s = true ∧ startsWith s "." = false.
Proof.
  intros [rest ->]%startsWith_one. split; [done|].
  unfold startsWith. by rewrite prefix_one.
Qed.

(** ** Listings *)

Lemma elem_of_insertDirent (x d : xfs.Dirent) (l : list xfs.Dirent) :
  x ∈ xfs.insertDirent d l ↔ x = d ∨ x ∈ l.
Proof.
  induction l as [|d' l IH]; simpl.
  - rewrite list_elem_of_singleton, elem_of_nil. tauto.
  - destruct (String.leb _ _); rewrite !elem_of_cons; [tauto|]. rewrite IH. tauto.
Qed.

(** Putting the entries in order loses none and adds none. *)
Lemma elem_of_sorted (x : xfs.Dirent) (l : list xfs.Dirent) :
  x ∈ foldr xfs.insertDirent [] l ↔ x ∈ l.
Proof.
  induction l as [|d l IH]; simpl; [done|].
  by rewrite elem_of_insertDirent, elem_of_cons, IH.
Qed.

Lemma elem_of_direntsOf (ch : gmap string xfs.Node) (d : xfs.Dirent) :
  d ∈ xfs.direntsOf ch
  ↔ isPlainSegment (xfs.name d) = true
    ∧ ∃ node, ch !! xfs.name d = Some node ∧ xfs.kind d = xfs.kindOf node.
Proof.
  unfold xfs.direntsOf. rewrite elem_of_sorted.
  rewrite list_elem_of_In, filter_In, <- list_elem_of_In.
  rewrite list_elem_of_fmap. split.
  - intros [[[n node] [-> Hin%elem_of_map_to_list]] Hp]. simpl in *. eauto.
  - intros [Hp (node & Hn & Hk)]. split; [|done].
    exists (xfs.name d, node). split; [|by apply elem_of_map_to_list].
    destruct d as [n k]. simpl in *. by rewrite Hk.
Qed.

(** ** What the listing records *)

Section Scan.

Variables (readdir : list string → Result (list xfs.Dirent)) (nmPath : list string).

Lemma scope_fold_sound (s : string) (subEntries : list xfs.Dirent)
    (acc : JsMap.t xfs.Dirent) (key : list string) (d : xfs.Dirent) :
  JsMap.get key
    (fold_left (λ ext subEntry, JsMap.set [s; xfs.name subEntry] subEntry ext) subEntries acc)
  = Some d →
  JsMap.get key acc = Some d ∨ (d ∈ subEntries ∧ key = [s; xfs.name d]).
Proof.
  revert acc. induction subEntries as [|sub subs IH]; intros acc; simpl; [by left|].
  intros [Hacc|[Hin ->]]%IH.
  - rewrite JsMap_get_set in Hacc. destruct (decide _) as [<-|_].
    + injection Hacc as <-. right. split; [by left|done].
    + by left.
  - right. split; [by right|done].
Qed.

Lemma scope_fold_keeps (s : string) (subEntries : list xfs.Dirent)
    (acc : JsMap.t xfs.Dirent) (key : list string) :
  is_Some (JsMap.get key acc) →
  is_Some (JsMap.get key
    (fold_left (λ ext subEntry, JsMap.set [s; xfs.name subEntry] subEntry ext) subEntries acc)).
Proof.
  revert acc. induction subEntries as [|sub subs IH]; intros acc Hacc; simpl; [done|].
  apply IH. rewrite JsMap_get_set. by destruct (decide _).
Qed.

Lemma scope_fold_complete (s : string) (subEntries : list xfs.Dirent)
    (acc : JsMap.t xfs.Dirent) (d : xfs.Dirent) :
  d ∈ subEntries →
  is_Some (JsMap.get [s; xfs.name d]
    (fold_left (λ ext subEntry, JsMap.set [s; xfs.name subEntry] subEntry ext) subEntries acc)).
Proof.
  revert acc. induction subEntries as [|sub subs IH]; intros acc Hin; simpl.
  - by apply elem_of_nil in Hin.
  - apply elem_of_cons in Hin as [->|Hin]; [|by apply IH].
    apply scope_fold_keeps. by rewrite JsMap_get_set_eq.
Qed.

Lemma scanEntries_sound (entries : list xfs.Dirent) (acc ext : JsMap.t xfs.Dirent)
    (r : Result unit) (key : list string) (d : xfs.Dirent) :
  scanEntries readdir nmPath entries acc = (ext, r) →
  JsMap.get key ext = Some d →
  JsMap.get key acc = Some d ∨ ∃ entry, entry ∈ entries ∧ recordedFor readdir nmPath entry key d.
Proof.
  revert acc. induction entries as [|entry entries IH]; intros acc; simpl.
  - intros [= <- _]. by left.
  - destruct (startsWith (xfs.name entry) ".") eqn:Edot.
    { intros E Hget. destruct (IH _ E Hget) as [?|(e & He & Hr)]; [by left|].
      right. exists e. split; [by right|done]. }
    destruct (startsWith (xfs.name entry) "@") eqn:Eat.
    + destruct (readdir _) as [subEntries|err] eqn:Er.
      * intros E Hget. destruct (IH _ E Hget) as [Hacc|(e & He & Hr)].
        -- apply scope_fold_sound in Hacc as [?|[Hin ->]]; [by left|].
           right. exists entry. split; [by left|].
           split; [done|]. right. split; [done|]. eauto.
        -- right. exists e. split; [by right|done].
      * intros [= <- _]. by left.
    + intros E Hget. destruct (IH _ E Hget) as [Hacc|(e & He & Hr)].
      * rewrite JsMap_get_set in Hacc. destruct (decide _) as [<-|_]; [|by left].
        injection Hacc as <-. right. exists entry. split; [by left|].
        split; [done|]. by left.
      * right. exists e. split; [by right|done].
Qed.

Lemma scanEntries_keeps (entries : list xfs.Dirent) (acc ext : JsMap.t xfs.Dirent)
    (r : Result unit) (key : list string) :
  scanEntries readdir nmPath entries acc = (ext, r) →
  is_Some (JsMap.get key acc) → is_Some (JsMap.get key ext).
Proof.
  revert acc. induction entries as [|entry entries IH]; intros acc; simpl.
  - by intros [= <- _].
  - destruct (startsWith (xfs.name entry) "."); [apply IH|].
    destruct (startsWith (xfs.name entry) "@").
    + destruct (readdir _) as [subEntries|err]; [|by intros [= <- _]].
      intros E Hacc. apply (IH _ E). by apply scope_fold_keeps.
    + intros E Hacc. apply (IH _ E). rewrite JsMap_get_set. by destruct (decide _).
Qed.

Lemma scanEntries_complete (entries : list xfs.Dirent) (acc ext : JsMap.t xfs.Dirent)
    (entry : xfs.Dirent) (key : list string) (d : xfs.Dirent) :
  scanEntries readdir nmPath entries acc = (ext, Ok tt) →
  entry ∈ entries → recordedFor readdir nmPath entry key d →
  is_Some (JsMap.get key ext).
Proof.
  revert acc. induction entries as [|e entries IH]; intros acc E Hin Hr.
  - by apply elem_of_nil in Hin.
  - cbn [scanEntries] in E. apply elem_of_cons in Hin as [<-|Hin].
    + destruct Hr as [Hdot Hr]. rewrite Hdot in E.
      destruct Hr as [(Hat & -> & ->)|(Hat & subs & Hrd & Hd & ->)]; rewrite Hat in E.
      * apply (scanEntries_keeps _ _ _ _ _ E). by rewrite JsMap_get_set_eq.
      * rewrite Hrd in E. apply (scanEntries_keeps _ _ _ _ _ E).
        by apply scope_fold_complete.
    + destruct (startsWith (xfs.name e) "."); [by eapply IH|].
      destruct (startsWith (xfs.name e) "@").
      * destruct (readdir _) as [subEntries|err]; [by eapply IH|done].
      * by eapply IH.
Qed.

(** The listing ends well when every scope met can be listed. *)
Lemma scanEntries_ok (entries : list xfs.Dirent) (acc : JsMap.t xfs.Dirent) :
  (∀ entry, entry ∈ entries → startsWith (xfs.name entry) "@" = true →
            isOk (readdir (ppath.join nmPath [xfs.name entry])) = true) →
  ∃ ext, scanEntries readdir nmPath entries acc = (ext, Ok tt).
Proof.
  revert acc. induction entries as [|e entries IH]; intros acc Hok; simpl; [eauto|].
  assert (∀ entry, entry ∈ entries → startsWith (xfs.name entry) "@" = true →
            isOk (readdir (ppath.join nmPath [xfs.name entry])) = true) as Hok'.
  { intros entry Hin. apply Hok. by right. }
  destruct (startsWith (xfs.name e) "."); [by apply IH|].
  destruct (startsWith (xfs.name e) "@") eqn:Eat; [|by apply IH].
  specialize (Hok e (list_elem_of_here _ _) Eat).
  destruct (readdir _); [by apply IH|done].
Qed.

End Scan.

(** ** Entries of a directory *)

Lemma entryAt_one (ch : gmap string xfs.Node) (n : string) :
  entryAt ch [n] = ch !! n.
Proof. unfold entryAt. simpl. by destruct (ch !! n). Qed.

Lemma entryAt_two (ch : gmap string xfs.Node) (s c : string) :
  entryAt ch [s; c]
  = match ch !! s with
    | Some (xfs.Directory sub) => sub !! c
    | _ => None
    end.
Proof.
  unfold entryAt. simpl. destruct (ch !! s) as [[| |sub]|]; try done.
  by destruct (sub !! c).
Qed.

Lemma plainPath_snoc (p : list string) (s : string) :
  plainPath p → isPlainSegment s = true → plainPath (p ++ [s]).
Proof. intros Hp Hs. apply plainPath_app. split; [done|]. by constructor. Qed.

Lemma resolveDir_child_absent (fs : xfs.Node) (d : list string)
    (ch : gmap string xfs.Node) (s : string) :
  plainPath d → isPlainSegment s = true →
  xfs.lookupNode fs d = Some (xfs.Directory ch) → ch !! s = None →
  xfs.resolveDir fs (d ++ [s]) = Err (FsError ENOENT).
Proof.
  intros Hd Hs Hch En. unfold xfs.resolveDir, xfs.realpath.
  rewrite (follow_linkfree_app _ _ (xfs.Directory ch) [] d [s]) by done.
  rewrite follow_cons. apply isPlainSegment_spec in Hs as [-> Hs].
  rewrite bool_decide_eq_false_2 by done. simpl. by rewrite Hch, En.
Qed.

Lemma scopesAreDirectories_lookup (ch : gmap string xfs.Node) (s : string) (c : xfs.Node) :
  scopesAreDirectories ch → startsWith s "@" = true → ch !! s = Some c →
  ∃ sub, c = xfs.Directory sub.
Proof. intros Hsc Hs Hc. specialize (Hsc s c Hs Hc). destruct c; try done. eauto. Qed.

(** ** Paths through links *)

Lemma resolveDir_lookup (fs : xfs.Node) (p q : list string) (ch : gmap string xfs.Node) :
  xfs.resolveDir fs p = Ok (q, ch) → xfs.lookupNode fs q = Some (xfs.Directory ch).
Proof.
  unfold xfs.resolveDir, mbind, Result_bind.
  destruct (xfs.realpath fs p) as [q'|]; [|done].
  destruct (xfs.lookupNode fs q') as [[| |ch']|] eqn:E; try done.
  by intros [= <- <-].
Qed.

(** Following a path in two steps: once the first part is followed, what is
    left is followed from where it led. *)
Lemma follow_app (hops : nat) (fs : xfs.Node) (cur a b q : list string) :
  xfs.follow hops fs cur a = Ok q →
  ∃ hops', xfs.follow hops fs cur (a ++ b) = xfs.follow hops' fs q b.
Proof.
  revert cur a. induction hops as [|h IHh]; intros cur a; revert cur;
    (induction a as [|s rest IHa]; intros cur;
     [rewrite follow_nil; intros [= <-]; by eexists|]);
    cbn [app]; rewrite !follow_cons;
    (destruct (isDotSegment s); [by apply IHa|]);
    (case_bool_decide; [by apply IHa|]);
    (destruct (xfs.lookupNode fs cur) as [[| |ch]|]; try done);
    (destruct (ch !! s) as [[|t|]|]; try done; try by apply IHa).
  rewrite app_assoc. apply IHh.
Qed.

Lemma follow_app_err (hops : nat) (fs : xfs.Node) (cur a b : list string) (e : Error) :
  xfs.follow hops fs cur a = Err e →
  xfs.follow hops fs cur (a ++ b) = Err e.
Proof.
  revert cur a. induction hops as [|h IHh]; intros cur a; revert cur;
    (induction a as [|s rest IHa]; intros cur; [by rewrite follow_nil|]);
    cbn [app]; rewrite !follow_cons;
    (destruct (isDotSegment s); [by apply IHa|]);
    (case_bool_decide; [by apply IHa|]);
    (destruct (xfs.lookupNode fs cur) as [[| |ch]|]; try done);
    (destruct (ch !! s) as [[|t|]|]; try done; try by apply IHa).
  rewrite app_assoc. apply IHh.
Qed.

(** One more segment, from a directory that was reached. *)
Lemma follow_entry (hops : nat) (fs : xfs.Node) (q : list string)
    (ch : gmap string xfs.Node) (s : string) :
  xfs.lookupNode fs q = Some (xfs.Directory ch) →
  isPlainSegment s = true →
  (∀ t, ch !! s ≠ Some (xfs.Symlink t)) →
  xfs.follow hops fs q [s]
  = match ch !! s with
    | Some _ => Ok (q ++ [s])
    | None => Err (FsError ENOENT)
    end.
Proof.
  intros Hq [Hdot Hs]%isPlainSegment_spec Hnl. rewrite follow_cons, Hdot, Hq.
  rewrite bool_decide_eq_false_2 by done.
  destruct (ch !! s) as [[| t |]|] eqn:Es; rewrite ?follow_nil; try done.
  by destruct (Hnl t).
Qed.

(** ** Disks that grow *)

Lemma grows_refl (fs : xfs.Node) : grows fs fs.
Proof. intros p n Hn. eauto. Qed.

(** ** Rewriting a directory with what it holds *)

Lemma updateDir_id (fs : xfs.Node) (q : list string) (ch : gmap string xfs.Node)
    (f : gmap string xfs.Node → gmap string xfs.Node) :
  xfs.lookupNode fs q = Some (xfs.Directory ch) → f ch = ch →
  xfs.updateDir fs q f = fs.
Proof.
  revert fs. induction q as [|s q IH]; intros fs Hq Hf; simpl in *.
  - injection Hq as ->. by rewrite Hf.
  - destruct fs as [| |ch0]; try done.
    destruct (ch0 !! s) as [c|] eqn:Ec; [|done].
    rewrite (IH c) by done. by rewrite insert_id.
Qed.


Lemma shape_directory (n : xfs.Node) (ch : gmap string xfs.Node) :
  shape n = shape (xfs.Directory ch) → ∃ ch', n = xfs.Directory ch'.
Proof. destruct n; try done. eauto. Qed.

Lemma shape_leaf (n n' : xfs.Node) :
  isLeaf n → shape n' = shape n → n' = n.
Proof. by destruct n, n'. Qed.

(** A path that is followed on a disk is followed the same way on a disk
    that has grown from it. *)
Lemma follow_grows (hops : nat) (fs fs' : xfs.Node) (cur todo q : list string) :
  grows fs fs' →
  xfs.follow hops fs cur todo = Ok q →
  xfs.follow hops fs' cur todo = Ok q.
Proof.
  intros Hg.
  assert (∀ cur ch s x,
            xfs.lookupNode fs cur = Some (xfs.Directory ch) → ch !! s = Some x →
            ∃ ch' x', xfs.lookupNode fs' cur = Some (xfs.Directory ch')
                      ∧ ch' !! s = Some x' ∧ shape x' = shape x) as Hstep.
  { intros c ch s x Hc Hx.
    destruct (Hg _ _ Hc) as (n' & Hn' & [ch' ->]%shape_directory).
    assert (xfs.lookupNode fs (c ++ [s]) = Some x) as Hcs by by rewrite lookupNode_snoc, Hc.
    destruct (Hg _ _ Hcs) as (x' & Hx' & Hshape).
    rewrite lookupNode_snoc, Hn' in Hx'. eauto. }
  revert cur todo. induction hops as [|h IHh]; intros cur todo; revert cur;
    (induction todo as [|s rest IHt]; intros cur; [by rewrite !follow_nil|]);
    rewrite !follow_cons;
    (destruct (isDotSegment s); [by apply IHt|]);
    (case_bool_decide; [by apply IHt|]);
    (destruct (xfs.lookupNode fs cur) as [[| |ch]|] eqn:Ecur; try done);
    (destruct (ch !! s) as [x|] eqn:Es; [|done]);
    destruct (Hstep _ _ _ _ Ecur Es) as (ch' & x' & -> & -> & Hshape);
    destruct x as [c|t|sub].
  - apply shape_leaf in Hshape as ->; [apply IHt|done].
  - by apply shape_leaf in Hshape as ->.
  - apply shape_directory in Hshape as [sub' ->]. apply IHt.
  - apply shape_leaf in Hshape as ->; [apply IHt|done].
  - apply shape_leaf in Hshape as ->; [apply IHh|done].
  - apply shape_directory in Hshape as [sub' ->]. apply IHt.
Qed.

Lemma realpath_grows (fs fs' : xfs.Node) (p q : list string) :
  grows fs fs' → xfs.realpath fs p = Ok q → xfs.realpath fs' p = Ok q.
Proof. apply follow_grows. Qed.

(** Rewriting a directory with more than another rewriting leaves. *)
Lemma updateDir_grows (fs : xfs.Node) (d : list string) (ch : gmap string xfs.Node)
    (f g : gmap string xfs.Node → gmap string xfs.Node) :
  xfs.lookupNode fs d = Some (xfs.Directory ch) →
  (∀ k n, f ch !! k = Some n → ∃ n', g ch !! k = Some n' ∧ grows n n') →
  grows (xfs.updateDir fs d f) (xfs.updateDir fs d g).
Proof.
  revert fs. induction d as [|s d IH]; intros fs Hd Hfg p n; simpl in *.
  - injection Hd as ->. destruct p as [|k r]; simpl.
    + intros [= <-]. eauto.
    + destruct (f ch !! k) as [c|] eqn:Ec; [|done]. intros Hn.
      destruct (Hfg _ _ Ec) as (c' & -> & Hc'). by apply Hc'.
  - destruct fs as [| |ch0]; try done.
    destruct (ch0 !! s) as [c|] eqn:Ec; [|done].
    destruct p as [|k r]; simpl.
    + intros [= <-]. eauto.
    + destruct (decide (s = k)) as [<-|Hne].
      * rewrite !lookup_insert_eq. by apply IH.
      * rewrite !lookup_insert_ne by done. destruct (ch0 !! k); [|done]. eauto.
Qed.



(** ** Directories reached through links *)


Lemma dirAt_plain (fs : xfs.Node) (p : list string) (ch : gmap string xfs.Node) :
  plainPath p → xfs.lookupNode fs p = Some (xfs.Directory ch) → dirAt fs p p ch.
Proof.
  intros Hp Hch. split; [by apply resolveDir_linkfree|].
  apply (realpath_linkfree _ (xfs.Directory ∅)); [done| |done].
  by rewrite (lookupNode_updateDir _ _ _ _ Hch).
Qed.

Lemma resolveDir_realpath (fs : xfs.Node) (p d : list string) (ch : gmap string xfs.Node) :
  xfs.resolveDir fs p = Ok (d, ch) → xfs.realpath fs p = Ok d.
Proof.
  unfold xfs.resolveDir, mbind, Result_bind.
  destruct (xfs.realpath fs p) as [q|]; [|done].
  destruct (xfs.lookupNode fs q) as [[| |ch']|]; try done. by intros [= <- _].
Qed.

Lemma resolveDir_intro (fs : xfs.Node) (p d : list string) (ch : gmap string xfs.Node) :
  xfs.realpath fs p = Ok d → xfs.lookupNode fs d = Some (xfs.Directory ch) →
  xfs.resolveDir fs p = Ok (d, ch).
Proof. intros Hr Hd. unfold xfs.resolveDir, mbind, Result_bind. by rewrite Hr, Hd. Qed.



(** ** The calls on a directory reached through links *)

Section DirectoryAt.

Variables (fs : xfs.Node) (p d : list string) (ch : gmap string xfs.Node).
Hypothesis Hres : xfs.resolveDir fs p = Ok (d, ch).

Lemma lstatPromise_in (s : string) :
  xfs.lstatPromise (p ++ [s]) fs
  = match ch !! s with Some n => Ok n | None => Err (FsError ENOENT) end.
Proof using Hres. unfold xfs.lstatPromise. by rewrite splitLast_snoc, Hres. Qed.

Lemma readlinkPromise_in (s : string) :
  xfs.readlinkPromise (p ++ [s]) fs
  = match ch !! s with
    | Some (xfs.Symlink t) => Ok t
    | Some _ => Err (FsError EINVAL)
    | None => Err (FsError ENOENT)
    end.
Proof using Hres.
  unfold xfs.readlinkPromise. rewrite lstatPromise_in. by destruct (ch !! s) as [[]|].
Qed.

Lemma readdirPromise_in : xfs.readdirPromise p fs = Ok (xfs.direntsOf ch).
Proof using Hres. unfold xfs.readdirPromise. by rewrite Hres. Qed.




Lemma realpath_in (s : string) :
  isPlainSegment s = true →
  (∀ t, ch !! s ≠ Some (xfs.Symlink t)) →
  xfs.realpath fs (p ++ [s])
  = match ch !! s with
    | Some _ => Ok (d ++ [s])
    | None => Err (FsError ENOENT)
    end.
Proof using Hres.
  intros Hs Hnl. unfold xfs.realpath.
  destruct (follow_app _ _ _ _ [s] _ (resolveDir_realpath _ _ _ _ Hres)) as [hops' ->].
  apply follow_entry; [by eapply resolveDir_lookup|done|done].
Qed.

Lemma resolveDir_in (s : string) (sub : gmap string xfs.Node) :
  isPlainSegment s = true → ch !! s = Some (xfs.Directory sub) →
  xfs.resolveDir fs (p ++ [s]) = Ok (d ++ [s], sub).
Proof using Hres.
  intros Hs Hsub. apply resolveDir_intro.
  - rewrite realpath_in, Hsub; [done|done|]. intros t. by rewrite Hsub.
  - by rewrite lookupNode_snoc, (resolveDir_lookup _ _ _ _ Hres).
Qed.






(** Nothing is found below a name the directory has no entry for. *)
Lemma resolveDir_below_absent (a : string) (rest : list string) :
  isPlainSegment a = true → ch !! a = None →
  xfs.resolveDir fs (p ++ a :: rest) = Err (FsError ENOENT).
Proof using Hres.
  intros Ha Hnone. unfold xfs.resolveDir, mbind, Result_bind.
  assert (xfs.realpath fs (p ++ [a]) = Err (FsError ENOENT)) as Hr.
  { rewrite realpath_in, Hnone; [done|done|]. intros t. by rewrite Hnone. }
  unfold xfs.realpath in *.
  by rewrite (app_assoc p [a] rest : p ++ a :: rest = (p ++ [a]) ++ rest),
    (follow_app_err _ _ _ _ rest _ Hr).
Qed.



End DirectoryAt.



(** ** The listing of a directory on the disk *)

Section ScanAt.

Variables (fs : xfs.Node) (nmPath d : list string) (ch : gmap string xfs.Node).
Hypothesis Hres : xfs.resolveDir fs nmPath = Ok (d, ch).

Lemma readdirPromise_scope (s : string) (sub : gmap string xfs.Node) :
  isPlainSegment s = true → ch !! s = Some (xfs.Directory sub) →
  xfs.readdirPromise (ppath.join nmPath [s]) fs = Ok (xfs.direntsOf sub).
Proof using Hres.
  intros Hs Hsub. rewrite join_plain by by constructor.
  apply (readdirPromise_in fs (nmPath ++ [s]) (d ++ [s])).
  by apply (resolveDir_in fs nmPath d ch).
Qed.

Hypothesis Hsc : scopesAreDirectories ch.

Lemma recordedFor_disk (entry : xfs.Dirent) (key : list string) (x : xfs.Dirent) :
  entry ∈ xfs.direntsOf ch →
  recordedFor (λ p, xfs.readdirPromise p fs) nmPath entry key x →
  entryKey key = true ∧ ∃ node, entryAt ch key = Some node ∧ xfs.kind x = xfs.kindOf node.
Proof using Hres Hsc.
  intros [Hp (node & Hn & Hk)]%elem_of_direntsOf [Hdot Hr].
  destruct Hr as [(Hat & -> & ->)|(Hat & subs & Hrd & Hd & ->)].
  - split; [simpl; by rewrite Hp, Hdot, Hat|].
    exists node. by rewrite entryAt_one.
  - destruct (scopesAreDirectories_lookup _ _ _ Hsc Hat Hn) as [sub ->].
    rewrite (readdirPromise_scope _ sub Hp Hn) in Hrd. injection Hrd as <-.
    apply elem_of_direntsOf in Hd as [Hpd (node' & Hn' & Hk')].
    split; [simpl; by rewrite Hat, Hpd|].
    exists node'. by rewrite entryAt_two, Hn.
Qed.

(** Every recorded key comes with a dirent in the listing. *)
Lemma entryKey_recorded (key : list string) (node : xfs.Node) :
  entryKey key = true → entryAt ch key = Some node →
  ∃ entry x, entry ∈ xfs.direntsOf ch
             ∧ recordedFor (λ p, xfs.readdirPromise p fs) nmPath entry key x.
Proof using Hres Hsc.
  intros Hkey Hnode. destruct key as [|s [|c [|]]]; try done; simpl in Hkey.
  - apply andb_true_iff in Hkey as [[Hp Hdot]%andb_true_iff Hat].
    apply negb_true_iff in Hdot, Hat. rewrite entryAt_one in Hnode.
    exists (xfs.mkDirent s (xfs.kindOf node)), (xfs.mkDirent s (xfs.kindOf node)).
    split; [apply elem_of_direntsOf; eauto|].
    split; [done|]. by left.
  - apply andb_true_iff in Hkey as [Hat Hpc].
    destruct (startsWith_at_plain _ Hat) as [Hps Hdot].
    rewrite entryAt_two in Hnode.
    destruct (ch !! s) as [[| |sub]|] eqn:Es; try done.
    exists (xfs.mkDirent s xfs.KDirectory), (xfs.mkDirent c (xfs.kindOf node)).
    split; [apply elem_of_direntsOf; eauto|].
    split; [done|]. right. split; [done|].
    exists (xfs.direntsOf sub). split; [by apply readdirPromise_scope|].
    split; [apply elem_of_direntsOf; eauto|done].
Qed.

Lemma scanDirectory_at :
  ∃ ext,
    scanDirectory (λ p, xfs.readdirPromise p fs) nmPath = (ext, Ok tt)
    ∧ (∀ key x, JsMap.get key ext = Some x →
         entryKey key = true
         ∧ ∃ node, entryAt ch key = Some node ∧ xfs.kind x = xfs.kindOf node)
    ∧ (∀ key node, entryKey key = true → entryAt ch key = Some node →
         is_Some (JsMap.get key ext)).
Proof using Hres Hsc.
  unfold scanDirectory. rewrite (readdirPromise_in fs nmPath d ch Hres).
  destruct (scanEntries_ok (λ p, xfs.readdirPromise p fs) nmPath
              (xfs.direntsOf ch) JsMap.empty) as [ext E].
  { intros entry [Hp (node & Hn & Hk)]%elem_of_direntsOf Hat.
    destruct (scopesAreDirectories_lookup _ _ _ Hsc Hat Hn) as [sub ->].
    by rewrite (readdirPromise_scope _ sub Hp Hn). }
  exists ext. split; [done|]. split.
  - intros key x Hget.
    destruct (scanEntries_sound _ _ _ _ _ _ _ _ E Hget) as [?|(entry & Hin & Hr)]; [done|].
    by eapply recordedFor_disk.
  - intros key node Hkey Hnode.
    destruct (entryKey_recorded key node Hkey Hnode) as (entry & x & Hin & Hr).
    by eapply scanEntries_complete.
Qed.

(** The listing of a directory whose scopes are directories ends well, and
    records the entries the keys designate, no other. *)
Lemma listExtraneous_at :
  ∃ ext,
    listExtraneous (λ p, xfs.readdirPromise p fs) nmPath = Ok ext
    ∧ (∀ key x, JsMap.get key ext = Some x →
         entryKey key = true
         ∧ ∃ node, entryAt ch key = Some node ∧ xfs.kind x = xfs.kindOf node)
    ∧ (∀ key node, entryKey key = true → entryAt ch key = Some node →
         is_Some (JsMap.get key ext)).
Proof using Hres Hsc.
  destruct scanDirectory_at as (ext & E & Hs & Hc).
  exists ext. unfold listExtraneous. by rewrite E.
Qed.

End ScanAt.

(** The same for a directory reached without links. *)
Lemma listExtraneous_disk (fs : xfs.Node) (nmPath : list string)
    (ch : gmap string xfs.Node) :
  plainPath nmPath →
  xfs.lookupNode fs nmPath = Some (xfs.Directory ch) →
  scopesAreDirectories ch →
  ∃ ext,
    listExtraneous (λ p, xfs.readdirPromise p fs) nmPath = Ok ext
    ∧ (∀ key x, JsMap.get key ext = Some x →
         entryKey key = true
         ∧ ∃ node, entryAt ch key = Some node ∧ xfs.kind x = xfs.kindOf node)
    ∧ (∀ key node, entryKey key = true → entryAt ch key = Some node →
         is_Some (JsMap.get key ext)).
Proof.
  intros Hnm Hch. apply (listExtraneous_at fs nmPath nmPath ch). by apply resolveDir_linkfree.
Qed.

(** ** Names as paths *)

Lemma append_nil_l (s : string) : "" +:+ s = s.
Proof. reflexivity. Qed.

Lemma append_cons (a : ascii) (s t : string) : String a s +:+ t = String a (s +:+ t).
Proof. reflexivity. Qed.

Lemma append_snoc (cur : string) (c : ascii) (s : string) :
  (cur +:+ String c EmptyString) +:+ s = cur +:+ String c s.
Proof.
  induction cur as [|a cur IH]; [done|].
  rewrite !append_cons. by f_equal.
Qed.

Lemma append_empty_r (s : string) : s +:+ "" = s.
Proof. induction s as [|a s IH]; [done|]. rewrite append_cons. by f_equal. Qed.

Lemma splitSegments_noSlash (cur s : string) :
  noSlash s = true → splitSegments cur s = [cur +:+ s].
Proof.
  revert cur. induction s as [|c s IH]; intros cur Hs; simpl.
  - by rewrite append_empty_r.
  - simpl in Hs. apply andb_true_iff in Hs as [Hc Hs]. apply negb_true_iff in Hc.
    rewrite Hc, IH by done. by rewrite append_snoc.
Qed.

Lemma splitSegments_slash (cur a b : string) :
  noSlash a = true →
  splitSegments cur (a +:+ String "/" b) = (cur +:+ a) :: splitSegments "" b.
Proof.
  revert cur. induction a as [|c a IH]; intros cur Ha.
  - rewrite append_nil_l, append_empty_r. done.
  - simpl in Ha. apply andb_true_iff in Ha as [Hc Ha]. apply negb_true_iff in Hc.
    rewrite append_cons. simpl. rewrite Hc, IH by done. by rewrite append_snoc.
Qed.

(** The key of a well-formed identifier: its name, or its scope and its
    name. *)
Lemma dependencyKey_wf (descriptor : Descriptor) :
  wfIdent descriptor →
  (dependencyKey descriptor = [name descriptor]
   ∧ startsWith (name descriptor) "." = false
   ∧ startsWith (name descriptor) "@" = false)
  ∨ (∃ s, dependencyKey descriptor = [String "@" s; name descriptor]).
Proof.
  intros (Hp & Hn & Hs). unfold dependencyKey, toPortablePath, structUtils.stringifyIdent.
  destruct (scope descriptor) as [s|].
  - destruct Hs as [Hs Hempty]. case_bool_decide as Es.
    + left. destruct (Hempty Es) as [? ?].
      by rewrite splitSegments_noSlash, append_nil_l.
    + right. exists s.
      change ("@" +:+ s +:+ "/" +:+ name descriptor)
        with (String "@" s +:+ String "/" (name descriptor)).
      rewrite splitSegments_slash by done.
      by rewrite splitSegments_noSlash, !append_nil_l.
  - left. destruct Hs as [? ?]. by rewrite splitSegments_noSlash, append_nil_l.
Qed.

Lemma dependencyKey_entryKey (descriptor : Descriptor) :
  wfIdent descriptor →
  entryKey (dependencyKey descriptor) = true ∧ plainPath (dependencyKey descriptor).
Proof.
  intros Hwf. pose proof Hwf as (Hp & _).
  destruct (dependencyKey_wf _ Hwf) as [(-> & Hdot & Hat)|[s ->]]; unfold entryKey.
  - rewrite Hp, Hdot, Hat. split; [done|]. by constructor.
  - assert (startsWith (String "@" s) "@" = true) as Hat by (apply startsWith_one; eauto).
    rewrite Hp, Hat. split; [done|].
    constructor; [by apply startsWith_at_plain|]. by constructor.
Qed.

Lemma entryKey_plain (key : list string) : entryKey key = true → plainPath key.
Proof.
  destruct key as [|s [|c [|]]]; try done; simpl.
  - intros [[Hp _]%andb_true_iff _]%andb_true_iff. by constructor.
  - intros [Hat Hpc]%andb_true_iff. destruct (startsWith_at_plain _ Hat).
    constructor; [done|]. by constructor.
Qed.

(** ** Relative targets *)



Lemma stripCommon_spec (from to up down : list string) :
  ppath.stripCommon from to = (up, down) →
  ∃ common, from = common ++ up ∧ to = common ++ down.
Proof.
  revert to. induction from as [|a from IH]; intros to E; simpl in E.
  - injection E as <- <-. by exists [].
  - destruct to as [|b to]; [injection E as <- <-; by exists []|].
    case_bool_decide as Eab; [|injection E as <- <-; by exists []].
    subst b. destruct (IH _ E) as (common & -> & ->). by exists (a :: common).
Qed.


(** ** Setting one entry of a directory *)

Lemma entryKey_one (n : string) :
  entryKey [n] = true
  ↔ isPlainSegment n = true ∧ startsWith n "." = false ∧ startsWith n "@" = false.
Proof.
  simpl. rewrite !andb_true_iff, !negb_true_iff. tauto.
Qed.

Lemma entryKey_two (s c : string) :
  entryKey [s; c] = true ↔ startsWith s "@" = true ∧ isPlainSegment c = true.
Proof. simpl. by rewrite andb_true_iff. Qed.

Lemma updatedAt_top (n : string) (x : option xfs.Node) (ch : gmap string xfs.Node) :
  entryKey [n] = true → scopesAreDirectories ch →
  updatedAt [n] x ch (partial_alter (λ _, x) n ch).
Proof.
  intros (Hp & Hdot & Hat)%entryKey_one Hsc. split; [|split; [|split]].
  - by rewrite entryAt_one, lookup_partial_alter_eq.
  - intros key' Hkey' Hne. destruct key' as [|s [|c [|]]]; try done.
    + rewrite !entryAt_one, lookup_partial_alter_ne; [done|congruence].
    + apply entryKey_two in Hkey' as [Hs _].
      rewrite !entryAt_two, lookup_partial_alter_ne; [done|congruence].
  - intros n' Hn'. rewrite lookup_partial_alter_ne; [done|congruence].
  - intros s c Hs. rewrite lookup_partial_alter_ne; [by apply Hsc|congruence].
Qed.

Lemma updatedAt_scoped (s c : string) (x : option xfs.Node)
    (ch sub : gmap string xfs.Node) :
  entryKey [s; c] = true → scopesAreDirectories ch →
  ch !! s = Some (xfs.Directory sub) ∨ (ch !! s = None ∧ sub = ∅) →
  updatedAt [s; c] x ch (<[s := xfs.Directory (partial_alter (λ _, x) c sub)]> ch).
Proof.
  intros [Hs Hc]%entryKey_two Hsc Hsub.
  destruct (startsWith_at_plain _ Hs) as [Hps Hdot].
  split; [|split; [|split]].
  - by rewrite entryAt_two, lookup_insert_eq, lookup_partial_alter_eq.
  - intros key' Hkey' Hne. destruct key' as [|s' [|c' [|]]]; try done.
    + apply entryKey_one in Hkey' as (_ & _ & Hat').
      rewrite !entryAt_one, lookup_insert_ne; [done|congruence].
    + rewrite !entryAt_two. destruct (decide (s = s')) as [<-|Hss].
      * rewrite lookup_insert_eq, lookup_partial_alter_ne by congruence.
        by destruct Hsub as [->|[-> ->]].
      * by rewrite lookup_insert_ne.
  - intros n' Hn'. rewrite lookup_insert_ne; [done|congruence].
  - intros s' c' Hs'. rewrite lookup_insert_Some.
    intros [[_ <-]|[_ ?]]; [done|by eapply Hsc].
Qed.

Lemma updatedAt_refl (key : list string) (ch : gmap string xfs.Node) :
  scopesAreDirectories ch → updatedAt key (entryAt ch key) ch ch.
Proof. by intros Hsc. Qed.

Lemma updatedAt_trans (key : list string) (x y : option xfs.Node)
    (ch ch1 ch2 : gmap string xfs.Node) :
  updatedAt key x ch ch1 → updatedAt key y ch1 ch2 → updatedAt key y ch ch2.
Proof.
  intros (_ & Hf1 & Hd1 & _) (Hy & Hf2 & Hd2 & Hsc). split; [done|].
  split; [|split; [|done]].
  - intros key' Hk Hne. by rewrite Hf2, Hf1.
  - intros n Hn. by rewrite Hd2, Hd1.
Qed.

(** ** Removing and creating the entry of a key on the disk *)

(** The entry found under a key, in a directory reached without links. *)
Lemma lookupNode_entry (fs : xfs.Node) (nmPath key : list string)
    (ch : gmap string xfs.Node) :
  xfs.lookupNode fs nmPath = Some (xfs.Directory ch) →
  xfs.lookupNode fs (nmPath ++ key) = entryAt ch key.
Proof. intros Hch. by rewrite lookupNode_app, Hch. Qed.

Section KeyCalls.

Variables (fs : xfs.Node) (nmPath : list string) (ch : gmap string xfs.Node).
Hypothesis Hnm : plainPath nmPath.
Hypothesis Hch : xfs.lookupNode fs nmPath = Some (xfs.Directory ch).
Hypothesis Hsc : scopesAreDirectories ch.

Lemma lookupNode_scope (s : string) (sub : gmap string xfs.Node) :
  ch !! s = Some (xfs.Directory sub) →
  xfs.lookupNode fs (nmPath ++ [s]) = Some (xfs.Directory sub).
Proof using Hch. intros Hsub. by rewrite lookupNode_snoc, Hch. Qed.

Lemma lookupNode_updateDir_scope (s : string) (sub : gmap string xfs.Node)
    (f : gmap string xfs.Node → gmap string xfs.Node) :
  ch !! s = Some (xfs.Directory sub) →
  xfs.lookupNode (xfs.updateDir fs (nmPath ++ [s]) f) nmPath
  = Some (xfs.Directory (<[s := xfs.Directory (f sub)]> ch)).
Proof using Hch.
  intros Hsub. rewrite (lookupNode_updateDir_app _ _ _ _ _ Hch). simpl. by rewrite Hsub.
Qed.

Lemma removePromise_key (key : list string) :
  entryKey key = true →
  ∃ fs' ch',
    xfs.removePromise (ppath.join nmPath key) fs = Ok fs'
    ∧ xfs.lookupNode fs' nmPath = Some (xfs.Directory ch')
    ∧ updatedAt key None ch ch'.
Proof using Hnm Hch Hsc.
  intros Hkey. rewrite (join_plain _ _ (entryKey_plain _ Hkey)).
  destruct key as [|s [|c [|]]]; try done.
  - rewrite (removePromise_child fs nmPath ch Hnm Hch).
    pose proof (updatedAt_top s None ch Hkey Hsc) as Hup.
    destruct (ch !! s) eqn:Es.
    + eexists _, _. split; [done|]. split; [|exact Hup].
      by rewrite (lookupNode_updateDir _ _ _ _ Hch).
    + exists fs, ch. split; [done|]. split; [done|].
      replace ch with (partial_alter (λ _, None) s ch) at 2; [done|].
      exact (delete_id ch s Es).
  - pose proof Hkey as [Hs Hc]%entryKey_two.
    destruct (startsWith_at_plain _ Hs) as [Hps _].
    change (nmPath ++ [s; c]) with (nmPath ++ [s] ++ [c]). rewrite app_assoc.
    destruct (ch !! s) as [node|] eqn:Es.
    + destruct (scopesAreDirectories_lookup _ _ _ Hsc Hs Es) as [sub ->].
      rewrite (removePromise_child fs (nmPath ++ [s]) sub);
        [|by apply plainPath_snoc|by apply lookupNode_scope].
      pose proof (updatedAt_scoped s c None ch sub Hkey Hsc (or_introl Es)) as Hup.
      destruct (sub !! c) eqn:Ec.
      * eexists _, _. split; [done|]. split; [|exact Hup].
        by rewrite (lookupNode_updateDir_scope s sub).
      * exists fs, ch. split; [done|]. split; [done|].
        replace ch with (<[s := xfs.Directory (partial_alter (λ _, None) c sub)]> ch) at 2;
          [done|].
        apply insert_id. rewrite Es. do 2 f_equal. symmetry. exact (delete_id sub c Ec).
    + exists fs, ch. split.
      * unfold xfs.removePromise. rewrite splitLast_snoc.
        by rewrite (resolveDir_child_absent fs nmPath ch s).
      * split; [done|].
        assert (entryAt ch [s; c] = None) as <- by by rewrite entryAt_two, Es.
        by apply updatedAt_refl.
Qed.

Lemma readlinkPromise_key (key : list string) :
  entryKey key = true →
  xfs.readlinkPromise (ppath.join nmPath key) fs
  = match entryAt ch key with
    | Some (xfs.Symlink t) => Ok t
    | Some _ => Err (FsError EINVAL)
    | None => Err (FsError ENOENT)
    end.
Proof using Hnm Hch Hsc.
  intros Hkey. rewrite (join_plain _ _ (entryKey_plain _ Hkey)).
  destruct key as [|s [|c [|]]]; try done.
  - by rewrite (readlinkPromise_child fs nmPath ch Hnm Hch), entryAt_one.
  - pose proof Hkey as [Hs Hc]%entryKey_two.
    destruct (startsWith_at_plain _ Hs) as [Hps _].
    change (nmPath ++ [s; c]) with (nmPath ++ [s] ++ [c]). rewrite app_assoc.
    rewrite entryAt_two. destruct (ch !! s) as [node|] eqn:Es.
    + destruct (scopesAreDirectories_lookup _ _ _ Hsc Hs Es) as [sub ->].
      by rewrite (readlinkPromise_child fs (nmPath ++ [s]) sub);
        [|apply plainPath_snoc|apply lookupNode_scope].
    + unfold xfs.readlinkPromise, xfs.lstatPromise. rewrite splitLast_snoc.
      by rewrite (resolveDir_child_absent fs nmPath ch s).
Qed.

(** Creating the link of a key: the directory that holds it is made first;
    the link is written when nothing is there and the target is not
    empty, and the call fails otherwise. *)
Lemma symlinkPromise_key (key t : list string) :
  entryKey key = true →
  ∃ fs1,
    xfs.mkdirpPromise (ppath.dirname (ppath.join nmPath key)) fs = Ok fs1
    ∧ match t, entryAt ch key with
      | _ :: _, None =>
          ∃ fs' ch',
            xfs.symlinkPromise t (ppath.join nmPath key) fs1 = Ok fs'
            ∧ xfs.lookupNode fs' nmPath = Some (xfs.Directory ch')
            ∧ updatedAt key (Some (xfs.Symlink t)) ch ch'
      | _, _ => ∃ e, xfs.symlinkPromise t (ppath.join nmPath key) fs1 = Err e
      end.
Proof using Hnm Hch Hsc.
  intros Hkey. rewrite (join_plain _ _ (entryKey_plain _ Hkey)).
  destruct key as [|s [|c [|]]]; try done.
  - unfold ppath.dirname. rewrite removelast_last.
    exists fs. split; [by apply (mkdirpPromise_existing fs (xfs.Directory ch))|].
    rewrite (symlinkPromise_child fs nmPath ch Hnm Hch), entryAt_one.
    destruct t as [|t0 t]; [eauto|].
    destruct (ch !! s) eqn:Es; [eauto|].
    eexists _, _. split; [done|].
    split; [by rewrite (lookupNode_updateDir _ _ _ _ Hch)|].
    exact (updatedAt_top s (Some (xfs.Symlink (t0 :: t))) ch Hkey Hsc).
  - pose proof Hkey as [Hs Hc]%entryKey_two.
    destruct (startsWith_at_plain _ Hs) as [Hps _].
    change (nmPath ++ [s; c]) with (nmPath ++ [s] ++ [c]). rewrite app_assoc.
    unfold ppath.dirname. rewrite removelast_last.
    rewrite (mkdirpPromise_child fs nmPath ch s Hnm Hps Hch).
    2:{ intros t' Et'. by specialize (Hsc s _ Hs Et'). }
    rewrite entryAt_two.
    destruct (ch !! s) as [node|] eqn:Es.
    + destruct (scopesAreDirectories_lookup _ _ _ Hsc Hs Es) as [sub ->].
      exists fs. split; [done|].
      rewrite (symlinkPromise_child fs (nmPath ++ [s]) sub);
        [|by apply plainPath_snoc|by apply lookupNode_scope].
      destruct t as [|t0 t]; [eauto|].
      destruct (sub !! c) eqn:Ec; [eauto|].
      eexists _, _. split; [done|].
      split; [by rewrite (lookupNode_updateDir_scope s sub)|].
      exact (updatedAt_scoped s c (Some (xfs.Symlink (t0 :: t))) ch sub Hkey Hsc
               (or_introl Es)).
    + eexists. split; [done|].
      assert (xfs.lookupNode (xfs.updateDir fs nmPath (insert s (xfs.Directory ∅))) nmPath
              = Some (xfs.Directory (<[s := xfs.Directory ∅]> ch))) as Hch1
        by by rewrite (lookupNode_updateDir _ _ _ _ Hch).
      rewrite (symlinkPromise_child _ (nmPath ++ [s]) ∅);
        [|by apply plainPath_snoc|by rewrite lookupNode_snoc, Hch1, lookup_insert_eq].
      destruct t as [|t0 t]; [eauto|].
      rewrite lookup_empty.
      eexists _, _. split; [done|]. split.
      * rewrite (lookupNode_updateDir_app _ _ _ _ _ Hch1). simpl.
        by rewrite lookup_insert_eq, insert_insert_eq.
      * exact (updatedAt_scoped s c (Some (xfs.Symlink (t0 :: t))) ch ∅ Hkey Hsc
                 (or_intror (conj Es eq_refl))).
Qed.

End KeyCalls.

(** ** One turn of the loop over the dependencies *)

Lemma xfsWrite_bind {A} (op : xfs.Node → Result xfs.Node) (k : StateErr xfs.Node A)
    (fs : xfs.Node) :
  (xfsWrite op;; k) fs
  = match op fs with
    | Ok fs1 => k fs1
    | Err e => (fs, Err e)
    end.
Proof. unfold mbind, StateErr_bind, xfsWrite. by destruct (op fs). Qed.

Lemma xfsRead_bind {A B} (op : xfs.Node → Result A) (k : A → StateErr xfs.Node B)
    (fs : xfs.Node) :
  (x ← xfsRead op; k x) fs
  = match op fs with
    | Ok a => k a fs
    | Err e => (fs, Err e)
    end.
Proof. unfold mbind, StateErr_bind, xfsRead. by destruct (op fs). Qed.

Section Turn.

Context {su : structUtils.Impl}.
Variables (this : PnpmInstaller) (nmPath : list string).
Hypothesis Hnm : plainPath nmPath.

Lemma create_post (fs fs' : xfs.Node) (ch : gmap string xfs.Node) (key t : list string)
    (ext ext' : JsMap.t xfs.Dirent) :
  xfs.lookupNode fs nmPath = Some (xfs.Directory ch) →
  scopesAreDirectories ch →
  entryKey key = true →
  (xfsWrite (xfs.mkdirpPromise (ppath.dirname (ppath.join nmPath key)));;
   xfsWrite (xfs.symlinkPromise t (ppath.join nmPath key));;
   mret ext) fs = (fs', Ok ext') →
  ext' = ext ∧ entryAt ch key = None
  ∧ ∃ ch', xfs.lookupNode fs' nmPath = Some (xfs.Directory ch')
           ∧ updatedAt key (Some (xfs.Symlink t)) ch ch'.
Proof using Hnm.
  intros Hch Hsc Hkey. rewrite xfsWrite_bind.
  destruct (symlinkPromise_key fs nmPath ch Hnm Hch Hsc key t Hkey) as (fs1 & -> & Hm).
  rewrite xfsWrite_bind.
  destruct t as [|t0 t], (entryAt ch key) as [node|];
    try (destruct Hm as [e ->]; done).
  destruct Hm as (fs2 & ch' & -> & Hch' & Hup).
  intros [= <- <-]. eauto.
Qed.

Lemma linkDependency_post (fs fs' : xfs.Node) (ch : gmap string xfs.Node)
    (ext ext' : JsMap.t xfs.Dirent) (descriptor : Descriptor) (dependency : Locator) :
  xfs.lookupNode fs nmPath = Some (xfs.Directory ch) →
  scopesAreDirectories ch →
  wfIdent descriptor →
  (∀ d, JsMap.get (dependencyKey descriptor) ext = Some d →
        ∃ node, entryAt ch (dependencyKey descriptor) = Some node
                ∧ xfs.kind d = xfs.kindOf node) →
  linkDependency this nmPath ext (descriptor, dependency) fs = (fs', Ok ext') →
  ∃ src ch',
    locations this !! locatorHash (targetDependency this dependency) = Some src
    ∧ ext' = JsMap.delete (dependencyKey descriptor) ext
    ∧ xfs.lookupNode fs' nmPath = Some (xfs.Directory ch')
    ∧ updatedAt (dependencyKey descriptor)
        (Some (xfs.Symlink (desiredTarget nmPath descriptor src))) ch ch'
    ∧ (JsMap.get (dependencyKey descriptor) ext = None →
       entryAt ch (dependencyKey descriptor) = None).
Proof using Hnm.
  intros Hch Hsc Hwf Hext. destruct (dependencyKey_entryKey _ Hwf) as [Hkey _].
  unfold linkDependency.
  destruct (locations this !! _) as [src|] eqn:El; [|done].
  cbv zeta.
  change (toPortablePath (structUtils.stringifyIdent descriptor))
    with (dependencyKey descriptor).
  change (ppath.relative (ppath.dirname (ppath.join nmPath (dependencyKey descriptor))) src)
    with (desiredTarget nmPath descriptor src).
  set (key := dependencyKey descriptor) in *.
  set (t := desiredTarget nmPath descriptor src).
  assert (∀ fs0 ch0,
    xfs.lookupNode fs0 nmPath = Some (xfs.Directory ch0) →
    updatedAt key None ch ch0 →
    (xfsWrite (xfs.mkdirpPromise (ppath.dirname (ppath.join nmPath key)));;
     xfsWrite (xfs.symlinkPromise t (ppath.join nmPath key));;
     mret (JsMap.delete key ext)) fs0 = (fs', Ok ext') →
    ∃ ch', ext' = JsMap.delete key ext
           ∧ xfs.lookupNode fs' nmPath = Some (xfs.Directory ch')
           ∧ updatedAt key (Some (xfs.Symlink t)) ch ch') as Hcreate.
  { intros fs0 ch0 Hch0 Hup0 E. pose proof Hup0 as (_ & _ & _ & Hsc0).
    destruct (create_post _ _ _ _ _ _ _ Hch0 Hsc0 Hkey E) as (-> & _ & ch' & Hch' & Hup).
    exists ch'. split; [done|]. split; [done|]. by eapply updatedAt_trans. }
  assert (∀ (k : StateErr xfs.Node (JsMap.t xfs.Dirent)),
    k = (xfsWrite (xfs.mkdirpPromise (ppath.dirname (ppath.join nmPath key)));;
         xfsWrite (xfs.symlinkPromise t (ppath.join nmPath key));;
         mret (JsMap.delete key ext)) →
    (xfsWrite (xfs.removePromise (ppath.join nmPath key));; k) fs = (fs', Ok ext') →
    ∃ ch', ext' = JsMap.delete key ext
           ∧ xfs.lookupNode fs' nmPath = Some (xfs.Directory ch')
           ∧ updatedAt key (Some (xfs.Symlink t)) ch ch') as Hreplace.
  { intros k -> E. rewrite xfsWrite_bind in E.
    destruct (removePromise_key fs nmPath ch Hnm Hch Hsc key Hkey)
      as (fs1 & ch1 & Hrm & Hch1 & Hup1).
    rewrite Hrm in E. by eapply Hcreate. }
  destruct (JsMap.get key ext) as [existing|] eqn:Eget.
  - destruct (Hext existing eq_refl) as (node & Hnode & Hkind).
    destruct (xfs.isSymbolicLink existing) eqn:Elink.
    + rewrite xfsRead_bind, (readlinkPromise_key fs nmPath ch Hnm Hch Hsc key Hkey), Hnode.
      unfold xfs.isSymbolicLink in Elink. apply bool_decide_eq_true in Elink.
      destruct node as [| cur |]; try (rewrite Hkind in Elink; done).
      case_bool_decide as Ecur.
      * intros [= <- <-]. exists src, ch. split; [done|]. split; [done|].
        split; [done|]. split; [|done].
        fold t. rewrite <- Ecur, <- Hnode. by apply updatedAt_refl.
      * intros E. destruct (Hreplace _ eq_refl E) as (ch' & -> & Hch' & Hup).
        exists src, ch'. split; [done|]. split; [done|]. split; [done|]. split; [exact Hup|done].
    + intros E. destruct (Hreplace _ eq_refl E) as (ch' & -> & Hch' & Hup).
      exists src, ch'. split; [done|]. split; [done|]. split; [done|]. split; [exact Hup|done].
  - intros E.
    destruct (create_post _ _ _ _ _ _ _ Hch Hsc Hkey E) as (-> & Hnone & ch' & Hch' & Hup).
    exists src, ch'. eauto 10.
Qed.

End Turn.

(** ** The loop over the dependencies *)

Section Loop.

Context {su : structUtils.Impl}.
Variables (this : PnpmInstaller) (nmPath : list string).
Hypothesis Hnm : plainPath nmPath.

Lemma elem_of_dependencyKeys (key : list string) (seen : list (Descriptor * Locator)) :
  key ∈ dependencyKey <$> seen.*1
  ↔ ∃ entry, entry ∈ seen ∧ key = dependencyKey entry.1.
Proof.
  rewrite list_elem_of_fmap. split.
  - intros (descriptor & -> & (entry & -> & Hin)%list_elem_of_fmap). eauto.
  - intros (entry & Hin & ->). exists entry.1. split; [done|].
    apply list_elem_of_fmap. eauto.
Qed.

Lemma reconciling_turn (ch0 ch ch1 : gmap string xfs.Node) (ext : JsMap.t xfs.Dirent)
    (seen : list (Descriptor * Locator)) (descriptor : Descriptor) (dependency : Locator)
    (src : list string) :
  reconciling this nmPath ch0 ch ext seen →
  wfIdent descriptor →
  locations this !! locatorHash (targetDependency this dependency) = Some src →
  updatedAt (dependencyKey descriptor)
    (Some (xfs.Symlink (desiredTarget nmPath descriptor src))) ch ch1 →
  (JsMap.get (dependencyKey descriptor) ext = None →
   entryAt ch (dependencyKey descriptor) = None) →
  reconciling this nmPath ch0 ch1 (JsMap.delete (dependencyKey descriptor) ext)
    (seen ++ [(descriptor, dependency)]).
Proof using Type.
  intros (Hsc & Hsound & Hcover & Hlinked & Hgone & Hnodup & Hwfs & Hdots) Hwf El
    (Hat & Hframe & Hdot1 & Hsc1) Hnone.
  set (key := dependencyKey descriptor) in *.
  assert (key ∉ dependencyKey <$> seen.*1) as Hfresh.
  { intros Hin. pose proof (Hnone (Hgone _ Hin)) as Habs.
    apply elem_of_dependencyKeys in Hin as (entry & Hin & Hk).
    rewrite Forall_forall in Hlinked. destruct (Hlinked entry Hin) as (src' & _ & Hl).
    unfold key in *. rewrite Hk in Habs. congruence. }
  assert (dependencyKey <$> (seen ++ [(descriptor, dependency)]).*1
          = (dependencyKey <$> seen.*1) ++ [key]) as Hkeys
    by by rewrite !fmap_app.
  split; [done|]. split; [|split; [|split; [|split; [|split; [|split]]]]].
  - intros key' d Hget. destruct (decide (key = key')) as [<-|Hne].
    { by rewrite JsMap_get_delete_eq in Hget. }
    rewrite JsMap_get_delete_ne in Hget by done.
    destruct (Hsound _ _ Hget) as [Hk (node & Hn & Hkind)].
    split; [done|]. exists node. by rewrite Hframe.
  - intros key' node Hk Hn. rewrite Hkeys. destruct (decide (key = key')) as [<-|Hne].
    { right. apply elem_of_app. right. by apply list_elem_of_singleton. }
    rewrite Hframe in Hn by done.
    destruct (Hcover _ _ Hk Hn) as [?|?].
    + left. by rewrite JsMap_get_delete_ne.
    + right. apply elem_of_app. by left.
  - apply Forall_app. split.
    + rewrite Forall_forall in Hlinked, Hwfs. apply Forall_forall. intros entry Hin.
      destruct (Hlinked _ Hin) as (src' & El' & Hl'). exists src'. split; [done|].
      rewrite Hframe; [done|by apply dependencyKey_entryKey, Hwfs|].
      intros Heq. apply Hfresh, elem_of_dependencyKeys.
      exists entry. by split.
    + constructor; [|done]. by exists src.
  - intros key'. rewrite Hkeys, elem_of_app, list_elem_of_singleton.
    intros [Hin| ->]; [|apply JsMap_get_delete_eq].
    destruct (decide (key = key')) as [<-|Hne]; [apply JsMap_get_delete_eq|].
    rewrite JsMap_get_delete_ne by done. by apply Hgone.
  - rewrite Hkeys. apply NoDup_app. split; [done|]. split.
    + intros key' Hin ->%list_elem_of_singleton. done.
    + apply NoDup_singleton.
  - apply Forall_app. split; [done|]. by constructor.
  - intros n Hn. by rewrite Hdot1, Hdots.
Qed.

Lemma linkDependencies_post (dependencies seen : list (Descriptor * Locator))
    (fs fs' : xfs.Node) (ch0 ch : gmap string xfs.Node) (ext ext' : JsMap.t xfs.Dirent) :
  xfs.lookupNode fs nmPath = Some (xfs.Directory ch) →
  reconciling this nmPath ch0 ch ext seen →
  Forall (λ entry : Descriptor * Locator, wfIdent entry.1) dependencies →
  linkDependencies this nmPath dependencies ext fs = (fs', Ok ext') →
  ∃ ch', xfs.lookupNode fs' nmPath = Some (xfs.Directory ch')
         ∧ reconciling this nmPath ch0 ch' ext' (seen ++ dependencies).
Proof using Hnm.
  revert seen fs ch ext.
  induction dependencies as [|[descriptor dependency] rest IH];
    intros seen fs ch ext Hch Hinv Hwf.
  - intros [= <- <-]. exists ch. by rewrite app_nil_r.
  - rewrite linkDependencies_cons. inversion Hwf as [|? ? Hwf1 Hwfr]; subst.
    destruct (linkDependency this nmPath ext (descriptor, dependency) fs)
      as [fs1 [ext1|e]] eqn:E; [|done].
    pose proof Hinv as (Hsc & Hsound & _).
    destruct (linkDependency_post this nmPath Hnm fs fs1 ch ext ext1 descriptor dependency
                Hch Hsc Hwf1) as (src & ch1 & El & -> & Hch1 & Hup & Hnone); [|done|].
    { intros d Hd. by destruct (Hsound _ _ Hd) as [_ ?]. }
    intros Hrest.
    destruct (IH (seen ++ [(descriptor, dependency)]) fs1 ch1 _ Hch1
                (reconciling_turn _ _ _ _ _ _ _ _ Hinv Hwf1 El Hup Hnone) Hwfr Hrest)
      as (ch' & Hch' & Hinv').
    exists ch'. split; [done|]. by rewrite <- app_assoc in Hinv'.
Qed.

(** ** The removal of what is left *)

Lemma removeExtraneous_post (names : list (list string)) (fs : xfs.Node)
    (ch : gmap string xfs.Node) :
  xfs.lookupNode fs nmPath = Some (xfs.Directory ch) →
  scopesAreDirectories ch →
  Forall (λ key, entryKey key = true) names →
  ∃ fs' ch',
    removeExtraneous nmPath names fs = (fs', Ok tt)
    ∧ xfs.lookupNode fs' nmPath = Some (xfs.Directory ch')
    ∧ scopesAreDirectories ch'
    ∧ (∀ key, key ∈ names → entryAt ch' key = None)
    ∧ (∀ key, entryKey key = true → key ∉ names → entryAt ch' key = entryAt ch key)
    ∧ (∀ n, startsWith n "." = true → ch' !! n = ch !! n).
Proof using Hnm.
  intros Hch Hsc Hnames. revert fs ch Hch Hsc.
  induction Hnames as [|key rest Hkey _ IH]; intros fs ch Hch Hsc.
  - exists fs, ch. split; [done|]. split; [done|]. split; [done|].
    split; [by intros key ?%elem_of_nil|done].
  - destruct (removePromise_key fs nmPath ch Hnm Hch Hsc key Hkey)
      as (fs1 & ch1 & Hrm & Hch1 & (Hat & Hframe & Hdot1 & Hsc1)).
    destruct (IH fs1 ch1 Hch1 Hsc1) as (fs' & ch' & E & Hch' & Hsc' & Hgone & Hkeep & Hdots).
    exists fs', ch'. split; [|split; [done|split; [done|split; [|split]]]].
    + simpl. by rewrite xfsWrite_bind, Hrm.
    + intros key' [->|Hin]%elem_of_cons; [|by apply Hgone].
      destruct (decide (key ∈ rest)) as [Hin|Hout]; [by apply Hgone|].
      by rewrite Hkeep.
    + intros key' Hk Hout. apply not_elem_of_cons in Hout as [Hne Hout].
      by rewrite Hkeep, Hframe.
    + intros n Hn. by rewrite Hdots, Hdot1.
Qed.

End Loop.

(** ** The whole reconciliation *)

Lemma JsMap_all_none {V} (m : JsMap.t V) :
  (∀ key, JsMap.get key m = None) → m = [].
Proof.
  destruct m as [|[k v] m]; [done|]. intros Hnone. specialize (Hnone k).
  simpl in Hnone. by rewrite decide_True in Hnone.
Qed.

Lemma mkdirpPromise_dependent (fs fs1 : xfs.Node) (pkgPath : list string) :
  plainDependent fs pkgPath →
  xfs.mkdirpPromise (ppath.join pkgPath [nodeModules]) fs = Ok fs1 →
  ∃ ch1,
    xfs.lookupNode fs1 (pkgPath ++ [nodeModules]) = Some (xfs.Directory ch1)
    ∧ scopesAreDirectories ch1
    ∧ match xfs.lookupNode fs (pkgPath ++ [nodeModules]) with
      | Some n => n = xfs.Directory ch1 ∧ fs1 = fs
      | None => ch1 = ∅
      end.
Proof.
  intros [Hp (pch & Hpch & Hnm)]. rewrite join_plain by by constructor.
  rewrite (mkdirpPromise_child fs pkgPath pch nodeModules Hp eq_refl Hpch).
  2:{ intros t Et. by rewrite Et in Hnm. }
  rewrite (lookupNode_snoc fs), Hpch.
  destruct (pch !! nodeModules) as [[| |nch]|] eqn:Enm; try done.
  - intros [= <-]. exists nch. by rewrite lookupNode_snoc, Hpch, Enm.
  - intros [= <-]. exists ∅. split; [|split; [|done]].
    + by rewrite lookupNode_snoc, (lookupNode_updateDir _ _ _ _ Hpch), lookup_insert_eq.
    + intros s c _ Hc. by rewrite lookup_empty in Hc.
Qed.

Section Reconcile.

Context {su : structUtils.Impl}.
Variables (this : PnpmInstaller) (pkgPath : list string).

Lemma reconcile_post (dependencies : list (Descriptor * Locator)) (fs fs' : xfs.Node) :
  plainDependent fs pkgPath →
  Forall (λ entry : Descriptor * Locator, wfIdent entry.1) dependencies →
  reconcile this pkgPath dependencies fs = (fs', Ok tt) →
  ∃ ch1 ch',
    match xfs.lookupNode fs (pkgPath ++ [nodeModules]) with
    | Some n => n = xfs.Directory ch1
    | None => ch1 = ∅
    end
    ∧ xfs.lookupNode fs' (pkgPath ++ [nodeModules]) = Some (xfs.Directory ch')
    ∧ scopesAreDirectories ch'
    ∧ (∀ key node, entryKey key = true → entryAt ch' key = Some node →
         key ∈ dependencyKey <$> dependencies.*1)
    ∧ Forall (linked this (pkgPath ++ [nodeModules]) ch') dependencies
    ∧ NoDup (dependencyKey <$> dependencies.*1)
    ∧ (∀ n, startsWith n "." = true → ch' !! n = ch1 !! n).
Proof.
  intros Hdep Hwf. pose proof Hdep as [Hp _].
  assert (plainPath (pkgPath ++ [nodeModules])) as Hnm by by apply plainPath_snoc.
  unfold reconcile. plain_disk. unfold xfsRead. rewrite xfsWrite_bind.
  destruct (xfs.mkdirpPromise _ fs) as [fs1|e] eqn:Emk; [|done].
  destruct (mkdirpPromise_dependent _ _ _ Hdep Emk) as (ch1 & Hch1 & Hsc1 & Horig).
  rewrite join_plain by by constructor.
  unfold mbind at 1. unfold StateErr_bind at 1.
  destruct (listExtraneous_disk fs1 _ ch1 Hnm Hch1 Hsc1) as (ext & -> & Hsound & Hcomplete).
  unfold mbind, StateErr_bind.
  destruct (linkDependencies this _ dependencies ext fs1) as [fs2 [ext2|e]] eqn:Elink; [|done].
  destruct (linkDependencies_post this _ Hnm dependencies [] fs1 fs2 ch1 ch1 ext ext2
              Hch1) as (ch2 & Hch2 & Hinv); [|done|done|].
  { split; [done|]. split; [done|]. split; [by left; eapply Hcomplete|].
    split; [done|]. split; [by intros key ?%elem_of_nil|].
    split; [constructor|]. by split. }
  simpl in Hinv.
  destruct Hinv as (Hsc2 & Hsound2 & Hcover2 & Hlinked2 & Hgone2 & Hnodup2 & _ & Hdots2).
  destruct (removeExtraneous_post _ Hnm (JsMap.keys ext2) fs2 ch2 Hch2 Hsc2)
    as (fs3 & ch3 & -> & Hch3 & Hsc3 & Hgone3 & Hkeep3 & Hdots3).
  { apply Forall_forall. intros key [d Hd]%JsMap_elem_of_keys.
    by destruct (Hsound2 _ _ Hd). }
  intros [= <-]. exists ch1, ch3.
  split; [by destruct (xfs.lookupNode fs _); [destruct Horig|]|].
  split; [done|]. split; [done|]. split; [|split; [|split; [done|]]].
  - intros key node Hk Hn. destruct (decide (key ∈ JsMap.keys ext2)) as [Hin|Hout].
    { by rewrite Hgone3 in Hn. }
    rewrite Hkeep3 in Hn by done.
    destruct (Hcover2 _ _ Hk Hn) as [Hsome|?]; [|done].
    by apply JsMap_elem_of_keys in Hsome.
  - rewrite Forall_forall in Hlinked2, Hwf. apply Forall_forall. intros entry Hin.
    destruct (Hlinked2 _ Hin) as (src & El & Hl). exists src. split; [done|].
    rewrite Hkeep3; [done|by apply dependencyKey_entryKey, Hwf|].
    intros [d Hd]%JsMap_elem_of_keys.
    rewrite Hgone2 in Hd; [done|].
    apply elem_of_dependencyKeys. eauto.
  - intros n Hn. by rewrite Hdots3, Hdots2.
Qed.

End Reconcile.

(** ** A second reconciliation *)

Section Again.

Context {su : structUtils.Impl}.
Variables (this : PnpmInstaller) (nmPath : list string).
Hypothesis Hnm : plainPath nmPath.

(** A dependency whose link is there and was listed as a link is left
    alone. *)
Lemma linkDependency_skip (fs : xfs.Node) (ch : gmap string xfs.Node)
    (ext : JsMap.t xfs.Dirent) (entry : Descriptor * Locator) (d : xfs.Dirent) :
  xfs.lookupNode fs nmPath = Some (xfs.Directory ch) →
  scopesAreDirectories ch →
  wfIdent entry.1 →
  linked this nmPath ch entry →
  JsMap.get (dependencyKey entry.1) ext = Some d →
  xfs.kind d = xfs.KSymlink →
  linkDependency this nmPath ext entry fs
  = (fs, Ok (JsMap.delete (dependencyKey entry.1) ext)).
Proof using Hnm.
  destruct entry as [descriptor dependency]. simpl.
  intros Hch Hsc Hwf (src & El & Hl) Hget Hkind.
  destruct (dependencyKey_entryKey _ Hwf) as [Hkey _].
  unfold linkDependency. simpl in El, Hl. rewrite El. cbv zeta.
  change (toPortablePath (structUtils.stringifyIdent descriptor))
    with (dependencyKey descriptor).
  rewrite Hget. unfold xfs.isSymbolicLink. rewrite Hkind, bool_decide_eq_true_2 by done.
  rewrite xfsRead_bind, (readlinkPromise_key fs nmPath ch Hnm Hch Hsc _ Hkey), Hl.
  unfold desiredTarget. by rewrite bool_decide_eq_true_2.
Qed.

Lemma linkDependencies_noop (dependencies : list (Descriptor * Locator))
    (fs : xfs.Node) (ch : gmap string xfs.Node) (ext : JsMap.t xfs.Dirent) :
  xfs.lookupNode fs nmPath = Some (xfs.Directory ch) →
  scopesAreDirectories ch →
  Forall (λ entry : Descriptor * Locator, wfIdent entry.1) dependencies →
  Forall (linked this nmPath ch) dependencies →
  NoDup (dependencyKey <$> dependencies.*1) →
  (∀ key, key ∈ dependencyKey <$> dependencies.*1 →
          ∃ d, JsMap.get key ext = Some d ∧ xfs.kind d = xfs.KSymlink) →
  ∃ ext',
    linkDependencies this nmPath dependencies ext fs = (fs, Ok ext')
    ∧ ∀ key, JsMap.get key ext'
             = if decide (key ∈ dependencyKey <$> dependencies.*1) then None
               else JsMap.get key ext.
Proof using Hnm.
  intros Hch Hsc Hwf Hlinked. revert ext.
  induction dependencies as [|entry rest IH]; intros ext Hnodup Hlisted.
  - exists ext. split; [done|]. intros key. rewrite decide_False; [done|].
    by intros ?%elem_of_nil.
  - inversion Hwf as [|? ? Hwf1 Hwfr]; subst.
    inversion Hlinked as [|? ? Hl1 Hlr]; subst.
    simpl in Hnodup. apply NoDup_cons in Hnodup as [Hfresh Hnodup].
    destruct (Hlisted (dependencyKey entry.1)) as (d & Hget & Hkind); [by left|].
    rewrite linkDependencies_cons,
      (linkDependency_skip fs ch ext entry d Hch Hsc Hwf1 Hl1 Hget Hkind).
    destruct (IH Hwfr Hlr (JsMap.delete (dependencyKey entry.1) ext) Hnodup)
      as (ext' & -> & Hext').
    { intros key Hin. rewrite JsMap_get_delete_ne; [apply Hlisted; by right|].
      by intros <-. }
    exists ext'. split; [done|]. intros key. rewrite Hext'. simpl.
    destruct (decide (key ∈ dependencyKey <$> rest.*1)) as [Hin|Hout].
    + rewrite decide_True; [done|by right].
    + destruct (decide (dependencyKey entry.1 = key)) as [<-|Hne].
      * rewrite JsMap_get_delete_eq, decide_True; [done|by left].
      * rewrite JsMap_get_delete_ne, decide_False; [done| |done].
        intros [?|?]%elem_of_cons; done.
Qed.

End Again.

Section ReconcileAgain.

Context {su : structUtils.Impl}.
Variables (this : PnpmInstaller) (pkgPath : list string).

(** Reconciling once more the directory a reconciliation left changes
    nothing on the disk. *)
Lemma reconcile_again (dependencies : list (Descriptor * Locator)) (fs fs' : xfs.Node) :
  plainDependent fs pkgPath →
  Forall (λ entry : Descriptor * Locator, wfIdent entry.1) dependencies →
  reconcile this pkgPath dependencies fs = (fs', Ok tt) →
  reconcile this pkgPath dependencies fs' = (fs', Ok tt).
Proof.
  intros Hdep Hwf E. pose proof Hdep as [Hp _].
  assert (plainPath (pkgPath ++ [nodeModules])) as Hnm by by apply plainPath_snoc.
  destruct (reconcile_post this pkgPath dependencies fs fs' Hdep Hwf E)
    as (ch1 & ch' & _ & Hch' & Hsc' & Hexact & Hlinked & Hnodup & _).
  unfold reconcile. plain_disk. unfold xfsRead.
  rewrite xfsWrite_bind, join_plain by by constructor.
  rewrite (mkdirpPromise_existing fs' (xfs.Directory ch')) by done.
  unfold mbind at 1. unfold StateErr_bind at 1.
  destruct (listExtraneous_disk fs' _ ch' Hnm Hch' Hsc') as (ext & -> & Hsound & Hcomplete).
  unfold mbind, StateErr_bind.
  destruct (linkDependencies_noop this _ Hnm dependencies fs' ch' ext Hch' Hsc' Hwf
              Hlinked Hnodup) as (ext' & -> & Hext').
  { intros key (entry & Hin & ->)%elem_of_dependencyKeys.
    rewrite Forall_forall in Hlinked, Hwf.
    destruct (Hlinked _ Hin) as (src & _ & Hl).
    destruct (Hcomplete _ _ (proj1 (dependencyKey_entryKey _ (Hwf _ Hin))) Hl) as [d Hd].
    exists d. split; [done|].
    destruct (Hsound _ _ Hd) as [_ (node & Hn & ->)].
    rewrite Hl in Hn. by injection Hn as <-. }
  rewrite (JsMap_all_none ext'); [done|].
  intros key. rewrite Hext'. case_decide as Hin; [done|].
  destruct (JsMap.get key ext) as [d|] eqn:Hd; [|done].
  destruct (Hsound _ _ Hd) as [Hk (node & Hn & _)].
  destruct Hin. by eapply Hexact.
Qed.

End ReconcileAgain.

(** ** Copies *)

Lemma nodeSize_child (ch : gmap string xfs.Node) (k : string) (c : xfs.Node) :
  ch !! k = Some c → nodeSize c < nodeSize (xfs.Directory ch).
Proof.
  intros Hc. rewrite <- (insert_delete_id ch k c Hc). simpl.
  rewrite map_fold_insert_L.
  - lia.
  - intros. lia.
  - apply lookup_delete_eq.
Qed.

(** Induction on the tree: a property holds of every node when it holds of
    a node as soon as it holds of the entries the node has. *)
Lemma Node_children_ind (P : xfs.Node → Prop) :
  (∀ n, (∀ ch k c, n = xfs.Directory ch → ch !! k = Some c → P c) → P n) →
  ∀ n, P n.
Proof.
  intros Hstep n. remember (nodeSize n) as m eqn:Hm. revert n Hm.
  induction m as [m IH] using lt_wf_ind. intros n ->.
  apply Hstep. intros ch k c -> Hc. by apply (IH _ (nodeSize_child _ _ _ Hc)).
Qed.

Lemma copyNode_directory (overwrite : bool) (sch : gmap string xfs.Node)
    (dst : option xfs.Node) :
  xfs.copyNode overwrite (xfs.Directory sch) dst
  = match dst with
    | None => xfs.Directory (merge (copyEntry overwrite) sch ∅)
    | Some (xfs.Directory dch) => xfs.Directory (merge (copyEntry overwrite) sch dch)
    | Some d => if overwrite then xfs.Directory (merge (copyEntry overwrite) sch ∅) else d
    end.
Proof. reflexivity. Qed.

Lemma copyNode_leaf (overwrite : bool) (src : xfs.Node) (dst : option xfs.Node) :
  isLeaf src →
  xfs.copyNode overwrite src dst
  = match dst with
    | None => src
    | Some d => if overwrite then src else d
    end.
Proof. by destruct src. Qed.


Lemma lookup_copyEntry (overwrite : bool) (sch dch : gmap string xfs.Node) (k : string) :
  merge (copyEntry overwrite) sch dch !! k = copyEntry overwrite (sch !! k) (dch !! k).
Proof. rewrite lookup_merge. by destruct (sch !! k), (dch !! k). Qed.



(** ** What the calls keep *)









(** ** The keys of a listing are distinct *)





(** ** Checks by evaluation *)

Lemma scopesAreDirectories_check (ch : gmap string xfs.Node) :
  scopesAreDirectoriesb ch = true → scopesAreDirectories ch.
Proof.
  unfold scopesAreDirectoriesb. rewrite forallb_forall.
  intros Hall s c Hs Hc.
  specialize (Hall (s, c)). simpl in Hall. rewrite Hs in Hall. simpl in Hall.
  eapply bool_decide_eq_true_1, Hall, list_elem_of_In. by apply elem_of_map_to_list.
Qed.

Lemma plainDependent_check (fs : xfs.Node) (pkgPath : list string) :
  plainDependentb fs pkgPath = true → plainDependent fs pkgPath.
Proof.
  unfold plainDependentb. intros [Hp Hd]%andb_true_iff. split.
  - apply Forall_forall. intros s Hs. rewrite forallb_forall in Hp.
    by apply Hp, list_elem_of_In.
  - destruct (xfs.lookupNode fs pkgPath) as [[| |pch]|]; try done.
    exists pch. split; [done|].
    destruct (pch !! nodeModules) as [[| |nch]|]; try done.
    by apply scopesAreDirectories_check.
Qed.

(** ** The dependency directory of a dependent reached through links *)





Section KeyCallsAt.

Variables (fs : xfs.Node) (nmPath d : list string) (ch : gmap string xfs.Node).
Hypothesis Hdir : dirAt fs nmPath d ch.
Hypothesis Hsc : scopesAreDirectories ch.





End KeyCallsAt.

(** ** One turn of the loop, through links *)

Section TurnAt.

Context {su : structUtils.Impl}.
Variables (this : PnpmInstaller) (nmPath d : list string).


Lemma mret_state {A} (a : A) (fs0 : xfs.Node) : ((mret a : StateErr xfs.Node A) fs0).1 = fs0.
Proof. reflexivity. Qed.



End TurnAt.

(** ** The loop and the removal, through links *)

Section LoopAt.

Context {su : structUtils.Impl}.
Variables (this : PnpmInstaller) (nmPath d : list string).




End LoopAt.

(** ** The whole reconciliation, through links *)


Lemma reconciling_start {su : structUtils.Impl} (this : PnpmInstaller) (nmPath : list string)
    (ch : gmap string xfs.Node) (ext : JsMap.t xfs.Dirent) :
  scopesAreDirectories ch →
  (∀ key x, JsMap.get key ext = Some x →
     entryKey key = true
     ∧ ∃ node, entryAt ch key = Some node ∧ xfs.kind x = xfs.kindOf node) →
  (∀ key node, entryKey key = true → entryAt ch key = Some node →
     is_Some (JsMap.get key ext)) →
  reconciling this nmPath ch ch ext [].
Proof.
  intros Hsc Hsound Hcomplete.
  split; [done|]. split; [done|]. split; [by left; eapply Hcomplete|].
  split; [done|]. split; [by intros key ?%elem_of_nil|].
  split; [constructor|]. by split.
Qed.

Section ReconcileAt.

Context {su : structUtils.Impl}.
Variables (this : PnpmInstaller) (pkgPath : list string).



End ReconcileAt.

(** The check of the condition is sound. *)
Lemma reconcilable_check (fs : xfs.Node) (pkgPath : list string) :
  reconcilableb fs pkgPath = true → reconcilable fs pkgPath.
Proof.
  unfold reconcilableb, reconcilable.
  destruct (xfs.resolveDir fs (pkgPath ++ [nodeModules])) as [[d ch]|e] eqn:E.
  - intros [Hway Hsc]%andb_true_iff. left. exists d, ch. split.
    + split; [done|]. by apply bool_decide_eq_true in Hway.
    + by apply scopesAreDirectories_check.
  - intros (i & _ & Hi)%existsb_exists. right.
    destruct (xfs.resolveDir fs (take i _)) as [[q pch]|] eqn:Eb; [|done].
    destruct (drop i _) as [|a rest] eqn:Ed; [done|].
    apply andb_true_iff in Hi as [Hnone Hplain].
    exists (take i (pkgPath ++ [nodeModules])), q, pch, a, rest.
    split; [by rewrite <- Ed, take_drop|]. split; [done|].
    split; [by apply bool_decide_eq_true in Hnone|].
    apply Forall_forall. intros s Hs. rewrite forallb_forall in Hplain.
    by apply Hplain, list_elem_of_In.
Qed.

(** The check is complete as well. *)
Lemma scopesAreDirectories_complete (ch : gmap string xfs.Node) :
  scopesAreDirectories ch → scopesAreDirectoriesb ch = true.
Proof.
  intros Hsc. unfold scopesAreDirectoriesb. apply forallb_forall.
  intros [s c] Hin%list_elem_of_In%elem_of_map_to_list. cbn [fst snd].
  destruct (startsWith s "@") eqn:Hs; [|done]. cbn [negb orb].
  apply bool_decide_eq_true. by eapply Hsc.
Qed.

Lemma reconcilable_complete (fs : xfs.Node) (pkgPath : list string) :
  reconcilable fs pkgPath → reconcilableb fs pkgPath = true.
Proof.
  unfold reconcilableb.
  intros [(d & ch & [Hres Hway] & Hsc)|(base & q & pch & a & rest & Hp & Hres & Hnone & Hplain)].
  - rewrite Hres. apply andb_true_iff. split.
    + by apply bool_decide_eq_true.
    + by apply scopesAreDirectories_complete.
  - inversion Hplain as [|? ? Ha _]; subst.
    rewrite Hp, (resolveDir_below_absent fs base q pch Hres a rest Ha Hnone).
    apply existsb_exists. exists (length base). split.
    + apply in_seq. rewrite length_app. cbn [length]. lia.
    + rewrite take_app_length, drop_app_length, Hres.
      apply andb_true_iff. split; [by apply bool_decide_eq_true|].
      apply forallb_forall. intros s Hs%list_elem_of_In.
      rewrite Forall_forall in Hplain. by apply Hplain.
Qed.

Lemma not_reconcilable (fs : xfs.Node) (pkgPath : list string) :
  reconcilableb fs pkgPath = false → ¬ reconcilable fs pkgPath.
Proof. intros E H%reconcilable_complete. by rewrite E in H. Qed.

(** ** The journal of the writing calls *)



(** *** The journal changes nothing to what is done *)






Section Erasure.

Context {su : structUtils.Impl}.





End Erasure.

(** ** A second reconciliation *)

Section AgainAt.

Context {su : structUtils.Impl}.
Variables (this : PnpmInstaller) (nmPath d : list string).



End AgainAt.

Section ReconcileAgainAt.

Context {su : structUtils.Impl}.
Variables (this : PnpmInstaller) (pkgPath : list string).


End ReconcileAgainAt.

(** ** What is removed *)






Lemma journaled_modify_journal (op : xfs.Op) (s s' : Journaled) (r : Result unit) :
  modify op s = (s', r) → journal s' = journal s ++ [op].
Proof.
  cbn [modify journaledDisk]. destruct (xfs.apply op (tree s)); by intros [= <- _].
Qed.


Section Removals.

Context {su : structUtils.Impl}.
Variables (this : PnpmInstaller) (nmPath : list string).




End Removals.

Section ReconcileRemovals.

Context {su : structUtils.Impl}.


End ReconcileRemovals.

(** ** C1 *)

(** A link that was written is read back, whatever links its path goes
    through. *)
Lemma symlinkPromise_readlink (t p : list string) (fs fs' : xfs.Node) :
  xfs.symlinkPromise t p fs = Ok fs' → xfs.readlinkPromise p fs' = Ok t.
Proof.
  unfold xfs.symlinkPromise, xfs.readlinkPromise, xfs.lstatPromise.
  destruct t as [|t0 t]; [done|].
  destruct (xfs.splitLast p) as [[d0 s]|]; [|done].
  unfold mbind at 1. unfold Result_bind at 1.
  destruct (xfs.resolveDir fs d0) as [[q ch]|] eqn:Hres; [|done].
  destruct (ch !! s) eqn:Es; [done|]. intros [= <-].
  pose proof (resolveDir_lookup _ _ _ _ Hres) as Hq.
  assert (xfs.resolveDir (xfs.updateDir fs q (insert s (xfs.Symlink (t0 :: t)))) d0
          = Ok (q, <[s := xfs.Symlink (t0 :: t)]> ch)) as ->.
  { apply resolveDir_intro; [|by apply lookupNode_updateDir].
    eapply realpath_grows; [|by eapply resolveDir_realpath].
    rewrite <- (updateDir_id fs q ch id Hq eq_refl) at 1.
    apply (updateDir_grows _ _ ch); [done|]. intros k n Hk. exists n.
    split; [|apply grows_refl]. rewrite lookup_insert_ne; [done|].
    intros <-. unfold id in Hk. by rewrite Es in Hk. }
  simpl. by rewrite lookup_insert_eq.
Qed.

Section ClaimOne.

Context {su : structUtils.Impl}.

(** C1, as amended. The locator whose registered path the link of a
    dependency is made from is the devirtualized locator when the
    dependency is virtual and corresponds to a workspace, and the
    dependency itself in every other case: when it is virtual and no
    workspace, and when it is not virtual. In a turn of the loop over the
    dependencies that ends well, the entry of the dependency is, when the
    turn is over, a link whose target is the path registered for that
    locator, relative to the directory that holds the link; when nothing is
    registered for that locator the turn raises the assertion error and
    writes nothing. *)
Theorem dependencies_are_linked_to_their_target :
  ∀ (this : PnpmInstaller) (dependency : Locator) (nmPath : list string)
    (extraneous : JsMap.t xfs.Dirent) (descriptor : Descriptor) (fs : xfs.Node),
    let target :=
      if structUtils.isVirtualLocator dependency
      then if isWorkspace this dependency
           then structUtils.devirtualizeLocator dependency
           else dependency
      else dependency in
    let depDstPath :=
      ppath.join nmPath (toPortablePath (structUtils.stringifyIdent descriptor)) in
    targetDependency this dependency = target
    ∧ (∀ (depSrcPath : list string) (fs' : xfs.Node) (extraneous' : JsMap.t xfs.Dirent),
         locations this !! locatorHash target = Some depSrcPath →
         linkDependency this nmPath extraneous (descriptor, dependency) fs
         = (fs', Ok extraneous') →
         xfs.readlinkPromise depDstPath fs'
         = Ok (ppath.relative (ppath.dirname depDstPath) depSrcPath))
    ∧ (locations this !! locatorHash target = None →
       linkDependency this nmPath extraneous (descriptor, dependency) fs
       = (fs, Err (registrationError (structUtils.stringifyLocator dependency)))).
Proof.
  intros this dependency nmPath extraneous descriptor fs target depDstPath.
  pose proof (targetDependency_eq this dependency) as Htarget. fold target in Htarget.
  split; [done|]. split.
  - intros depSrcPath fs' extraneous' Hsrc.
    unfold linkDependency. plain_disk. rewrite Htarget, Hsrc. cbv zeta.
    fold depDstPath.
    set (t := ppath.relative (ppath.dirname depDstPath) depSrcPath).
    assert (∀ fs0 (ext : JsMap.t xfs.Dirent),
              (xfsWrite (xfs.mkdirpPromise (ppath.dirname depDstPath));;
               xfsWrite (xfs.symlinkPromise t depDstPath);;
               mret ext) fs0 = (fs', Ok extraneous') →
              xfs.readlinkPromise depDstPath fs' = Ok t) as Hcreate.
    { intros fs0 ext. rewrite xfsWrite_bind.
      destruct (xfs.mkdirpPromise _ fs0) as [fs1|]; [|done]. rewrite xfsWrite_bind.
      destruct (xfs.symlinkPromise t depDstPath fs1) as [fs2|] eqn:Elink; [|done].
      intros [= <- _]. by eapply symlinkPromise_readlink. }
    assert (∀ (k : StateErr xfs.Node (JsMap.t xfs.Dirent)),
              (∀ fs0, k fs0 = (fs', Ok extraneous') →
                      xfs.readlinkPromise depDstPath fs' = Ok t) →
              (xfsWrite (xfs.removePromise depDstPath);; k) fs = (fs', Ok extraneous') →
              xfs.readlinkPromise depDstPath fs' = Ok t) as Hreplace.
    { intros k Hk. rewrite xfsWrite_bind.
      destruct (xfs.removePromise depDstPath fs) as [fs1|]; [apply Hk|done]. }
    destruct (JsMap.get _ extraneous) as [existing|]; [|apply Hcreate].
    destruct (xfs.isSymbolicLink existing).
    + rewrite xfsRead_bind.
      destruct (xfs.readlinkPromise depDstPath fs) as [current|] eqn:Ecur; [|done].
      case_bool_decide as Eq.
      * intros [= <- _]. by rewrite Ecur, Eq.
      * apply Hreplace. intros fs0. apply Hcreate.
    + apply Hreplace. intros fs0. apply Hcreate.
  - intros Hnone. apply linkDependency_unregistered. by rewrite Htarget.
Qed.

End ClaimOne.

(** ** C7 *)


Section ClaimSeven.

Context {su : structUtils.Impl}.


End ClaimSeven.

(** ** C3, C5 and C8 *)

Section Reconciled.

Context {su : structUtils.Impl}.





End Reconciled.

(** ** Instances on the sample project *)

(** Closes a conjunction of closed equations and inequations by evaluating
    each side. *)
Ltac by_evaluation :=
  repeat apply conj; vm_compute;
  solve [ reflexivity | discriminate | congruence ].

(** C1, as stated, fails: [left-pad] in a virtual instance is no workspace,
    yet the path its link is given is the one registered for the virtual
    locator itself, not the one registered for the locator it wraps. *)
Lemma virtual_dependency_keeps_its_own_path :
  @structUtils.isVirtualLocator Sample.impl Sample.leftPadVirtual = true
  ∧ tryWorkspaceByLocator Sample.sampleProject Sample.leftPadVirtual = None
  ∧ locations (this Sample.machine1)
      !! locatorHash (@targetDependency Sample.impl (this Sample.machine1) Sample.leftPadVirtual)
    = Some Sample.leftPadVirtualSlot
  ∧ locations (this Sample.machine1)
      !! locatorHash (@structUtils.devirtualizeLocator Sample.impl Sample.leftPadVirtual)
    = Some ["proj"; "node_modules"; ".store"; "left-pad-npm-1.0.0"]
  ∧ locations (this Sample.machine1)
      !! locatorHash (@targetDependency Sample.impl (this Sample.machine1) Sample.leftPadVirtual)
    ≠ locations (this Sample.machine1)
      !! locatorHash (@structUtils.devirtualizeLocator Sample.impl Sample.leftPadVirtual).
Proof. by_evaluation. Qed.

Lemma dependencies_are_linked_to_their_target_witness :
  locations (this Sample.machine2) !! locatorHash Sample.appLocator
  = Some ["proj"; "packages"; "app"]
  ∧ @linkDependency Sample.impl xfs.Node plainDisk (this Sample.machine2)
      ["proj"; "node_modules"] JsMap.empty
      (mkDescriptor Sample.app "workspace:*", Sample.appVirtual) (disk Sample.machine2)
    = ((@linkDependency Sample.impl xfs.Node plainDisk (this Sample.machine2)
          ["proj"; "node_modules"] JsMap.empty
          (mkDescriptor Sample.app "workspace:*", Sample.appVirtual) (disk Sample.machine2)).1,
       Ok JsMap.empty)
  ∧ xfs.readlinkPromise ["proj"; "node_modules"; "@my"; "app"]
      (@linkDependency Sample.impl xfs.Node plainDisk (this Sample.machine2)
         ["proj"; "node_modules"] JsMap.empty
         (mkDescriptor Sample.app "workspace:*", Sample.appVirtual) (disk Sample.machine2)).1
    = Ok [".."; ".."; "packages"; "app"].
Proof.
  assert (locations (this Sample.machine2) !! locatorHash Sample.appLocator
          = Some ["proj"; "packages"; "app"]) as Hsrc by (vm_compute; reflexivity).
  assert (@linkDependency Sample.impl xfs.Node plainDisk (this Sample.machine2)
            ["proj"; "node_modules"] JsMap.empty
            (mkDescriptor Sample.app "workspace:*", Sample.appVirtual) (disk Sample.machine2)
          = ((@linkDependency Sample.impl xfs.Node plainDisk (this Sample.machine2)
                ["proj"; "node_modules"] JsMap.empty
                (mkDescriptor Sample.app "workspace:*", Sample.appVirtual)
                (disk Sample.machine2)).1,
             Ok JsMap.empty)) as Hrun by (vm_compute; reflexivity).
  split; [exact Hsrc|]. split; [exact Hrun|].
  destruct (@dependencies_are_linked_to_their_target Sample.impl (this Sample.machine2)
              Sample.appVirtual ["proj"; "node_modules"] JsMap.empty
              (mkDescriptor Sample.app "workspace:*") (disk Sample.machine2))
    as (_ & Hlink & _).
  exact (Hlink _ _ _ Hsrc Hrun).
Defined.

(** C2, as stated, fails in both directions. The virtual instance of
    [left-pad] devirtualizes to a locator that is no workspace, and the call
    reconciles it: its dependency directory, absent after the wait, is there
    after the call. The virtual instance of the workspace [@my/app] is
    skipped: the call ends well although nothing is registered for the
    dependency it is given, and the disk is as the wait left it. *)
Lemma virtual_dependents_the_other_way_round :
  (@structUtils.isVirtualLocator Sample.impl Sample.leftPadVirtual = true
   ∧ tryWorkspaceByLocator Sample.sampleProject
       (@structUtils.devirtualizeLocator Sample.impl Sample.leftPadVirtual) = None
   ∧ xfs.lookupNode (disk Sample.machine2) (Sample.leftPadVirtualSlot ++ [nodeModules]) = None
   ∧ (@attachInternalDependencies Sample.impl Sample.leftPadVirtual [] Sample.machine1).2 = Ok tt
   ∧ xfs.lookupNode
       (disk (@attachInternalDependencies Sample.impl Sample.leftPadVirtual [] Sample.machine1).1)
       (Sample.leftPadVirtualSlot ++ [nodeModules])
     = Some (xfs.Directory ∅))
  ∧ (@structUtils.isVirtualLocator Sample.impl Sample.appVirtual = true
     ∧ truthy (tryWorkspaceByLocator Sample.sampleProject
                 (@structUtils.devirtualizeLocator Sample.impl Sample.appVirtual)) = true
     ∧ @attachInternalDependencies Sample.impl Sample.appVirtual
         [(mkDescriptor Sample.leftPad "^2.0.0", Sample.makeLocator Sample.leftPad "npm:2.0.0")]
         Sample.machine1
       = (Sample.machine2, Ok tt)).
Proof. by_evaluation. Qed.

Lemma attachInternalDependencies_skips_virtual_workspaces_witness :
  awaitPendingCopies Sample.machine1 = (Sample.machine2, Ok tt)
  ∧ @attachInternalDependencies Sample.impl Sample.appVirtual Sample.rootDependencies
      Sample.machine1
    = (Sample.machine2, Ok tt).
Proof.
  assert (awaitPendingCopies Sample.machine1 = (Sample.machine2, Ok tt)) as E
    by (vm_compute; reflexivity).
  split; [exact E|].
  destruct (@attachInternalDependencies_skips_virtual_workspaces Sample.impl
              Sample.appVirtual Sample.rootDependencies _ _ E) as [_ ->].
  reflexivity.
Defined.



(** C6, as stated, fails: on a fresh installer nothing is registered, and
    the call for the virtual instance of the workspace [@my/app] ends well
    all the same, with every state left as it was. *)
Lemma unregistered_virtual_workspace_is_skipped :
  locations (this Sample.machine0) !! locatorHash Sample.appVirtual = None
  ∧ @attachInternalDependencies Sample.impl Sample.appVirtual Sample.rootDependencies
      Sample.machine0
    = (Sample.machine0, Ok tt).
Proof. by_evaluation. Qed.

Lemma unregistered_locators_are_fatal_witness :
  awaitPendingCopies Sample.machine0 = (Sample.machine0, Ok tt)
  ∧ @isPnpmVirtualCompatible Sample.impl (this Sample.machine0) Sample.rootLocator = true
  ∧ locations (this Sample.machine0) !! locatorHash Sample.rootLocator = None
  ∧ @attachInternalDependencies Sample.impl Sample.rootLocator Sample.rootDependencies
      Sample.machine0
    = (Sample.machine0,
       Err (PlainError
              "Assertion failed: Expected the package to have been registered (root@workspace:.)")).
Proof.
  assert (awaitPendingCopies Sample.machine0 = (Sample.machine0, Ok tt)) as E by reflexivity.
  assert (@isPnpmVirtualCompatible Sample.impl (this Sample.machine0) Sample.rootLocator = true)
    as Hc by reflexivity.
  assert (locations (this Sample.machine0) !! locatorHash Sample.rootLocator = None)
    as Hn by reflexivity.
  split; [exact E|]. split; [exact Hc|]. split; [exact Hn|].
  destruct (@unregistered_locators_are_fatal Sample.impl Sample.rootLocator
              Sample.rootDependencies _ _ E Hc) as [H _].
  rewrite (H Hn). reflexivity.
Defined.

(** ** The conditions of C3, C5 and C8 *)

Ltac wf_idents :=
  repeat constructor; simpl; try reflexivity; intros; discriminate.

Lemma rootDependencies_wf :
  Forall (λ entry : Descriptor * Locator, wfIdent entry.1) Sample.rootDependencies.
Proof. wf_idents. Qed.

(** A dependent reached through a link can be reconciled, although it is
    not installed in a directory reached without links. *)
Lemma dependent_reached_through_a_link :
  reconcilable (disk Sample.linkedWaited) ["proj"]
  ∧ ¬ plainDependent (disk Sample.linkedWaited) ["proj"].
Proof.
  split; [apply reconcilable_check; vm_compute; reflexivity|].
  intros (_ & pch & Hdir & _). vm_compute in Hdir. discriminate Hdir.
Qed.

(** So can a dependent whose directory is not there yet: the call makes
    it on the way to the dependency directory. *)
Lemma dependent_that_is_not_there_yet :
  reconcilable Sample.emptyDisk ["proj"]
  ∧ xfs.lstatPromise ["proj"] Sample.emptyDisk = Err (FsError ENOENT)
  ∧ (@attachInternalDependencies Sample.impl Sample.rootLocator Sample.scopedFooDependencies
       (Sample.linkedOn Sample.emptyDisk)).2
    = Ok tt
  ∧ xfs.readlinkPromise ["proj"; "node_modules"; "@s"; "foo"]
      (disk (@attachInternalDependencies Sample.impl Sample.rootLocator
               Sample.scopedFooDependencies (Sample.linkedOn Sample.emptyDisk)).1)
    = Ok [".."; ".."; "packages"; "foo"].
Proof.
  split; [apply reconcilable_check; vm_compute; reflexivity|by_evaluation].
Qed.

(** The scopes have to be directories. Where the scope [@s] is a link to
    the dependency directory itself, the entries of the directory are
    listed a second time as entries of the scope, the hidden ones among
    them: for a dependent with no dependency the call ends well and has
    removed [.bin], an entry whose name starts with a dot, and the scope.
    With the dependency [@s/foo] the call ends well with the link written
    as [foo] in the directory itself, and a second call, on the disk the
    first one left, writes again: it makes the scope and a link in it, and
    removes [foo]. *)
Lemma scope_that_is_a_link_to_the_directory :
  ¬ reconcilable Sample.aliasedScopeDisk ["proj"]
  ∧ (xfs.lstatPromise ["proj"; "node_modules"; ".bin"] Sample.aliasedScopeDisk
     = Ok (Sample.dir [("tool", xfs.File "")])
     ∧ listExtraneous (λ p, xfs.readdirPromise p Sample.aliasedScopeDisk)
         ["proj"; "node_modules"]
       = Ok [(["@s"; ".bin"], xfs.mkDirent ".bin" xfs.KDirectory);
             (["@s"; "@s"], xfs.mkDirent "@s" xfs.KSymlink)]
     ∧ (@attachInternalDependencies Sample.impl Sample.rootLocator []
          (Sample.linkedOn Sample.aliasedScopeDisk)).2
       = Ok tt
     ∧ xfs.lstatPromise ["proj"; "node_modules"; ".bin"]
         (disk (@attachInternalDependencies Sample.impl Sample.rootLocator []
                  (Sample.linkedOn Sample.aliasedScopeDisk)).1)
       = Err (FsError ENOENT)
     ∧ xfs.lstatPromise ["proj"; "node_modules"; "@s"]
         (disk (@attachInternalDependencies Sample.impl Sample.rootLocator []
                  (Sample.linkedOn Sample.aliasedScopeDisk)).1)
       = Err (FsError ENOENT))
  ∧ (@wfIdent Sample.scopedFoo
     ∧ (@attachInternalDependencies Sample.impl Sample.rootLocator Sample.scopedFooDependencies
          (Sample.linkedOn Sample.aliasedScopeDisk)).2
       = Ok tt
     ∧ listExtraneous
         (λ p, xfs.readdirPromise p
                 (disk (@attachInternalDependencies Sample.impl Sample.rootLocator
                          Sample.scopedFooDependencies
                          (Sample.linkedOn Sample.aliasedScopeDisk)).1))
         ["proj"; "node_modules"]
       = Ok [(["foo"], xfs.mkDirent "foo" xfs.KSymlink)]
     ∧ journal
         (@reconcile Sample.impl Journaled journaledDisk
            (this (Sample.linkedOn Sample.aliasedScopeDisk)) ["proj"]
            Sample.scopedFooDependencies
            (mkJournaled
               (disk (@attachInternalDependencies Sample.impl Sample.rootLocator
                        Sample.scopedFooDependencies
                        (Sample.linkedOn Sample.aliasedScopeDisk)).1) [])).1
       = [xfs.OpMkdirp ["proj"; "node_modules"];
          xfs.OpMkdirp ["proj"; "node_modules"; "@s"];
          xfs.OpSymlink [".."; ".."; "packages"; "foo"] ["proj"; "node_modules"; "@s"; "foo"];
          xfs.OpRemove ["proj"; "node_modules"; "foo"]]).
Proof.
  split; [apply not_reconcilable; vm_compute; reflexivity|].
  split; [by_evaluation|]. split; [wf_idents|by_evaluation].
Qed.

(** The way to the dependency directory must not go through the
    directory. Where [node_modules] is a link to the directory of the
    dependent, the call, for a dependent with no dependency, ends well and
    has removed the link: the hidden entry that was found through it is
    found no more. A second call, on the disk the first one left, writes
    again: it makes the dependency directory. *)
Lemma dependency_directory_that_is_a_link_to_the_dependent :
  ¬ reconcilable Sample.selfLinkedDisk ["proj"]
  ∧ xfs.lstatPromise ["proj"; "node_modules"; ".npmrc"] Sample.selfLinkedDisk
    = Ok (xfs.File "")
  ∧ (@attachInternalDependencies Sample.impl Sample.rootLocator []
       (Sample.linkedOn Sample.selfLinkedDisk)).2
    = Ok tt
  ∧ xfs.lstatPromise ["proj"; "node_modules"; ".npmrc"]
      (disk (@attachInternalDependencies Sample.impl Sample.rootLocator []
               (Sample.linkedOn Sample.selfLinkedDisk)).1)
    = Err (FsError ENOENT)
  ∧ xfs.readdirPromise ["proj"]
      (disk (@attachInternalDependencies Sample.impl Sample.rootLocator []
               (Sample.linkedOn Sample.selfLinkedDisk)).1)
    = Ok [xfs.mkDirent ".npmrc" xfs.KFile; xfs.mkDirent "package.json" xfs.KFile]
  ∧ (@attachInternalDependencies Sample.impl Sample.rootLocator []
       (@attachInternalDependencies Sample.impl Sample.rootLocator []
          (Sample.linkedOn Sample.selfLinkedDisk)).1).2
    = Ok tt
  ∧ xfs.readdirPromise ["proj"]
      (disk (@attachInternalDependencies Sample.impl Sample.rootLocator []
               (@attachInternalDependencies Sample.impl Sample.rootLocator []
                  (Sample.linkedOn Sample.selfLinkedDisk)).1).1)
    = Ok [xfs.mkDirent ".npmrc" xfs.KFile;
          xfs.mkDirent "node_modules" xfs.KDirectory;
          xfs.mkDirent "package.json" xfs.KFile].
Proof.
  split; [apply not_reconcilable; vm_compute; reflexivity|by_evaluation].
Qed.

(** The identifiers have to be package names. A dependency whose name
    starts with a dot is linked, in a dependency directory that can be
    reconciled, under a name the listing leaves out: the call ends well,
    the listing of the directory is empty although there is one
    dependency, an entry whose name starts with a dot has appeared, and a
    second call for the same dependencies fails on the link the first one
    wrote. *)
Lemma dependency_with_a_hidden_name :
  reconcilable Sample.bareDisk ["proj"]
  ∧ ¬ wfIdent Sample.hiddenName
  ∧ (@attachInternalDependencies Sample.impl Sample.rootLocator Sample.hiddenNameDependencies
       (Sample.linkedOn Sample.bareDisk)).2
    = Ok tt
  ∧ listExtraneous
      (λ p, xfs.readdirPromise p
              (disk (@attachInternalDependencies Sample.impl Sample.rootLocator
                       Sample.hiddenNameDependencies (Sample.linkedOn Sample.bareDisk)).1))
      ["proj"; "node_modules"]
    = Ok JsMap.empty
  ∧ xfs.lstatPromise ["proj"; "node_modules"; ".hidden"] Sample.bareDisk
    = Err (FsError ENOENT)
  ∧ xfs.lstatPromise ["proj"; "node_modules"; ".hidden"]
      (disk (@attachInternalDependencies Sample.impl Sample.rootLocator
               Sample.hiddenNameDependencies (Sample.linkedOn Sample.bareDisk)).1)
    = Ok (xfs.Symlink [".."; "packages"; "hidden"])
  ∧ (@attachInternalDependencies Sample.impl Sample.rootLocator Sample.hiddenNameDependencies
       (@attachInternalDependencies Sample.impl Sample.rootLocator
          Sample.hiddenNameDependencies (Sample.linkedOn Sample.bareDisk)).1).2
    = Err (FsError EEXIST).
Proof.
  split; [apply reconcilable_check; vm_compute; reflexivity|].
  split; [intros (_ & _ & Hdot & _); discriminate Hdot|by_evaluation].
Qed.

(** ** C3, C5 and C8 on the sample project *)







(** * Further properties *)

(** ** Registration *)

Section Registration.

Context {su : structUtils.Impl}.

Lemma installPackage_step (pkg : Package) (fetchResult : FetchResult) (m : Machine) :
  disk (installPackage pkg fetchResult m).1 = disk m
  ∧ opts (this (installPackage pkg fetchResult m).1) = opts (this m)
  ∧ customData (this (installPackage pkg fetchResult m).1) = customData (this m)
  ∧ pendingCopies (this (installPackage pkg fetchResult m).1)
    = pendingCopies (this m) ++ scheduledBy (cwd (project (opts (this m)))) [(pkg, fetchResult)].
Proof.
  unfold installPackage, scheduledBy. simpl.
  destruct (linkType pkg); simpl; rewrite ?app_nil_r; done.
Qed.

(** X1. The location [installPackage] answers with is the one it registers for
    the package: looking the package up in the location table gives it
    back, every other locator keeps the location it had, and no build is
    asked for. A soft package is registered where its files are, a hard one
    at its slot in the store of the project. *)
Theorem installPackage_registers_what_it_returns :
  ∀ (pkg : Package) (fetchResult : FetchResult) (m m' : Machine) (status : InstallStatus),
    installPackage pkg fetchResult m = (m', Ok status) →
    locations (this m') !! locatorHash pkg = Some (packageLocation status)
    ∧ (∀ h, h ≠ locatorHash pkg → locations (this m') !! h = locations (this m) !! h)
    ∧ buildDirective status = None
    ∧ packageLocation status
      = match linkType pkg with
        | SOFT => ppath.resolve (getRealPath (packageFs fetchResult)) (prefixPath fetchResult)
        | _ => ppath.join (cwd (project (opts (this m))))
                 [nodeModules; ".store"; structUtils.slugifyLocator pkg]
        end.
Proof.
  intros pkg fetchResult m m' status. unfold installPackage.
  destruct (linkType pkg); [| |done]; intros [= <- <-];
    cbn [this locations setLocations setPendingCopies packageLocation buildDirective];
    (split; [apply lookup_insert_eq|]); (split; [|done]);
    intros h Hh; by apply lookup_insert_ne.
Qed.

(** X2. [installPackage] writes nothing to the disk and keeps the options, the
    custom data and the copies scheduled so far; it schedules one copy more
    for a hard package and none otherwise. It ends well exactly for the
    link types [SOFT] and [HARD]: for any other link type it raises the
    assertion error and leaves the installer as it was. *)
Theorem installPackage_leaves_the_disk_alone :
  ∀ (pkg : Package) (fetchResult : FetchResult) (m : Machine),
    disk (installPackage pkg fetchResult m).1 = disk m
    ∧ opts (this (installPackage pkg fetchResult m).1) = opts (this m)
    ∧ customData (this (installPackage pkg fetchResult m).1) = customData (this m)
    ∧ pendingCopies (this (installPackage pkg fetchResult m).1)
      = pendingCopies (this m)
        ++ match linkType pkg with
           | HARD =>
               [mkPromise
                  (ppath.join (cwd (project (opts (this m))))
                     [nodeModules; ".store"; structUtils.slugifyLocator pkg])
                  fetchResult Pending]
           | _ => []
           end
    ∧ match linkType pkg with
      | OtherLinkType _ =>
          installPackage pkg fetchResult m
          = (m, Err (PlainError "Assertion failed: Unsupported package link type"))
      | _ => isOk (installPackage pkg fetchResult m).2 = true
      end.
Proof.
  intros pkg fetchResult m.
  destruct (installPackage_step pkg fetchResult m) as (Hd & Ho & Hc & Hp).
  split; [done|]. split; [done|]. split; [done|]. split.
  - rewrite Hp. unfold scheduledBy. simpl. by destruct (linkType pkg).
  - unfold installPackage. by destruct (linkType pkg).
Qed.

Lemma performAll_cons (c : Call) (cs : list Call) (m : Machine) :
  performAll (c :: cs) m
  = ((performAll cs (perform c m).1).1, (perform c m).2 :: (performAll cs (perform c m).1).2).
Proof.
  change (performAll (c :: cs) m)
    with (let '(m1, r) := perform c m in
          let '(m2, rs) := performAll cs m1 in (m2, r :: rs)).
  destruct (perform c m) as [m1 r]. cbn [fst snd]. by destruct (performAll cs m1) as [m2 rs].
Qed.

Lemma perform_install_state (pkg : Package) (fetchResult : FetchResult) (m : Machine) :
  (perform (CallInstallPackage pkg fetchResult) m).1 = (installPackage pkg fetchResult m).1.
Proof.
  unfold perform, mbind, StateErr_bind.
  by destruct (installPackage pkg fetchResult m) as [m1 [status|e]].
Qed.

(** X3. A run of installs schedules one copy for each hard package of the
    run, in the order of the installs, behind the copies that were
    scheduled before it: the tasks the installer holds at the end are
    these, each with the outcome it had if it had one already. A package
    installed twice has its copy scheduled twice. The options of the
    installer are as they were, and every install is answered. *)
Theorem installs_schedule_one_copy_per_hard_package :
  ∀ (installs : list (Package * FetchResult)) (m : Machine),
    opts (this (performAll (installCalls installs) m).1) = opts (this m)
    ∧ Forall2 laterStateOf
        (pendingCopies (this m) ++ scheduledBy (cwd (project (opts (this m)))) installs)
        (pendingCopies (this (performAll (installCalls installs) m).1))
    ∧ length (performAll (installCalls installs) m).2 = length installs.
Proof.
  intros installs m.
  assert (opts (this (performAll (installCalls installs) m).1) = opts (this m)
          ∧ pendingCopies (this (performAll (installCalls installs) m).1)
            = pendingCopies (this m) ++ scheduledBy (cwd (project (opts (this m)))) installs
          ∧ length (performAll (installCalls installs) m).2 = length installs)
    as (Ho & Hp & Hl).
  { revert m. induction installs as [|[pkg fetchResult] rest IH]; intros m.
    - simpl. by rewrite app_nil_r.
    - change (installCalls ((pkg, fetchResult) :: rest))
        with (CallInstallPackage pkg fetchResult :: installCalls rest).
      rewrite performAll_cons, perform_install_state. cbn [fst snd length].
      destruct (installPackage_step pkg fetchResult m) as (_ & Ho & _ & Hp).
      destruct (IH (installPackage pkg fetchResult m).1) as (Ho1 & Hp1 & Hl1).
      rewrite Ho1, Hp1, Hl1, Hp, Ho, <- app_assoc.
      split; [done|]. split; [|done].
      f_equal. unfold scheduledBy. cbn [flat_map]. by rewrite app_nil_r. }
  split; [done|]. split; [|done]. rewrite Hp.
  apply Forall_Forall2_diag, Forall_true. by intros p.
Qed.

End Registration.

(** ** The copies and the installer *)

Section Barrier.

Context {su : structUtils.Impl}.

Lemma laterStateOf_refl (p : Promise) : laterStateOf p p.
Proof. done. Qed.

Lemma settle_later (p : Promise) (fs : xfs.Node) : laterStateOf p (settle p fs).1.
Proof.
  unfold settle. destruct (state p) eqn:E; [|done|done].
  destruct (job p fs) as [fs' [[]|e]]; (split; [done|split; [done|]]); by rewrite E.
Qed.

Lemma settleAll_later (ps : list Promise) (fs : xfs.Node) :
  Forall2 laterStateOf ps (settleAll ps fs).1.
Proof.
  revert fs. induction ps as [|p ps IH]; intros fs; simpl; [constructor|].
  pose proof (settle_later p fs) as Hp. destruct (settle p fs) as [p' fs1].
  specialize (IH fs1). destruct (settleAll ps fs1) as [ps'' fs2]. by constructor.
Qed.

Lemma promiseAll_later (ps ps' : list Promise) (fs fs' : xfs.Node) (r : Result unit) :
  promiseAll ps fs = (ps', fs', r) → Forall2 laterStateOf ps ps'.
Proof.
  unfold promiseAll. pose proof (settleAll_later ps fs) as Hl.
  destruct (settleAll ps fs) as [ps1 fs1]. by intros [= <- _ _].
Qed.

(** A task that has run is not run again. *)
Lemma settleAll_settled_id (ps : list Promise) (fs : xfs.Node) :
  Forall (λ p, state p ≠ Pending) ps → settleAll ps fs = (ps, fs).
Proof.
  induction 1 as [|p ps Hp _ IH]; [done|]. simpl. unfold settle.
  destruct (state p) eqn:E; [done| |]; by rewrite IH.
Qed.

Lemma firstRejected_fulfilled (ps : list Promise) :
  Forall (λ p, state p = Fulfilled) ps → firstRejected ps = None.
Proof. induction 1 as [|p ps Hp _ IH]; [done|]. simpl. by rewrite Hp. Qed.

(** A task that failed is still among the failed ones later. *)
Lemma firstRejected_later (ps ps' : list Promise) (e : Error) :
  Forall2 laterStateOf ps ps' → firstRejected ps = Some e →
  ∃ e', firstRejected ps' = Some e'.
Proof.
  induction 1 as [|p p' ps ps' (_ & _ & Hp) _ IH]; simpl; [done|].
  destruct (state p) eqn:E.
  - intros Hrej. destruct (state p'); eauto.
  - intros Hrej. destruct (state p'); eauto.
  - intros _. rewrite Hp by done. eauto.
Qed.

Lemma promiseAll_rejected (ps ps' : list Promise) (fs fs' : xfs.Node) (e : Error) :
  promiseAll ps fs = (ps', fs', Err e) →
  Forall (λ p, state p ≠ Pending) ps' ∧ ∃ e', firstRejected ps' = Some e'.
Proof.
  unfold promiseAll. pose proof (settleAll_later ps fs) as Hl.
  pose proof (settleAll_settled ps fs) as Hs.
  destruct (settleAll ps fs) as [ps1 fs1]. simpl in *.
  destruct (firstRejected ps) as [e0|] eqn:E0.
  - intros [= <- _ <-]. split; [done|]. by eapply firstRejected_later.
  - destruct (firstRejected ps1) as [e1|] eqn:E1; [|done].
    intros [= <- _ <-]. eauto.
Qed.

Lemma machine_eta (m : Machine) :
  mkMachine (setPendingCopies (pendingCopies (this m)) (this m)) (disk m) = m.
Proof. by destruct m as [[] ?]. Qed.

(** Waiting for copies that have all run changes nothing: the wait is over
    at once, well when none of them failed, and else with the reason of the
    first that did. *)
Lemma awaitPendingCopies_over (m : Machine) :
  Forall (λ p, state p ≠ Pending) (pendingCopies (this m)) →
  awaitPendingCopies m
  = (m, match firstRejected (pendingCopies (this m)) with
        | Some e => Err e
        | None => Ok tt
        end).
Proof.
  intros Hall. unfold awaitPendingCopies, promiseAll.
  rewrite (settleAll_settled_id _ _ Hall), machine_eta.
  by destruct (firstRejected _).
Qed.

Lemma awaitPendingCopies_settled (m : Machine) :
  Forall (λ p, state p = Fulfilled) (pendingCopies (this m)) →
  awaitPendingCopies m = (m, Ok tt).
Proof.
  intros Hall. rewrite awaitPendingCopies_over, (firstRejected_fulfilled _ Hall); [done|].
  eapply Forall_impl; [exact Hall|]. by intros p ->.
Qed.

(** Waiting for copies one of which has failed already fails with its
    reason. *)
Lemma awaitPendingCopies_rejected (m : Machine) (e : Error) :
  firstRejected (pendingCopies (this m)) = Some e →
  (awaitPendingCopies m).2 = Err e.
Proof.
  intros Hrej. unfold awaitPendingCopies, promiseAll. rewrite Hrej.
  by destruct (settleAll _ _).
Qed.

Lemma awaitPendingCopies_later (m m1 : Machine) (r : Result unit) :
  awaitPendingCopies m = (m1, r) →
  Forall2 laterStateOf (pendingCopies (this m)) (pendingCopies (this m1)).
Proof.
  unfold awaitPendingCopies.
  destruct (promiseAll _ _) as [[ps fs] r'] eqn:E. intros [= <- _]. simpl.
  by eapply promiseAll_later.
Qed.

(** The installer an [attachInternalDependencies] call leaves is the one
    the wait left. *)
Lemma attachInternalDependencies_this
    (locator : Locator) (dependencies : list (Descriptor * Locator)) (m m1 : Machine)
    (r : Result unit) :
  awaitPendingCopies m = (m1, r) →
  this (attachInternalDependencies locator dependencies m).1 = this m1.
Proof.
  intros E. destruct r as [[]|e].
  - rewrite (attachInternalDependencies_after_wait _ _ _ _ E).
    destruct (negb _); [done|]. destruct (locations (this m) !! _); [|done].
    unfold onDisk. by destruct (reconcile _ _ _ _).
  - by rewrite (attachInternalDependencies_wait_fails _ _ _ _ _ E).
Qed.

(** X5. Whatever its outcome, [attachInternalDependencies] registers nothing
    and forgets nothing: the options, the location table and the custom
    data of the installer are as they were, and so are the scheduled
    copies, each of them the same task as before, with the outcome it had
    if it had one already. *)
Theorem attachInternalDependencies_keeps_the_installer :
  ∀ (locator : Locator) (dependencies : list (Descriptor * Locator)) (m : Machine),
    opts (this (attachInternalDependencies locator dependencies m).1) = opts (this m)
    ∧ locations (this (attachInternalDependencies locator dependencies m).1)
      = locations (this m)
    ∧ customData (this (attachInternalDependencies locator dependencies m).1)
      = customData (this m)
    ∧ Forall2 laterStateOf (pendingCopies (this m))
        (pendingCopies (this (attachInternalDependencies locator dependencies m).1)).
Proof.
  intros locator dependencies m.
  destruct (awaitPendingCopies m) as [m1 r] eqn:E.
  rewrite (attachInternalDependencies_this _ _ _ _ _ E).
  destruct (awaitPendingCopies_this _ _ _ E) as (Ho & Hl & Hc).
  split; [done|]. split; [done|]. split; [done|]. by eapply awaitPendingCopies_later.
Qed.

(** X6. A copy that failed fails every call that waits for it. When one of
    the scheduled copies is rejected already, [attachInternalDependencies]
    does nothing but wait and ends with the reason of the first such copy,
    in the order the copies were scheduled. When the wait of a call fails,
    the call ends there with that error, and every later call, for any
    dependent, on the state the failed call left, does nothing but wait as
    well and fails with the reason of a copy that is rejected by then. *)
Theorem rejected_copy_fails_every_later_attach :
  (∀ (locator : Locator) (dependencies : list (Descriptor * Locator)) (m : Machine)
     (e : Error),
     firstRejected (pendingCopies (this m)) = Some e →
     attachInternalDependencies locator dependencies m = ((awaitPendingCopies m).1, Err e))
  ∧ (∀ (locator locator' : Locator) (dependencies dependencies' : list (Descriptor * Locator))
       (m m1 : Machine) (e : Error),
       awaitPendingCopies m = (m1, Err e) →
       attachInternalDependencies locator dependencies m = (m1, Err e)
       ∧ ∃ e', firstRejected (pendingCopies (this m1)) = Some e'
               ∧ attachInternalDependencies locator' dependencies' m1
                 = ((awaitPendingCopies m1).1, Err e')).
Proof.
  assert (∀ (locator : Locator) (dependencies : list (Descriptor * Locator)) (m : Machine)
            (e : Error),
            firstRejected (pendingCopies (this m)) = Some e →
            attachInternalDependencies locator dependencies m
            = ((awaitPendingCopies m).1, Err e)) as Hfirst.
  { intros locator dependencies m e Hrej.
    apply attachInternalDependencies_wait_fails.
    pose proof (awaitPendingCopies_rejected m e Hrej) as Hr.
    destruct (awaitPendingCopies m) as [m1 r]. simpl in *. by subst r. }
  split; [exact Hfirst|].
  intros locator locator' dependencies dependencies' m m1 e E.
  split; [by apply attachInternalDependencies_wait_fails|].
  assert (∃ e', firstRejected (pendingCopies (this m1)) = Some e') as [e' He'].
  { revert E. unfold awaitPendingCopies.
    destruct (promiseAll _ _) as [[ps fs] r] eqn:Ep. intros [= <- ->]. simpl.
    by destruct (promiseAll_rejected _ _ _ _ _ Ep). }
  exists e'. split; [done|]. by apply Hfirst.
Qed.

(** X7. The copies are run once. When a call of [attachInternalDependencies]
    has ended well, every scheduled copy is fulfilled, waiting for them
    again changes neither the installer nor the disk, and a later call, for
    any dependent, is the reconciliation alone, run on the state it is given. *)
Theorem copies_are_waited_for_once :
  ∀ (locator : Locator) (dependencies : list (Descriptor * Locator)) (m m' : Machine),
    attachInternalDependencies locator dependencies m = (m', Ok tt) →
    Forall (λ p, state p = Fulfilled) (pendingCopies (this m'))
    ∧ awaitPendingCopies m' = (m', Ok tt)
    ∧ ∀ (locator' : Locator) (dependencies' : list (Descriptor * Locator)),
        attachInternalDependencies locator' dependencies' m'
        = if negb (isPnpmVirtualCompatible (this m') locator') then (m', Ok tt)
          else match locations (this m') !! locatorHash locator' with
               | None =>
                   (m', Err (registrationError (structUtils.stringifyLocator locator')))
               | Some pkgPath => onDisk (reconcile (this m') pkgPath dependencies') m'
               end.
Proof.
  intros locator dependencies m m' E.
  destruct (awaitPendingCopies m) as [m1 r] eqn:Ew.
  pose proof (attachInternalDependencies_this locator dependencies _ _ _ Ew) as Hthis.
  rewrite E in Hthis. simpl in Hthis.
  destruct r as [[]|e].
  2:{ rewrite (attachInternalDependencies_wait_fails _ _ _ _ _ Ew) in E. done. }
  assert (Forall (λ p, state p = Fulfilled) (pendingCopies (this m'))) as Hall.
  { rewrite Hthis. by eapply awaitPendingCopies_fulfilled. }
  split; [done|]. split; [by apply awaitPendingCopies_settled|].
  intros locator' dependencies'.
  by apply attachInternalDependencies_after_wait, awaitPendingCopies_settled.
Qed.

(** X8. An installer just made knows no package and has no copy to wait for:
    asked to attach the dependencies of any dependent, on any disk, it
    leaves the disk and itself as they are, and it fails with the assertion
    error unless the dependent is a virtual instance of a workspace, which
    it skips. *)
Theorem fresh_installer_knows_no_package :
  ∀ (options : LinkOptions) (locator : Locator) (dependencies : list (Descriptor * Locator))
    (fs : xfs.Node),
    attachInternalDependencies locator dependencies
      (mkMachine (PnpmLinker.makeInstaller options) fs)
    = (mkMachine (PnpmLinker.makeInstaller options) fs,
       if structUtils.isVirtualLocator locator
          && truthy (tryWorkspaceByLocator (project options) locator)
       then Ok tt
       else Err (registrationError (structUtils.stringifyLocator locator))).
Proof.
  intros options locator dependencies fs.
  rewrite (attachInternalDependencies_after_wait _ _ _ _
             (awaitPendingCopies_settled (mkMachine (PnpmLinker.makeInstaller options) fs)
                (Forall_nil_2 _))).
  rewrite isPnpmVirtualCompatible_negb, negb_involutive. unfold isWorkspace.
  cbn [this PnpmLinker.makeInstaller opts locations].
  destruct (_ && _); [done|]. by rewrite lookup_empty.
Qed.

(** X4. [finalizeInstall] changes neither the installer nor the disk and never
    fails; its answer is [null] for the projects whose packages the linker
    supports and [undefined] for the others. *)
Theorem finalizeInstall_agrees_with_supportsPackage :
  ∀ (pkg : Package) (m : Machine),
    finalizeInstall m
    = (m, Ok (if PnpmLinker.supportsPackage pkg (opts (this m)) then JsNull else JsUndefined)).
Proof.
  intros pkg m. unfold finalizeInstall, PnpmLinker.supportsPackage, mbind, StateErr_bind, getThis.
  by case_bool_decide.
Qed.

End Barrier.

(** ** What a write leaves alone *)

Lemma sameOutside_refl (d : list string) (fs : xfs.Node) : sameOutside d fs fs.
Proof. by intros p. Qed.

Lemma sameOutside_trans (d : list string) (fs1 fs2 fs3 : xfs.Node) :
  sameOutside d fs1 fs2 → sameOutside d fs2 fs3 → sameOutside d fs1 fs3.
Proof. intros H12 H23 p Hd Hp. by rewrite H23, H12. Qed.

(** Rewriting one entry of a directory changes nothing at the paths that
    have nothing to do with that entry. *)
Lemma lookupNode_updateDir_entry (fs : xfs.Node) (q : list string) (s : string)
    (f : gmap string xfs.Node → gmap string xfs.Node) (p : list string) :
  (∀ ch k, k ≠ s → f ch !! k = ch !! k) →
  ¬ (q ++ [s]) `prefix_of` p → ¬ p `prefix_of` (q ++ [s]) →
  xfs.lookupNode (xfs.updateDir fs q f) p = xfs.lookupNode fs p.
Proof.
  intros Hf. revert fs p. induction q as [|a q IH]; intros fs p Hqp Hpq; simpl in *.
  - destruct fs as [| |ch]; try done.
    destruct p as [|k p]; [destruct Hpq; apply prefix_nil|]. simpl.
    rewrite Hf; [done|]. intros ->. apply Hqp. by apply prefix_cons, prefix_nil.
  - destruct fs as [| |ch]; try done.
    destruct (ch !! a) as [c|] eqn:Ea; [|done].
    destruct p as [|k p]; [destruct Hpq; apply prefix_nil|]. simpl.
    destruct (decide (a = k)) as [<-|Hne].
    + rewrite lookup_insert_eq, Ea. apply IH.
      * intros Hpre. by apply Hqp, prefix_cons.
      * intros Hpre. by apply Hpq, prefix_cons.
    + by rewrite lookup_insert_ne.
Qed.

Lemma outside_entry (d k p : list string) :
  ¬ d `prefix_of` p → ¬ p `prefix_of` d →
  ¬ (d ++ k) `prefix_of` p ∧ ¬ p `prefix_of` (d ++ k).
Proof.
  intros Hd Hp. split.
  - intros Hpre. apply Hd. etrans; [|exact Hpre]. by apply prefix_app_r.
  - intros Hpre.
    destruct (prefix_weak_total p d (d ++ k) Hpre (prefix_app_r d d k (reflexivity d)));
      done.
Qed.

(** A write to one entry at or below the directory [d] changes nothing
    outside of [d]. *)
Lemma updateDir_sameOutside (d k : list string) (s : string) (fs : xfs.Node)
    (f : gmap string xfs.Node → gmap string xfs.Node) :
  (∀ ch k, k ≠ s → f ch !! k = ch !! k) →
  d `prefix_of` (k ++ [s]) →
  sameOutside d fs (xfs.updateDir fs k f).
Proof.
  intros Hf [r Hr] p Hd Hp. apply (lookupNode_updateDir_entry _ _ s); [done|..];
    rewrite Hr; by apply outside_entry.
Qed.

Lemma insert_other {A} (s : string) (x : A) (ch : gmap string A) (k : string) :
  k ≠ s → <[s := x]> ch !! k = ch !! k.
Proof. intros. by apply lookup_insert_ne. Qed.

Lemma delete_other {A} (s : string) (ch : gmap string A) (k : string) :
  k ≠ s → delete s ch !! k = ch !! k.
Proof. intros. by apply lookup_delete_ne. Qed.

Lemma relative_nil (from to : list string) :
  ppath.relative from to = [] → to = from.
Proof.
  unfold ppath.relative. destruct (ppath.stripCommon from to) as [up down] eqn:E.
  destruct (stripCommon_spec _ _ _ _ E) as (common & -> & ->).
  intros [Hup ->]%app_eq_nil. destruct up; [done|discriminate].
Qed.

Section KeyFrames.

Variables (fs : xfs.Node) (nmPath : list string) (ch : gmap string xfs.Node).
Hypothesis Hnm : plainPath nmPath.
Hypothesis Hch : xfs.lookupNode fs nmPath = Some (xfs.Directory ch).
Hypothesis Hsc : scopesAreDirectories ch.

Lemma removePromise_key_frame (key : list string) (fs' : xfs.Node) :
  entryKey key = true →
  xfs.removePromise (ppath.join nmPath key) fs = Ok fs' →
  sameOutside nmPath fs fs'.
Proof using Hnm Hch Hsc.
  intros Hkey. rewrite (join_plain _ _ (entryKey_plain _ Hkey)).
  destruct key as [|s [|c [|]]]; try done.
  - rewrite (removePromise_child fs nmPath ch Hnm Hch). intros [= <-].
    destruct (ch !! s); [|apply sameOutside_refl].
    apply (updateDir_sameOutside _ _ s); [intros; by apply delete_other|].
    by apply prefix_app_r.
  - pose proof Hkey as [Hs Hc]%entryKey_two.
    destruct (startsWith_at_plain _ Hs) as [Hps _].
    change (nmPath ++ [s; c]) with (nmPath ++ [s] ++ [c]). rewrite app_assoc.
    destruct (ch !! s) as [node|] eqn:Es.
    + destruct (scopesAreDirectories_lookup _ _ _ Hsc Hs Es) as [sub ->].
      rewrite (removePromise_child fs (nmPath ++ [s]) sub);
        [|by apply plainPath_snoc|by rewrite lookupNode_snoc, Hch].
      intros [= <-]. destruct (sub !! c); [|apply sameOutside_refl].
      apply (updateDir_sameOutside _ _ c); [intros; by apply delete_other|].
      rewrite <- app_assoc. by apply prefix_app_r.
    + unfold xfs.removePromise. rewrite splitLast_snoc.
      rewrite (resolveDir_child_absent fs nmPath ch s) by done.
      intros [= <-]. apply sameOutside_refl.
Qed.

(** The two calls that create the link of a key: what they leave, and that
    they fail with [EEXIST] when there is an entry already. *)
Lemma create_frame {A} (key t : list string) (k : StateErr xfs.Node A) (fs' : xfs.Node)
    (r : Result A) :
  entryKey key = true →
  (∀ fs0, (k fs0).1 = fs0) →
  (xfsWrite (xfs.mkdirpPromise (ppath.dirname (ppath.join nmPath key)));;
   xfsWrite (xfs.symlinkPromise t (ppath.join nmPath key));; k) fs = (fs', r) →
  sameOutside nmPath fs fs'.
Proof using Hnm Hch Hsc.
  intros Hkey Hk. rewrite (join_plain _ _ (entryKey_plain _ Hkey)).
  assert (∀ d sub fs1,
    plainPath d → nmPath `prefix_of` d →
    xfs.lookupNode fs1 d = Some (xfs.Directory sub) →
    sameOutside nmPath fs fs1 →
    ∀ s, (xfsWrite (xfs.symlinkPromise t (d ++ [s]));; k) fs1 = (fs', r) →
         sameOutside nmPath fs fs') as Hlink.
  { intros d sub fs1 Hd Hpre Hsub Hsame s. rewrite xfsWrite_bind.
    rewrite (symlinkPromise_child fs1 d sub Hd Hsub).
    assert (sameOutside nmPath fs
              (xfs.updateDir fs1 d (insert s (xfs.Symlink t)))) as Hnew.
    { eapply sameOutside_trans; [exact Hsame|].
      apply (updateDir_sameOutside _ _ s); [intros; by apply insert_other|].
      etrans; [exact Hpre|]. by apply prefix_app_r. }
    destruct t as [|t0 t']; [by intros [= <- _]|].
    destruct (sub !! s); [by intros [= <- _]|].
    intros E. pose proof (Hk (xfs.updateDir fs1 d (insert s (xfs.Symlink (t0 :: t'))))) as Hst.
    rewrite E in Hst. simpl in Hst. by rewrite Hst. }
  destruct key as [|s [|c [|]]]; try done.
  - unfold ppath.dirname. rewrite removelast_last, xfsWrite_bind.
    rewrite (mkdirpPromise_existing fs (xfs.Directory ch)) by done.
    by apply (Hlink nmPath ch fs Hnm (reflexivity _) Hch (sameOutside_refl _ _)).
  - pose proof Hkey as [Hs Hc]%entryKey_two.
    destruct (startsWith_at_plain _ Hs) as [Hps _].
    change (nmPath ++ [s; c]) with (nmPath ++ [s] ++ [c]). rewrite app_assoc.
    unfold ppath.dirname. rewrite removelast_last, xfsWrite_bind.
    rewrite (mkdirpPromise_child fs nmPath ch s Hnm Hps Hch).
    2:{ intros t' Et'. by specialize (Hsc s _ Hs Et'). }
    destruct (ch !! s) as [node|] eqn:Es.
    + destruct (scopesAreDirectories_lookup _ _ _ Hsc Hs Es) as [sub ->].
      apply (Hlink (nmPath ++ [s]) sub fs); [by apply plainPath_snoc|by apply prefix_app_r|
        by rewrite lookupNode_snoc, Hch|apply sameOutside_refl].
    + apply (Hlink (nmPath ++ [s]) ∅); [by apply plainPath_snoc|by apply prefix_app_r| |].
      * by rewrite lookupNode_snoc, (lookupNode_updateDir _ _ _ _ Hch), lookup_insert_eq.
      * apply (updateDir_sameOutside _ _ s); [intros; by apply insert_other|].
        by apply prefix_app_r.
Qed.

Lemma create_exists {A} (key t : list string) (k : StateErr xfs.Node A) (node : xfs.Node) :
  entryKey key = true → t ≠ [] →
  entryAt ch key = Some node →
  (xfsWrite (xfs.mkdirpPromise (ppath.dirname (ppath.join nmPath key)));;
   xfsWrite (xfs.symlinkPromise t (ppath.join nmPath key));; k) fs
  = (fs, Err (FsError EEXIST)).
Proof using Hnm Hch Hsc.
  intros Hkey Ht. rewrite (join_plain _ _ (entryKey_plain _ Hkey)).
  destruct key as [|s [|c [|]]]; try done.
  - rewrite entryAt_one. intros Es.
    unfold ppath.dirname. rewrite removelast_last, xfsWrite_bind.
    rewrite (mkdirpPromise_existing fs (xfs.Directory ch)) by done.
    rewrite xfsWrite_bind, (symlinkPromise_child fs nmPath ch Hnm Hch), Es.
    by destruct t.
  - pose proof Hkey as [Hs Hc]%entryKey_two.
    destruct (startsWith_at_plain _ Hs) as [Hps _].
    rewrite entryAt_two.
    destruct (ch !! s) as [[| |sub]|] eqn:Es; try done. intros Ec.
    change (nmPath ++ [s; c]) with (nmPath ++ [s] ++ [c]). rewrite app_assoc.
    unfold ppath.dirname. rewrite removelast_last, xfsWrite_bind.
    rewrite (mkdirpPromise_child fs nmPath ch s Hnm Hps Hch), Es.
    2:{ intros t' Et'. by rewrite Es in Et'. }
    rewrite xfsWrite_bind, (symlinkPromise_child fs (nmPath ++ [s]) sub), Ec;
      [|by apply plainPath_snoc|by rewrite lookupNode_snoc, Hch].
    by destruct t.
Qed.

End KeyFrames.

(** ** One turn of the loop, whatever its outcome *)

Section TurnOutcome.

Context {su : structUtils.Impl}.
Variables (this : PnpmInstaller) (nmPath : list string).
Hypothesis Hnm : plainPath nmPath.

Lemma linkDependency_frame (fs fs' : xfs.Node) (ch : gmap string xfs.Node)
    (ext : JsMap.t xfs.Dirent) (descriptor : Descriptor) (dependency : Locator)
    (r : Result (JsMap.t xfs.Dirent)) :
  xfs.lookupNode fs nmPath = Some (xfs.Directory ch) →
  scopesAreDirectories ch →
  wfIdent descriptor →
  linkDependency this nmPath ext (descriptor, dependency) fs = (fs', r) →
  sameOutside nmPath fs fs'.
Proof using Hnm.
  intros Hch Hsc Hwf. destruct (dependencyKey_entryKey _ Hwf) as [Hkey _].
  unfold linkDependency. plain_disk.
  destruct (locations this !! _) as [src|] eqn:El;
    [|intros [= <- _]; apply sameOutside_refl].
  cbv zeta.
  change (toPortablePath (structUtils.stringifyIdent descriptor))
    with (dependencyKey descriptor).
  set (key := dependencyKey descriptor) in *.
  set (t := ppath.relative (ppath.dirname (ppath.join nmPath key)) src).
  assert (∀ (k : StateErr xfs.Node (JsMap.t xfs.Dirent)),
    k = (xfsWrite (xfs.mkdirpPromise (ppath.dirname (ppath.join nmPath key)));;
         xfsWrite (xfs.symlinkPromise t (ppath.join nmPath key));;
         mret (JsMap.delete key ext)) →
    (xfsWrite (xfs.removePromise (ppath.join nmPath key));; k) fs = (fs', r) →
    sameOutside nmPath fs fs') as Hreplace.
  { intros k -> E. rewrite xfsWrite_bind in E.
    destruct (removePromise_key fs nmPath ch Hnm Hch Hsc key Hkey)
      as (fs1 & ch1 & Hrm & Hch1 & (_ & _ & _ & Hsc1)).
    rewrite Hrm in E. eapply sameOutside_trans.
    - by eapply (removePromise_key_frame fs nmPath ch).
    - eapply (create_frame fs1 nmPath ch1 Hnm Hch1 Hsc1); [done| |exact E].
      intros fs0. apply mret_state. }
  destruct (JsMap.get key ext) as [existing|].
  - destruct (xfs.isSymbolicLink existing).
    + rewrite xfsRead_bind. destruct (xfs.readlinkPromise _ fs) as [cur|e].
      * case_bool_decide; [intros [= <- _]; apply sameOutside_refl|by apply Hreplace].
      * intros [= <- _]. apply sameOutside_refl.
    + by apply Hreplace.
  - intros E. eapply (create_frame fs nmPath ch Hnm Hch Hsc); [done| |exact E].
    intros fs0. apply mret_state.
Qed.

(** A turn ends well when the dependency is registered away from the place
    of its link and the listing knows what is at that place. *)
Lemma linkDependency_progress (fs : xfs.Node) (ch : gmap string xfs.Node)
    (ext : JsMap.t xfs.Dirent) (descriptor : Descriptor) (dependency : Locator) :
  xfs.lookupNode fs nmPath = Some (xfs.Directory ch) →
  scopesAreDirectories ch →
  wfIdent descriptor →
  (∀ d, JsMap.get (dependencyKey descriptor) ext = Some d →
        ∃ node, entryAt ch (dependencyKey descriptor) = Some node
                ∧ xfs.kind d = xfs.kindOf node) →
  (JsMap.get (dependencyKey descriptor) ext = None →
   entryAt ch (dependencyKey descriptor) = None) →
  linkable this nmPath (descriptor, dependency) →
  ∃ fs' ext', linkDependency this nmPath ext (descriptor, dependency) fs = (fs', Ok ext').
Proof using Hnm.
  intros Hch Hsc Hwf Hext Hnone (src & El & Hsrc).
  destruct (dependencyKey_entryKey _ Hwf) as [Hkey _].
  unfold linkDependency. plain_disk. simpl in El, Hsrc. rewrite El. cbv zeta.
  change (toPortablePath (structUtils.stringifyIdent descriptor))
    with (dependencyKey descriptor).
  set (key := dependencyKey descriptor) in *.
  set (t := ppath.relative (ppath.dirname (ppath.join nmPath key)) src).
  assert (t ≠ []) as Ht by (intros Et; by apply relative_nil in Et).
  assert (∀ fs0 ch0 extra,
    xfs.lookupNode fs0 nmPath = Some (xfs.Directory ch0) →
    scopesAreDirectories ch0 → entryAt ch0 key = None →
    ∃ fs',
      (xfsWrite (xfs.mkdirpPromise (ppath.dirname (ppath.join nmPath key)));;
       xfsWrite (xfs.symlinkPromise t (ppath.join nmPath key));;
       mret extra) fs0 = (fs', Ok (extra : JsMap.t xfs.Dirent))) as Hcreate.
  { intros fs0 ch0 extra Hch0 Hsc0 Hat0. rewrite xfsWrite_bind.
    destruct (symlinkPromise_key fs0 nmPath ch0 Hnm Hch0 Hsc0 key t Hkey) as (fs1 & -> & Hm).
    rewrite xfsWrite_bind, Hat0 in *. destruct t as [|t0 t']; [done|].
    destruct Hm as (fs2 & ch2 & -> & _). by exists fs2. }
  assert (∃ fs',
    (xfsWrite (xfs.removePromise (ppath.join nmPath key));;
     xfsWrite (xfs.mkdirpPromise (ppath.dirname (ppath.join nmPath key)));;
     xfsWrite (xfs.symlinkPromise t (ppath.join nmPath key));;
     mret (JsMap.delete key ext)) fs = (fs', Ok (JsMap.delete key ext))) as Hreplace.
  { rewrite xfsWrite_bind.
    destruct (removePromise_key fs nmPath ch Hnm Hch Hsc key Hkey)
      as (fs1 & ch1 & -> & Hch1 & (Hat1 & _ & _ & Hsc1)).
    by apply (Hcreate fs1 ch1). }
  destruct (JsMap.get key ext) as [existing|] eqn:Eget.
  - destruct (Hext existing eq_refl) as (node & Hnode & Hkind).
    destruct (xfs.isSymbolicLink existing) eqn:Elink.
    + rewrite xfsRead_bind, (readlinkPromise_key fs nmPath ch Hnm Hch Hsc key Hkey), Hnode.
      unfold xfs.isSymbolicLink in Elink. apply bool_decide_eq_true in Elink.
      destruct node as [| cur |]; try (rewrite Hkind in Elink; done).
      case_bool_decide; [by eexists _, _|].
      destruct Hreplace as [fs' ->]. by eexists _, _.
    + destruct Hreplace as [fs' ->]. by eexists _, _.
  - destruct (Hcreate fs ch (JsMap.delete key ext) Hch Hsc (Hnone eq_refl)) as [fs' ->].
    by eexists _, _.
Qed.

(** The turn of a dependency whose name had its turn already: nothing is
    listed under the name any more, the link of the first turn is in the
    way, and the call that creates the link fails. *)
Lemma linkDependency_again (fs : xfs.Node) (ch : gmap string xfs.Node)
    (ext : JsMap.t xfs.Dirent) (descriptor : Descriptor) (dependency : Locator)
    (node : xfs.Node) :
  xfs.lookupNode fs nmPath = Some (xfs.Directory ch) →
  scopesAreDirectories ch →
  wfIdent descriptor →
  JsMap.get (dependencyKey descriptor) ext = None →
  entryAt ch (dependencyKey descriptor) = Some node →
  linkable this nmPath (descriptor, dependency) →
  linkDependency this nmPath ext (descriptor, dependency) fs = (fs, Err (FsError EEXIST)).
Proof using Hnm.
  intros Hch Hsc Hwf Hget Hnode (src & El & Hsrc).
  destruct (dependencyKey_entryKey _ Hwf) as [Hkey _].
  unfold linkDependency. plain_disk. simpl in El, Hsrc. rewrite El. cbv zeta.
  change (toPortablePath (structUtils.stringifyIdent descriptor))
    with (dependencyKey descriptor).
  rewrite Hget.
  apply (create_exists fs nmPath ch Hnm Hch Hsc _ _ _ node); [done| |done].
  intros Et. by apply relative_nil in Et.
Qed.

End TurnOutcome.

(** ** The loop, whatever its outcome *)

Section LoopOutcome.

Context {su : structUtils.Impl}.
Variables (this : PnpmInstaller) (nmPath : list string).
Hypothesis Hnm : plainPath nmPath.

Lemma linkDependencies_app (a b : list (Descriptor * Locator)) (ext : JsMap.t xfs.Dirent)
    (fs : xfs.Node) :
  linkDependencies this nmPath (a ++ b) ext fs
  = match linkDependencies this nmPath a ext fs with
    | (fs1, Ok ext1) => linkDependencies this nmPath b ext1 fs1
    | (fs1, Err e) => (fs1, Err e)
    end.
Proof using Type.
  revert ext fs. induction a as [|entry a IH]; intros ext fs; [done|].
  rewrite <- app_comm_cons, !linkDependencies_cons.
  destruct (linkDependency this nmPath ext entry fs) as [fs1 [ext1|e]]; [apply IH|done].
Qed.

Lemma linkDependencies_frame (dependencies seen : list (Descriptor * Locator))
    (fs fs' : xfs.Node) (ch0 ch : gmap string xfs.Node) (ext : JsMap.t xfs.Dirent)
    (r : Result (JsMap.t xfs.Dirent)) :
  xfs.lookupNode fs nmPath = Some (xfs.Directory ch) →
  reconciling this nmPath ch0 ch ext seen →
  Forall (λ entry : Descriptor * Locator, wfIdent entry.1) dependencies →
  linkDependencies this nmPath dependencies ext fs = (fs', r) →
  sameOutside nmPath fs fs'.
Proof using Hnm.
  revert seen fs ch ext.
  induction dependencies as [|[descriptor dependency] rest IH];
    intros seen fs ch ext Hch Hinv Hwf.
  - intros [= <- _]. apply sameOutside_refl.
  - rewrite linkDependencies_cons. inversion Hwf as [|? ? Hwf1 Hwfr]; subst.
    pose proof Hinv as (Hsc & Hsound & _).
    destruct (linkDependency this nmPath ext (descriptor, dependency) fs)
      as [fs1 r1] eqn:E.
    pose proof (linkDependency_frame this nmPath Hnm fs fs1 ch ext descriptor dependency r1
                  Hch Hsc Hwf1 E) as Hframe.
    destruct r1 as [ext1|e]; [|by intros [= <- _]].
    destruct (linkDependency_post this nmPath Hnm fs fs1 ch ext ext1 descriptor dependency
                Hch Hsc Hwf1) as (src & ch1 & El & -> & Hch1 & Hup & Hnone); [|done|].
    { intros d Hd. by destruct (Hsound _ _ Hd) as [_ ?]. }
    intros Hrest. eapply sameOutside_trans; [exact Hframe|].
    eapply (IH (seen ++ [(descriptor, dependency)]) fs1 ch1); [done| |done|exact Hrest].
    by eapply reconciling_turn.
Qed.

Lemma linkDependencies_progress (dependencies seen : list (Descriptor * Locator))
    (fs : xfs.Node) (ch0 ch : gmap string xfs.Node) (ext : JsMap.t xfs.Dirent) :
  xfs.lookupNode fs nmPath = Some (xfs.Directory ch) →
  reconciling this nmPath ch0 ch ext seen →
  Forall (λ entry : Descriptor * Locator, wfIdent entry.1) dependencies →
  Forall (linkable this nmPath) dependencies →
  NoDup (dependencyKey <$> (seen ++ dependencies).*1) →
  ∃ fs' ext' ch',
    linkDependencies this nmPath dependencies ext fs = (fs', Ok ext')
    ∧ xfs.lookupNode fs' nmPath = Some (xfs.Directory ch')
    ∧ reconciling this nmPath ch0 ch' ext' (seen ++ dependencies).
Proof using Hnm.
  revert seen fs ch ext.
  induction dependencies as [|[descriptor dependency] rest IH];
    intros seen fs ch ext Hch Hinv Hwf Hlk Hnodup.
  - exists fs, ext, ch. by rewrite app_nil_r.
  - rewrite linkDependencies_cons.
    inversion Hwf as [|? ? Hwf1 Hwfr]; subst. inversion Hlk as [|? ? Hlk1 Hlkr]; subst.
    simpl in Hwf1.
    pose proof Hinv as (Hsc & Hsound & Hcover & _).
    assert (dependencyKey descriptor ∉ dependencyKey <$> seen.*1) as Hfresh.
    { rewrite !fmap_app in Hnodup. apply NoDup_app in Hnodup as (_ & Hdisj & _).
      intros Hin. apply (Hdisj _ Hin). simpl. by left. }
    destruct (linkDependency_progress this nmPath Hnm fs ch ext descriptor dependency
                Hch Hsc Hwf1) as (fs1 & ext1 & E); [| |done|].
    { intros d Hd. by destruct (Hsound _ _ Hd) as [_ ?]. }
    { intros Hget. destruct (entryAt ch (dependencyKey descriptor)) as [node|] eqn:En; [|done].
      destruct (Hcover _ node (proj1 (dependencyKey_entryKey _ Hwf1)) En) as [[d Hd]|Hin].
      - rewrite Hget in Hd. done.
      - done. }
    rewrite E.
    destruct (linkDependency_post this nmPath Hnm fs fs1 ch ext ext1 descriptor dependency
                Hch Hsc Hwf1) as (src & ch1 & El & -> & Hch1 & Hup & Hnone); [|done|].
    { intros d Hd. by destruct (Hsound _ _ Hd) as [_ ?]. }
    destruct (IH (seen ++ [(descriptor, dependency)]) fs1 ch1 _ Hch1
                (reconciling_turn _ _ _ _ _ _ _ _ _ _ Hinv Hwf1 El Hup Hnone) Hwfr Hlkr)
      as (fs' & ext' & ch' & -> & Hch' & Hinv').
    { by rewrite <- app_assoc. }
    exists fs', ext', ch'. split; [done|]. split; [done|]. by rewrite <- app_assoc in Hinv'.
Qed.

Lemma removeExtraneous_frame (names : list (list string)) (fs fs' : xfs.Node)
    (ch : gmap string xfs.Node) (r : Result unit) :
  xfs.lookupNode fs nmPath = Some (xfs.Directory ch) →
  scopesAreDirectories ch →
  Forall (λ key, entryKey key = true) names →
  removeExtraneous nmPath names fs = (fs', r) →
  sameOutside nmPath fs fs'.
Proof using Hnm.
  intros Hch Hsc Hnames. revert fs ch Hch Hsc.
  induction Hnames as [|key rest Hkey _ IH]; intros fs ch Hch Hsc.
  - intros [= <- _]. apply sameOutside_refl.
  - simpl. rewrite xfsWrite_bind.
    destruct (removePromise_key fs nmPath ch Hnm Hch Hsc key Hkey)
      as (fs1 & ch1 & Hrm & Hch1 & (_ & _ & _ & Hsc1)).
    rewrite Hrm. intros E. eapply sameOutside_trans.
    + by eapply (removePromise_key_frame fs nmPath ch).
    + by eapply IH.
Qed.

End LoopOutcome.

(** ** The reconciliation, whatever its outcome *)

Lemma mkdirpPromise_dependent_ok (fs : xfs.Node) (pkgPath : list string) :
  plainDependent fs pkgPath →
  ∃ fs1 ch1,
    xfs.mkdirpPromise (ppath.join pkgPath [nodeModules]) fs = Ok fs1
    ∧ xfs.lookupNode fs1 (pkgPath ++ [nodeModules]) = Some (xfs.Directory ch1)
    ∧ scopesAreDirectories ch1
    ∧ sameOutside (pkgPath ++ [nodeModules]) fs fs1.
Proof.
  intros Hdep. pose proof Hdep as [Hp (pch & Hpch & Hnm)].
  assert (∃ fs1, xfs.mkdirpPromise (ppath.join pkgPath [nodeModules]) fs = Ok fs1
                 ∧ sameOutside (pkgPath ++ [nodeModules]) fs fs1) as (fs1 & Emk & Hsame).
  { rewrite join_plain by by constructor.
    rewrite (mkdirpPromise_child fs pkgPath pch nodeModules Hp eq_refl Hpch).
    2:{ intros t Et. by rewrite Et in Hnm. }
    eexists. split; [done|]. destruct (pch !! nodeModules); [apply sameOutside_refl|].
    apply (updateDir_sameOutside _ _ nodeModules); [intros; by apply insert_other|done]. }
  destruct (mkdirpPromise_dependent _ _ _ Hdep Emk) as (ch1 & Hch1 & Hsc1 & _).
  by exists fs1, ch1.
Qed.

Section ReconcileOutcome.

Context {su : structUtils.Impl}.
Variables (this : PnpmInstaller) (pkgPath : list string).

Lemma reconcile_frame (dependencies : list (Descriptor * Locator)) (fs fs' : xfs.Node)
    (r : Result unit) :
  plainDependent fs pkgPath →
  Forall (λ entry : Descriptor * Locator, wfIdent entry.1) dependencies →
  reconcile this pkgPath dependencies fs = (fs', r) →
  sameOutside (pkgPath ++ [nodeModules]) fs fs'.
Proof.
  intros Hdep Hwf. pose proof Hdep as [Hp _].
  assert (plainPath (pkgPath ++ [nodeModules])) as Hnm by by apply plainPath_snoc.
  destruct (mkdirpPromise_dependent_ok fs pkgPath Hdep) as (fs1 & ch1 & Emk & Hch1 & Hsc1 & H1).
  unfold reconcile. plain_disk. unfold xfsRead. rewrite xfsWrite_bind, Emk.
  rewrite join_plain by by constructor.
  unfold mbind at 1. unfold StateErr_bind at 1.
  destruct (listExtraneous_disk fs1 _ ch1 Hnm Hch1 Hsc1) as (ext & -> & Hsound & Hcomplete).
  unfold mbind, StateErr_bind.
  destruct (linkDependencies this _ dependencies ext fs1) as [fs2 r2] eqn:Elink.
  pose proof (reconciling_start this (pkgPath ++ [nodeModules]) ch1 ext Hsc1 Hsound Hcomplete)
    as Hinv.
  pose proof (linkDependencies_frame this _ Hnm dependencies [] fs1 fs2 ch1 ch1 ext r2
                Hch1 Hinv Hwf Elink) as H2.
  destruct r2 as [ext2|e].
  2:{ intros [= <- _]. by eapply sameOutside_trans. }
  destruct (linkDependencies_post this _ Hnm dependencies [] fs1 fs2 ch1 ch1 ext ext2
              Hch1 Hinv Hwf Elink) as (ch2 & Hch2 & Hinv2).
  destruct Hinv2 as (Hsc2 & Hsound2 & _).
  intros E. eapply sameOutside_trans; [exact H1|]. eapply sameOutside_trans; [exact H2|].
  eapply (removeExtraneous_frame _ Hnm (JsMap.keys ext2) fs2 fs' ch2); [done|done| |exact E].
  apply Forall_forall. intros key [d Hd]%JsMap_elem_of_keys. by destruct (Hsound2 _ _ Hd).
Qed.

Lemma reconcile_progress (dependencies : list (Descriptor * Locator)) (fs : xfs.Node) :
  plainDependent fs pkgPath →
  Forall (λ entry : Descriptor * Locator, wfIdent entry.1) dependencies →
  NoDup (dependencyKey <$> dependencies.*1) →
  Forall (linkable this (ppath.join pkgPath [nodeModules])) dependencies →
  ∃ fs', reconcile this pkgPath dependencies fs = (fs', Ok tt).
Proof.
  intros Hdep Hwf Hnodup Hlk. pose proof Hdep as [Hp _].
  assert (plainPath (pkgPath ++ [nodeModules])) as Hnm by by apply plainPath_snoc.
  destruct (mkdirpPromise_dependent_ok fs pkgPath Hdep) as (fs1 & ch1 & Emk & Hch1 & Hsc1 & _).
  unfold reconcile. plain_disk. unfold xfsRead. rewrite xfsWrite_bind, Emk.
  rewrite join_plain in * by by constructor.
  unfold mbind at 1. unfold StateErr_bind at 1.
  destruct (listExtraneous_disk fs1 _ ch1 Hnm Hch1 Hsc1) as (ext & -> & Hsound & Hcomplete).
  unfold mbind, StateErr_bind.
  destruct (linkDependencies_progress this _ Hnm dependencies [] fs1 ch1 ch1 ext Hch1
              (reconciling_start this _ ch1 ext Hsc1 Hsound Hcomplete) Hwf Hlk Hnodup)
    as (fs2 & ext2 & ch2 & -> & Hch2 & Hinv2).
  destruct Hinv2 as (Hsc2 & Hsound2 & _).
  destruct (removeExtraneous_post _ Hnm (JsMap.keys ext2) fs2 ch2 Hch2 Hsc2)
    as (fs3 & ch3 & -> & _).
  { apply Forall_forall. intros key [d Hd]%JsMap_elem_of_keys. by destruct (Hsound2 _ _ Hd). }
  by exists fs3.
Qed.

Lemma reconcile_repeated_name (before after : list (Descriptor * Locator))
    (descriptor : Descriptor) (dependency : Locator) (fs : xfs.Node) :
  plainDependent fs pkgPath →
  Forall (λ entry : Descriptor * Locator, wfIdent entry.1) (before ++ [(descriptor, dependency)]) →
  NoDup (dependencyKey <$> before.*1) →
  Forall (linkable this (ppath.join pkgPath [nodeModules]))
    (before ++ [(descriptor, dependency)]) →
  dependencyKey descriptor ∈ dependencyKey <$> before.*1 →
  ∃ fs',
    reconcile this pkgPath (before ++ (descriptor, dependency) :: after) fs
    = (fs', Err (FsError EEXIST)).
Proof.
  intros Hdep [Hwf Hwf1]%Forall_app Hnodup [Hlk Hlk1]%Forall_app Hin.
  apply Forall_inv in Hwf1, Hlk1. simpl in Hwf1. pose proof Hdep as [Hp _].
  assert (plainPath (pkgPath ++ [nodeModules])) as Hnm by by apply plainPath_snoc.
  destruct (mkdirpPromise_dependent_ok fs pkgPath Hdep) as (fs1 & ch1 & Emk & Hch1 & Hsc1 & _).
  unfold reconcile. plain_disk. unfold xfsRead. rewrite xfsWrite_bind, Emk.
  rewrite join_plain in * by by constructor.
  unfold mbind at 1. unfold StateErr_bind at 1.
  destruct (listExtraneous_disk fs1 _ ch1 Hnm Hch1 Hsc1) as (ext & -> & Hsound & Hcomplete).
  unfold mbind, StateErr_bind.
  destruct (linkDependencies_progress this _ Hnm before [] fs1 ch1 ch1 ext Hch1
              (reconciling_start this _ ch1 ext Hsc1 Hsound Hcomplete) Hwf Hlk Hnodup)
    as (fs2 & ext2 & ch2 & Ebefore & Hch2 & Hinv2).
  simpl in Hinv2. destruct Hinv2 as (Hsc2 & _ & _ & Hlinked2 & Hgone2 & _).
  rewrite linkDependencies_app, Ebefore, linkDependencies_cons.
  pose proof Hin as (entry & Hentry & Hk)%elem_of_dependencyKeys.
  rewrite Forall_forall in Hlinked2. destruct (Hlinked2 _ Hentry) as (src & _ & Hlink).
  rewrite <- Hk in Hlink.
  rewrite (linkDependency_again this _ Hnm fs2 ch2 ext2 descriptor dependency _
             Hch2 Hsc2 Hwf1 (Hgone2 _ Hin) Hlink Hlk1).
  by exists fs2.
Qed.

(** A dependent that has no dependency and no dependency directory yet is
    given an empty one, and that is all. *)
Lemma reconcile_nothing (fs : xfs.Node) (pch : gmap string xfs.Node) :
  plainPath pkgPath →
  xfs.lookupNode fs pkgPath = Some (xfs.Directory pch) →
  pch !! nodeModules = None →
  reconcile this pkgPath [] fs
  = (xfs.updateDir fs pkgPath (insert nodeModules (xfs.Directory ∅)), Ok tt).
Proof.
  intros Hp Hpch Hnone.
  assert (plainPath (pkgPath ++ [nodeModules])) as Hnm by by apply plainPath_snoc.
  unfold reconcile. plain_disk. unfold xfsRead. rewrite xfsWrite_bind, join_plain by by constructor.
  rewrite (mkdirpPromise_child fs pkgPath pch nodeModules Hp eq_refl Hpch), Hnone.
  2:{ intros t Et. by rewrite Hnone in Et. }
  unfold mbind at 1. unfold StateErr_bind at 1.
  unfold listExtraneous, scanDirectory.
  rewrite (readdirPromise_dir _ (pkgPath ++ [nodeModules]) ∅ Hnm).
  2:{ by rewrite lookupNode_snoc, (lookupNode_updateDir _ _ _ _ Hpch), lookup_insert_eq. }
  done.
Qed.

End ReconcileOutcome.

(** ** The call as a whole *)

Section AttachOutcome.

Context {su : structUtils.Impl}.

(** The call for a dependent that is reconciled, once the wait is over. *)
Lemma attachInternalDependencies_reconciles
    (locator : Locator) (dependencies : list (Descriptor * Locator)) (m m1 : Machine)
    (pkgPath : list string) :
  awaitPendingCopies m = (m1, Ok tt) →
  isPnpmVirtualCompatible (this m) locator = true →
  locations (this m) !! locatorHash locator = Some pkgPath →
  attachInternalDependencies locator dependencies m
  = (mkMachine (this m1) (reconcile (this m) pkgPath dependencies (disk m1)).1,
     (reconcile (this m) pkgPath dependencies (disk m1)).2).
Proof.
  intros Ewait Hc Hreg.
  rewrite (attachInternalDependencies_after_wait _ _ _ _ Ewait), Hc, Hreg. unfold negb.
  destruct (awaitPendingCopies_this _ _ _ Ewait) as (Ho & Hl & _).
  unfold onDisk. rewrite (reconcile_reads (this m) (this m1)) by done.
  by destruct (reconcile (this m) pkgPath dependencies (disk m1)).
Qed.

(** X10. The reconciliation ends well. Take a dependent that is reconciled,
    installed in a directory reached without links whose dependency
    directory, where there is one, has directories for scopes. When the
    dependencies have package names for identifiers, pairwise distinct, and
    each of them is registered, elsewhere than in the directory its link
    goes to, the call ends well once the copies are done, whatever the
    dependency directory held. *)
Theorem reconciliation_ends_well :
  ∀ (locator : Locator) (dependencies : list (Descriptor * Locator))
    (m m1 : Machine) (pkgPath : list string),
    awaitPendingCopies m = (m1, Ok tt) →
    isPnpmVirtualCompatible (this m) locator = true →
    locations (this m) !! locatorHash locator = Some pkgPath →
    plainDependent (disk m1) pkgPath →
    Forall (λ entry : Descriptor * Locator, wfIdent entry.1) dependencies →
    NoDup (dependencyKey <$> dependencies.*1) →
    Forall (linkable (this m) (ppath.join pkgPath [nodeModules])) dependencies →
    ∃ m', attachInternalDependencies locator dependencies m = (m', Ok tt).
Proof.
  intros locator dependencies m m1 pkgPath Ewait Hc Hreg Hdep Hwf Hnodup Hlk.
  rewrite (attachInternalDependencies_reconciles _ _ _ _ _ Ewait Hc Hreg).
  destruct (reconcile_progress (this m) pkgPath dependencies (disk m1) Hdep Hwf Hnodup Hlk)
    as [fs' ->].
  by eexists.
Qed.

(** X11. A name that comes twice is fatal. Take a dependent that is
    reconciled, installed in a directory reached without links whose
    dependency directory, where there is one, has directories for scopes.
    When the dependencies up to some point have package names for
    identifiers, pairwise distinct, each registered elsewhere than in the
    directory its link goes to, and the next one, registered as well, bears
    the name of one of them, the call fails with [EEXIST]: the entry of the
    name went out of the listing at its first turn, so at the second the
    link is created without a look at what is there, where the first link
    is. *)
Theorem repeated_name_fails_with_EEXIST :
  ∀ (locator : Locator) (before after : list (Descriptor * Locator))
    (descriptor : Descriptor) (dependency : Locator) (m m1 : Machine) (pkgPath : list string),
    awaitPendingCopies m = (m1, Ok tt) →
    isPnpmVirtualCompatible (this m) locator = true →
    locations (this m) !! locatorHash locator = Some pkgPath →
    plainDependent (disk m1) pkgPath →
    Forall (λ entry : Descriptor * Locator, wfIdent entry.1)
      (before ++ [(descriptor, dependency)]) →
    NoDup (dependencyKey <$> before.*1) →
    Forall (linkable (this m) (ppath.join pkgPath [nodeModules]))
      (before ++ [(descriptor, dependency)]) →
    dependencyKey descriptor ∈ dependencyKey <$> before.*1 →
    ∃ m',
      attachInternalDependencies locator (before ++ (descriptor, dependency) :: after) m
      = (m', Err (FsError EEXIST)).
Proof.
  intros locator before after descriptor dependency m m1 pkgPath Ewait Hc Hreg Hdep Hwf
    Hnodup Hlk Hin.
  rewrite (attachInternalDependencies_reconciles _ _ _ _ _ Ewait Hc Hreg).
  destruct (reconcile_repeated_name (this m) pkgPath before after descriptor dependency
              (disk m1) Hdep Hwf Hnodup Hlk Hin) as [fs' ->].
  by eexists.
Qed.

(** X12. The reconciliation stays in the dependency directory. Take a
    dependent that is reconciled, installed in a directory reached without
    links whose dependency directory, where there is one, has directories
    for scopes, and dependencies whose identifiers are package names.
    Whether the call ends well or fails on the way, the disk it leaves is
    the disk the wait left at every path that neither lies in the
    dependency directory of the dependent nor leads to it: the files of the
    dependent itself and whatever the disk holds elsewhere are as they
    were. *)
Theorem reconciliation_stays_in_the_dependency_directory :
  ∀ (locator : Locator) (dependencies : list (Descriptor * Locator))
    (m m1 : Machine) (pkgPath : list string),
    awaitPendingCopies m = (m1, Ok tt) →
    isPnpmVirtualCompatible (this m) locator = true →
    locations (this m) !! locatorHash locator = Some pkgPath →
    plainDependent (disk m1) pkgPath →
    Forall (λ entry : Descriptor * Locator, wfIdent entry.1) dependencies →
    sameOutside (pkgPath ++ [nodeModules]) (disk m1)
      (disk (attachInternalDependencies locator dependencies m).1).
Proof.
  intros locator dependencies m m1 pkgPath Ewait Hc Hreg Hdep Hwf.
  rewrite (attachInternalDependencies_reconciles _ _ _ _ _ Ewait Hc Hreg). cbn [fst disk].
  eapply reconcile_frame; [done|done|]. apply surjective_pairing.
Qed.

(** X13. No dependency and no dependency directory. For a dependent that is
    reconciled, installed in a directory reached without links that holds
    no dependency directory, the call with an empty list of dependencies
    ends well and creates the dependency directory, empty; nothing else
    changes on the disk. *)
Theorem no_dependency_leaves_an_empty_directory :
  ∀ (locator : Locator) (m m1 : Machine) (pkgPath : list string)
    (pch : gmap string xfs.Node),
    awaitPendingCopies m = (m1, Ok tt) →
    isPnpmVirtualCompatible (this m) locator = true →
    locations (this m) !! locatorHash locator = Some pkgPath →
    plainPath pkgPath →
    xfs.lookupNode (disk m1) pkgPath = Some (xfs.Directory pch) →
    pch !! nodeModules = None →
    attachInternalDependencies locator [] m
    = (mkMachine (this m1)
         (xfs.updateDir (disk m1) pkgPath (insert nodeModules (xfs.Directory ∅))),
       Ok tt).
Proof.
  intros locator m m1 pkgPath pch Ewait Hc Hreg Hp Hpch Hnone.
  rewrite (attachInternalDependencies_reconciles _ _ _ _ _ Ewait Hc Hreg).
  by rewrite (reconcile_nothing (this m) pkgPath (disk m1) pch Hp Hpch Hnone).
Qed.

End AttachOutcome.

(** ** The population of the store *)

Lemma clearPath_directory (n : xfs.Node) (p : list string) :
  clearPath n p = true → ∃ ch, n = xfs.Directory ch.
Proof. destruct n as [| |ch], p; try done; eauto. Qed.

Lemma clearPath_spec (fs : xfs.Node) (p : list string) :
  clearPath fs p = true
  ↔ ∀ q n, q `prefix_of` p → xfs.lookupNode fs q = Some n → xfs.kindOf n = xfs.KDirectory.
Proof.
  revert fs. induction p as [|s p IH]; intros fs.
  - split.
    + intros [ch ->]%clearPath_directory q n ->%prefix_nil_inv [= <-]. done.
    + intros H. specialize (H [] fs (prefix_nil _) eq_refl). by destruct fs.
  - split.
    + intros Hc q n Hq Hn. destruct (clearPath_directory _ _ Hc) as [ch ->].
      destruct q as [|k q]; [by injection Hn as <-|].
      apply prefix_cons_inv_1 in Hq as Hk. apply prefix_cons_inv_2 in Hq. subst k.
      simpl in *. destruct (ch !! s) as [c|]; [|done]. by eapply IH.
    + intros H. pose proof (H [] fs (prefix_nil _) eq_refl) as Hfs.
      destruct fs as [| |ch]; try done. simpl.
      destruct (ch !! s) as [c|] eqn:Ec; [|done]. apply IH.
      intros q n Hq Hn. apply (H (s :: q)); [by apply prefix_cons|]. simpl. by rewrite Ec.
Qed.

(** The prefixes of the path of a node are directories. *)
Lemma lookupNode_prefix (fs n : xfs.Node) (p q : list string) :
  xfs.lookupNode fs p = Some n → q `prefix_of` p → q ≠ p →
  ∃ ch, xfs.lookupNode fs q = Some (xfs.Directory ch).
Proof.
  intros Hp [r ->] Hne. rewrite lookupNode_app in Hp.
  destruct (xfs.lookupNode fs q) as [c|]; [|done]. simpl in Hp.
  destruct r as [|k r]; [by rewrite app_nil_r in Hne|].
  destruct c as [| |ch]; try done. eauto.
Qed.

(** Creating an empty directory where nothing was changes what is found at
    the paths that lead to it, and nothing else. *)
Lemma mkdir_fresh_frame (fs : xfs.Node) (base : list string) (bch : gmap string xfs.Node)
    (s : string) (p : list string) :
  xfs.lookupNode fs base = Some (xfs.Directory bch) → bch !! s = None →
  ¬ p `prefix_of` (base ++ [s]) →
  xfs.lookupNode (xfs.updateDir fs base (insert s (xfs.Directory ∅))) p
  = xfs.lookupNode fs p.
Proof.
  intros Hb Hs Hp.
  destruct (decide ((base ++ [s]) `prefix_of` p)) as [[r ->]|Hq].
  - destruct r as [|k r]; [destruct Hp; by rewrite app_nil_r|].
    rewrite (lookupNode_app fs (base ++ [s])), (lookupNode_snoc fs), Hb, Hs.
    rewrite (lookupNode_app _ (base ++ [s])), lookupNode_snoc,
      (lookupNode_updateDir _ _ _ _ Hb), lookup_insert_eq.
    done.
  - apply (lookupNode_updateDir_entry _ _ s); [intros; by apply insert_other|done|done].
Qed.

Lemma directoryAt_lookup (fs : xfs.Node) (p : list string) (ch : gmap string xfs.Node) :
  xfs.lookupNode fs p = Some (xfs.Directory ch) → directoryAt fs p = ch.
Proof. unfold directoryAt. by intros ->. Qed.

Lemma directoryAt_absent (fs : xfs.Node) (p : list string) :
  xfs.lookupNode fs p = None → directoryAt fs p = ∅.
Proof. unfold directoryAt. by intros ->. Qed.

(** [mkdirp] along a path that is clear: every level that is missing is
    created, empty, and nothing else changes. *)
Lemma mkdirpFrom_clear (todo base : list string) (fs bnode : xfs.Node) :
  plainPath base → plainPath todo →
  xfs.lookupNode fs base = Some bnode →
  clearPath bnode todo = true →
  ∃ fs',
    xfs.mkdirpFrom base todo fs = Ok fs'
    ∧ xfs.lookupNode fs' (base ++ todo)
      = Some (xfs.Directory (directoryAt fs (base ++ todo)))
    ∧ ∀ p, ¬ p `prefix_of` (base ++ todo) → xfs.lookupNode fs' p = xfs.lookupNode fs p.
Proof.
  revert base fs bnode. induction todo as [|s rest IH]; intros base fs bnode Hb Ht Hbn Hc.
  - destruct (clearPath_directory _ _ Hc) as [bch ->]. exists fs.
    rewrite app_nil_r. split; [done|]. split; [|done].
    by rewrite (directoryAt_lookup _ _ _ Hbn).
  - destruct (clearPath_directory _ _ Hc) as [bch ->].
    inversion Ht as [|? ? Hs Hrest]; subst. simpl in Hc.
    assert (plainPath (base ++ [s])) as Hbs by by apply plainPath_snoc.
    replace (base ++ s :: rest) with ((base ++ [s]) ++ rest) by by rewrite <- app_assoc.
    simpl. destruct (bch !! s) as [c|] eqn:Ec.
    + destruct (clearPath_directory _ _ Hc) as [cch ->].
      rewrite (existsSync_child fs base bch Hb Hbn s (xfs.Directory cch)) by done.
      apply (IH (base ++ [s]) fs (xfs.Directory cch)); [done|done| |done].
      by rewrite lookupNode_snoc, Hbn.
    + rewrite (existsSync_child_absent fs base bch Hb Hbn s) by done.
      rewrite (mkdirPromise_child fs base bch Hb Hbn), Ec.
      set (fs1 := xfs.updateDir fs base (insert s (xfs.Directory ∅))).
      assert (xfs.lookupNode fs1 (base ++ [s]) = Some (xfs.Directory ∅)) as H1.
      { unfold fs1. by rewrite lookupNode_snoc, (lookupNode_updateDir _ _ _ _ Hbn),
          lookup_insert_eq. }
      destruct (IH (base ++ [s]) fs1 (xfs.Directory ∅) Hbs Hrest H1) as (fs' & -> & Hat & Hfr).
      { by destruct rest. }
      exists fs'. split; [done|]. split.
      * rewrite Hat. do 2 f_equal.
        rewrite (directoryAt_absent fs).
        2:{ by rewrite lookupNode_app, lookupNode_snoc, Hbn, Ec. }
        destruct rest as [|k rest].
        -- rewrite app_nil_r. by apply directoryAt_lookup.
        -- apply directoryAt_absent. by rewrite lookupNode_app, H1.
      * intros p Hp. rewrite Hfr by done. apply (mkdir_fresh_frame _ _ bch); [done|done|].
        intros Hpre. apply Hp. etrans; [exact Hpre|]. by apply prefix_app_r.
Qed.

(** The copy task on a slot that can be created: it ends well, the slot
    holds the fetched package copied over what it held, and nothing changes
    outside of the slot. *)
Lemma copyJob_fills (pkgPath : list string) (fetchResult : FetchResult) (fs source : xfs.Node) :
  plainPath pkgPath → pkgPath ≠ [] →
  clearPath fs pkgPath = true →
  fetched fetchResult = Ok source →
  ∃ fs',
    copyJob pkgPath fetchResult fs = (fs', Ok tt)
    ∧ xfs.lookupNode fs' pkgPath
      = Some (xfs.copyNode false source (Some (xfs.Directory (directoryAt fs pkgPath))))
    ∧ sameOutside pkgPath fs fs'.
Proof.
  intros Hp Hne Hc Hsrc.
  destruct (mkdirpFrom_clear pkgPath [] fs fs (Forall_nil_2 _) Hp eq_refl Hc)
    as (fs1 & Emk & Hat & Hfr).
  simpl in Hat, Hfr. set (slot := directoryAt fs pkgPath) in *.
  unfold copyJob. rewrite xfsWrite_bind.
  assert (xfs.mkdirRecursive pkgPath fs = Ok fs1) as ->.
  { unfold xfs.mkdirRecursive, mbind, Result_bind. rewrite Emk.
    rewrite (realpath_linkfree fs1 (xfs.Directory slot) pkgPath) by done.
    by rewrite Hat. }
  unfold mbind at 1. unfold StateErr_bind at 1.
  unfold fetched in Hsrc. rewrite Hsrc.
  destruct (exists_last Hne) as (d & s & ->).
  apply plainPath_app in Hp as [Hd Hs].
  pose proof Hat as Hat'. rewrite lookupNode_snoc in Hat'.
  destruct (xfs.lookupNode fs1 d) as [[| |dch]|] eqn:Ed; try done.
  unfold xfsWrite, xfs.copyPromise. rewrite splitLast_snoc.
  unfold mbind, Result_bind.
  rewrite (mkdirpPromise_existing fs1 (xfs.Directory dch) d) by done.
  rewrite (resolveDir_linkfree fs1 d dch) by done.
  rewrite Hat'. eexists. split; [done|]. split.
  - by rewrite lookupNode_snoc, (lookupNode_updateDir _ _ _ _ Ed), lookup_insert_eq.
  - intros p Hdp Hpd. rewrite (lookupNode_updateDir_entry _ _ s);
      [by apply Hfr|intros; by apply insert_other|done|done].
Qed.

(** A directory copied to a place where nothing was is there as it is. *)
Lemma copyNode_fresh (source : xfs.Node) :
  xfs.copyNode false source None = source.
Proof.
  induction source as [source IH] using Node_children_ind.
  destruct source as [| |sch]; [done|done|].
  rewrite copyNode_directory. f_equal. apply map_eq. intros k.
  rewrite lookup_copyEntry, lookup_empty.
  destruct (sch !! k) as [c|] eqn:Ec; [|done]. simpl. f_equal. by eapply IH.
Qed.

Lemma copyNode_into_empty (sch : gmap string xfs.Node) :
  xfs.copyNode false (xfs.Directory sch) (Some (xfs.Directory ∅)) = xfs.Directory sch.
Proof. rewrite <- (copyNode_fresh (xfs.Directory sch)) at 2. done. Qed.

Lemma slots_apart (store : list string) (a b : string) :
  a ≠ b → ¬ (store ++ [a]) `prefix_of` (store ++ [b]).
Proof.
  intros Hne [k Hk]. rewrite <- app_assoc in Hk. apply app_inv_head in Hk.
  injection Hk as -> _. done.
Qed.

(** A path that is clear stays clear when a directory appears at a path
    that has nothing to do with it. *)
Lemma clearPath_after (fs fs1 : xfs.Node) (a b : list string) (ch : gmap string xfs.Node) :
  clearPath fs b = true →
  xfs.lookupNode fs1 a = Some (xfs.Directory ch) →
  sameOutside a fs fs1 →
  ¬ a `prefix_of` b → ¬ b `prefix_of` a →
  clearPath fs1 b = true.
Proof.
  rewrite !clearPath_spec. intros Hc Ha Hsame Hab Hba r n Hr Hn.
  destruct (decide (r `prefix_of` a)) as [Hra|Hra].
  - destruct (decide (r = a)) as [->|Hne]; [done|].
    destruct (lookupNode_prefix _ _ _ _ Ha Hra Hne) as [rch Hrch].
    rewrite Hrch in Hn. by injection Hn as <-.
  - rewrite Hsame in Hn; [by eapply Hc|intros Har; apply Hab; by etrans|done].
Qed.

(** What a copy leaves where a directory was is a directory. *)
Lemma copyNode_over_directory (source : xfs.Node) (dch : gmap string xfs.Node) :
  ∃ ch, xfs.copyNode false source (Some (xfs.Directory dch)) = xfs.Directory ch.
Proof. destruct source; simpl; eauto. Qed.

Section Population.

Variable store : list string.
Hypothesis Hstore : plainPath store.

Lemma slotTask_apart (fs : xfs.Node) (p q : Promise) :
  slotTask store fs p → slotTask store fs q → taskPath p ≠ taskPath q →
  ¬ taskPath p `prefix_of` taskPath q.
Proof using Type.
  intros (_ & (a & _ & Ha) & _) (_ & (b & _ & Hb) & _) Hne. rewrite Ha, Hb in *.
  apply slots_apart. by intros ->.
Qed.

Lemma settleAll_fills (ps : list Promise) (fs : xfs.Node) :
  NoDup (taskPath <$> ps) →
  Forall (slotTask store fs) ps →
  ∃ ps' fs',
    settleAll ps fs = (ps', fs')
    ∧ Forall (λ p, state p = Fulfilled) ps'
    ∧ Forall (populated fs fs') ps
    ∧ ∀ x, (∀ p, p ∈ ps → ¬ taskPath p `prefix_of` x ∧ ¬ x `prefix_of` taskPath p) →
           xfs.lookupNode fs' x = xfs.lookupNode fs x.
Proof using Hstore.
  revert fs. induction ps as [|p ps IH]; intros fs Hnodup Hall.
  - exists [], fs. split; [done|]. split; [constructor|]. split; [constructor|done].
  - simpl in Hnodup. apply NoDup_cons in Hnodup as [Hfresh Hnodup].
    inversion Hall as [|? ? Hp Hps]; subst.
    pose proof Hp as (Hpending & (slug & Hslug & Hpath) & Hclear & Hfetched).
    destruct (fetched (taskSource p)) as [source|] eqn:Hsrc; [|done].
    assert (plainPath (taskPath p)) as Hplain by (rewrite Hpath; by apply plainPath_snoc).
    assert (taskPath p ≠ []) as Hne by (rewrite Hpath; by destruct store).
    destruct (copyJob_fills (taskPath p) (taskSource p) fs source Hplain Hne Hclear Hsrc)
      as (fs1 & Ejob & Hslot & Hsame).
    assert (∀ q, q ∈ ps →
              ¬ taskPath p `prefix_of` taskPath q ∧ ¬ taskPath q `prefix_of` taskPath p)
      as Hapart.
    { intros q Hq. rewrite Forall_forall in Hps.
      assert (taskPath p ≠ taskPath q) as Hpq.
      { intros Heq. apply Hfresh. rewrite Heq. apply list_elem_of_fmap. eauto. }
      split; eapply slotTask_apart; eauto. }
    assert (Forall (slotTask store fs1) ps) as Hps1.
    { apply Forall_forall. intros q Hq. rewrite Forall_forall in Hps.
      destruct (Hps q Hq) as (Hq1 & Hq2 & Hq3 & Hq4). destruct (Hapart q Hq) as [Hpq Hqp].
      split; [done|]. split; [done|]. split; [|done].
      destruct (copyNode_over_directory source (directoryAt fs (taskPath p))) as [ch Hch].
      rewrite Hch in Hslot. by eapply (clearPath_after fs fs1 (taskPath p)). }
    destruct (IH fs1 Hnodup Hps1) as (ps' & fs2 & Erest & Hdone & Hpop & Hframe).
    eexists _, fs2. split; [|split; [|split]].
    + simpl. unfold settle. rewrite Hpending. unfold job. rewrite Ejob.
      by rewrite Erest.
    + by constructor.
    + constructor.
      * exists source. split; [done|]. rewrite Hframe; [done|].
        intros q Hq. destruct (Hapart q Hq). done.
      * rewrite Forall_forall in Hpop. apply Forall_forall. intros q Hq.
        destruct (Hpop q Hq) as (src & Hs & Hl). exists src. split; [done|].
        rewrite Hl. do 3 f_equal. unfold directoryAt.
        destruct (Hapart q Hq). by rewrite Hsame.
    + intros x Hx. rewrite Hframe.
      * apply Hsame; apply Hx; by left.
      * intros q Hq. apply Hx. by right.
Qed.

End Population.

(** X9. The store is populated. Take scheduled copies that have not run, for
    slots that are distinct entries of one directory, the store, reached by
    a path of plain names on which the disk has no file and no link, each
    of a package that was fetched. Then the wait ends well; afterwards
    each slot holds its package, copied over what the slot held before,
    nothing overwritten, and a slot that was not there holds exactly the
    directory that was fetched; and the disk is as it was at every path
    that neither lies in the store nor leads to it. *)
Theorem store_is_populated :
  ∀ (m : Machine) (store : list string),
    plainPath store →
    NoDup (taskPath <$> pendingCopies (this m)) →
    Forall (slotTask store (disk m)) (pendingCopies (this m)) →
    ∃ m1,
      awaitPendingCopies m = (m1, Ok tt)
      ∧ Forall (populated (disk m) (disk m1)) (pendingCopies (this m))
      ∧ Forall (λ p, ∀ sch,
                  xfs.lookupNode (disk m) (taskPath p) = None →
                  fetched (taskSource p) = Ok (xfs.Directory sch) →
                  xfs.lookupNode (disk m1) (taskPath p) = Some (xfs.Directory sch))
          (pendingCopies (this m))
      ∧ sameOutside store (disk m) (disk m1).
Proof.
  intros m store Hstore Hnodup Hall.
  destruct (settleAll_fills store Hstore _ _ Hnodup Hall)
    as (ps' & fs' & E & Hdone & Hpop & Hframe).
  exists (mkMachine (setPendingCopies ps' (this m)) fs').
  split; [|split; [done|split]].
  - unfold awaitPendingCopies, promiseAll.
    assert (firstRejected (pendingCopies (this m)) = None) as ->.
    { clear -Hall. induction Hall as [|p ps (Hp & _) _ IH]; [done|]. simpl. by rewrite Hp. }
    by rewrite E, (firstRejected_fulfilled _ Hdone).
  - cbn [disk]. rewrite Forall_forall in Hpop. apply Forall_forall. intros p Hp sch Habs Hsrc.
    destruct (Hpop p Hp) as (source & Hs & Hl). rewrite Hsrc in Hs. injection Hs as <-.
    by rewrite Hl, (directoryAt_absent _ _ Habs), copyNode_into_empty.
  - cbn [disk]. intros x Hsx Hxs. apply Hframe. intros p Hp.
    rewrite Forall_forall in Hall. destruct (Hall p Hp) as (_ & (slug & _ & ->) & _).
    by apply outside_entry.
Qed.

Lemma store_is_populated_witness :
  xfs.lookupNode (disk Sample.machine1)
    ["proj"; "node_modules"; ".store"; "left-pad-npm-1.0.0"] = None
  ∧ xfs.lookupNode (disk (awaitPendingCopies Sample.machine1).1)
      ["proj"; "node_modules"; ".store"; "left-pad-npm-1.0.0"]
    = Some (Sample.dir [("index.js", xfs.File "pad")]).
Proof.
  assert (plainPath ["proj"; "node_modules"; ".store"]) as Hstore by repeat constructor.
  assert (pendingCopies (this Sample.machine1)
          = [mkPromise ["proj"; "node_modules"; ".store"; "left-pad-npm-1.0.0"]
               Sample.leftPadFetch Pending;
             mkPromise ["proj"; "node_modules"; ".store"; "left-pad-virtual-5f3a-npm-1.0.0"]
               Sample.leftPadFetch Pending]) as Hps
    by (vm_compute; reflexivity).
  assert (NoDup (taskPath <$> pendingCopies (this Sample.machine1))) as Hnodup.
  { rewrite Hps. apply NoDup_cons.
    split; [by intros ?%list_elem_of_singleton|apply NoDup_singleton]. }
  assert (Forall (slotTask ["proj"; "node_modules"; ".store"] (disk Sample.machine1))
            (pendingCopies (this Sample.machine1))) as Hall.
  { rewrite Hps. repeat constructor; try (vm_compute; reflexivity).
    - by exists "left-pad-npm-1.0.0".
    - by exists "left-pad-virtual-5f3a-npm-1.0.0". }
  assert (xfs.lookupNode (disk Sample.machine1)
            ["proj"; "node_modules"; ".store"; "left-pad-npm-1.0.0"] = None) as Habs
    by (vm_compute; reflexivity).
  split; [exact Habs|].
  destruct (store_is_populated Sample.machine1 _ Hstore Hnodup Hall)
    as (m1 & -> & _ & Hfresh & _).
  rewrite Forall_forall in Hfresh.
  apply (Hfresh (mkPromise ["proj"; "node_modules"; ".store"; "left-pad-npm-1.0.0"]
                   Sample.leftPadFetch Pending)).
  - rewrite Hps. by left.
  - exact Habs.
  - vm_compute. reflexivity.
Defined.

(** ** Following the links of a dependency directory *)

Lemma follow_climb (hops : nat) (fs : xfs.Node) (cur up rest : list string) :
  xfs.follow hops fs (cur ++ up) (replicate (length up) ".." ++ rest)
  = xfs.follow hops fs cur rest.
Proof.
  induction up as [|x up IH] using rev_ind.
  - by rewrite app_nil_r.
  - rewrite length_app. simpl. rewrite Nat.add_1_r. simpl.
    rewrite follow_cons. simpl. by rewrite app_assoc, removelast_last.
Qed.

Lemma isAbsolute_relative (from to : list string) :
  plainPath to → xfs.isAbsolute (ppath.relative from to) = false.
Proof.
  intros Hto. unfold ppath.relative.
  destruct (ppath.stripCommon from to) as [up down] eqn:E.
  destruct (stripCommon_spec _ _ _ _ E) as (common & -> & ->).
  apply plainPath_app in Hto as [_ Hdown].
  destruct up as [|u up]; simpl; [|done].
  destruct down as [|s down]; [done|]. simpl.
  apply Forall_inv in Hdown. apply isPlainSegment_spec in Hdown as [Hdot _].
  apply bool_decide_eq_false_2. intros ->. done.
Qed.

(** From a directory [from], the relative path to [to] leads to [to] when
    [to] is reached without links. *)
Lemma follow_relative (hops : nat) (fs n : xfs.Node) (from to : list string) :
  plainPath to → xfs.lookupNode fs to = Some n → notLink n →
  xfs.follow hops fs from (ppath.relative from to) = Ok to.
Proof.
  intros Hto Hn Hnl. unfold ppath.relative.
  destruct (ppath.stripCommon from to) as [up down] eqn:E.
  destruct (stripCommon_spec _ _ _ _ E) as (common & -> & ->).
  rewrite follow_climb. apply plainPath_app in Hto as [_ Hdown].
  by apply (follow_linkfree _ _ n).
Qed.

(** The real path of a link to [to], written in a directory reached without
    links, is [to]. *)
Lemma realpath_link (fs n : xfs.Node) (d : list string) (ch : gmap string xfs.Node)
    (s : string) (to : list string) :
  plainPath d → isPlainSegment s = true →
  xfs.lookupNode fs d = Some (xfs.Directory ch) →
  ch !! s = Some (xfs.Symlink (ppath.relative d to)) →
  plainPath to → xfs.lookupNode fs to = Some n → notLink n →
  xfs.realpath fs (d ++ [s]) = Ok to.
Proof.
  intros Hd Hs Hch Hlink Hto Hn Hnl. unfold xfs.realpath, xfs.maxHops.
  rewrite (follow_linkfree_app _ _ (xfs.Directory ch) [] d [s]) by done.
  rewrite follow_cons. apply isPlainSegment_spec in Hs as [-> Hs].
  rewrite bool_decide_eq_false_2 by done. simpl app. rewrite Hch, Hlink.
  rewrite (isAbsolute_relative d to Hto), app_nil_r.
  by apply (follow_relative _ _ n).
Qed.

Lemma realpath_dependency (fs n : xfs.Node)
    (nmPath src : list string) (ch : gmap string xfs.Node) (descriptor : Descriptor) :
  plainPath nmPath →
  xfs.lookupNode fs nmPath = Some (xfs.Directory ch) →
  wfIdent descriptor →
  entryAt ch (dependencyKey descriptor)
  = Some (xfs.Symlink (desiredTarget nmPath descriptor src)) →
  plainPath src → xfs.lookupNode fs src = Some n → notLink n →
  xfs.realpath fs (ppath.join nmPath (dependencyKey descriptor)) = Ok src.
Proof.
  intros Hnm Hch Hwf Hat Hsrc Hn Hnl.
  destruct (dependencyKey_entryKey _ Hwf) as [Hkey Hplain].
  unfold desiredTarget in Hat. rewrite (join_plain _ _ Hplain) in *.
  destruct (dependencyKey descriptor) as [|s [|c [|]]]; try done.
  - rewrite entryAt_one in Hat. apply entryKey_one in Hkey as (Hs & _).
    unfold ppath.dirname in Hat. rewrite removelast_last in Hat.
    by apply (realpath_link fs n nmPath ch).
  - rewrite entryAt_two in Hat. apply entryKey_two in Hkey as [Hs Hc].
    destruct (startsWith_at_plain _ Hs) as [Hps _].
    destruct (ch !! s) as [[| |sub]|] eqn:Es; try done.
    change (nmPath ++ [s; c]) with (nmPath ++ [s] ++ [c]) in *. rewrite app_assoc in *.
    unfold ppath.dirname in Hat. rewrite removelast_last in Hat.
    apply (realpath_link fs n (nmPath ++ [s]) sub); try done.
    + by apply plainPath_snoc.
    + by rewrite lookupNode_snoc, Hch.
Qed.

Section Resolution.

Context {su : structUtils.Impl}.

(** X14. The links lead to the packages. Take a dependent that is reconciled,
    installed in a directory reached without links whose dependency
    directory, where there is one, has directories for scopes, and
    dependencies whose identifiers are package names. When the call has
    ended well, the path of each dependency in the dependency directory,
    followed through the links of the disk, is the path registered for the
    dependency (or for the locator it devirtualizes to), provided that path
    is made of plain names and is reached on the disk without links. *)
Theorem links_lead_to_the_registered_packages :
  ∀ (locator : Locator) (dependencies : list (Descriptor * Locator))
    (m m1 m' : Machine) (pkgPath : list string),
    Forall (λ entry : Descriptor * Locator, wfIdent entry.1) dependencies →
    awaitPendingCopies m = (m1, Ok tt) →
    isPnpmVirtualCompatible (this m) locator = true →
    locations (this m) !! locatorHash locator = Some pkgPath →
    plainDependent (disk m1) pkgPath →
    attachInternalDependencies locator dependencies m = (m', Ok tt) →
    Forall (λ entry : Descriptor * Locator,
        ∀ src n,
          locations (this m) !! locatorHash (targetDependency (this m) entry.2) = Some src →
          plainPath src → xfs.lookupNode (disk m') src = Some n → notLink n →
          xfs.realpath (disk m')
            (ppath.join (ppath.join pkgPath [nodeModules]) (dependencyKey entry.1))
          = Ok src)
      dependencies.
Proof.
  intros locator dependencies m m1 m' pkgPath Hwf Ewait Hc Hreg Hdep.
  rewrite (attachInternalDependencies_reconciles _ _ _ _ _ Ewait Hc Hreg).
  destruct (reconcile (this m) pkgPath dependencies (disk m1)) as [fs' r] eqn:E.
  intros [= <- ->]. cbn [disk].
  pose proof Hdep as [Hp _].
  assert (plainPath (pkgPath ++ [nodeModules])) as Hnm by by apply plainPath_snoc.
  destruct (reconcile_post (this m) pkgPath dependencies (disk m1) fs' Hdep Hwf E)
    as (ch1 & ch' & _ & Hch' & _ & _ & Hlinked & _).
  rewrite (join_plain pkgPath [nodeModules]) by by constructor.
  rewrite Forall_forall in Hlinked, Hwf. apply Forall_forall.
  intros entry Hin src n Hsrc Hplain Hn Hnl.
  destruct (Hlinked _ Hin) as (src' & Hsrc' & Hlk).
  rewrite Hsrc in Hsrc'. injection Hsrc' as <-.
  exact (realpath_dependency fs' n (pkgPath ++ [nodeModules]) src ch' entry.1
           Hnm Hch' (Hwf _ Hin) Hlk Hplain Hn Hnl).
Qed.

End Resolution.

Lemma links_lead_to_the_registered_packages_witness :
  @attachInternalDependencies Sample.impl Sample.rootLocator Sample.rootDependencies
    Sample.machine1
  = (Sample.machine3, Ok tt)
  ∧ xfs.realpath (disk Sample.machine3) ["proj"; "node_modules"; "left-pad"]
    = Ok ["proj"; "node_modules"; ".store"; "left-pad-npm-1.0.0"]
  ∧ xfs.lookupNode (disk Sample.machine3)
      ["proj"; "node_modules"; ".store"; "left-pad-npm-1.0.0"; "index.js"]
    = Some (xfs.File "pad").
Proof.
  assert (awaitPendingCopies Sample.machine1 = (Sample.machine2, Ok tt)) as Ewait
    by (vm_compute; reflexivity).
  assert (@isPnpmVirtualCompatible Sample.impl (this Sample.machine1) Sample.rootLocator
          = true) as Hc by (vm_compute; reflexivity).
  assert (locations (this Sample.machine1) !! locatorHash Sample.rootLocator = Some ["proj"])
    as Hreg by (vm_compute; reflexivity).
  assert (plainDependent (disk Sample.machine2) ["proj"]) as Hdep
    by (apply plainDependent_check; vm_compute; reflexivity).
  assert (@attachInternalDependencies Sample.impl Sample.rootLocator Sample.rootDependencies
            Sample.machine1 = (Sample.machine3, Ok tt)) as E
    by (vm_compute; reflexivity).
  split; [exact E|]. split; [|vm_compute; reflexivity].
  pose proof (@links_lead_to_the_registered_packages Sample.impl _ _ _ _ _ _
                rootDependencies_wf Ewait Hc Hreg Hdep E) as Hall.
  apply Forall_inv in Hall.
  apply (Hall ["proj"; "node_modules"; ".store"; "left-pad-npm-1.0.0"]
           (Sample.dir [("index.js", xfs.File "pad")])).
  - vm_compute. reflexivity.
  - repeat constructor.
  - vm_compute. reflexivity.
  - discriminate.
Defined.

(** ** What a turn changes in the dependency directory, whatever its outcome *)

Section KeyOutcomes.

Variables (fs : xfs.Node) (nmPath : list string) (ch : gmap string xfs.Node).
Hypothesis Hnm : plainPath nmPath.
Hypothesis Hch : xfs.lookupNode fs nmPath = Some (xfs.Directory ch).
Hypothesis Hsc : scopesAreDirectories ch.

(** The two calls that create the link of a key change the entry of the
    key, and the scope that holds it, at most. *)
Lemma create_outcome {A} (key t : list string) (k : StateErr xfs.Node A) (fs' : xfs.Node)
    (r : Result A) :
  entryKey key = true →
  (∀ fs0, (k fs0).1 = fs0) →
  (xfsWrite (xfs.mkdirpPromise (ppath.dirname (ppath.join nmPath key)));;
   xfsWrite (xfs.symlinkPromise t (ppath.join nmPath key));; k) fs = (fs', r) →
  ∃ ch' x, xfs.lookupNode fs' nmPath = Some (xfs.Directory ch') ∧ updatedAt key x ch ch'.
Proof using Hnm Hch Hsc.
  intros Hkey Hk. rewrite (join_plain _ _ (entryKey_plain _ Hkey)).
  destruct key as [|s [|c [|]]]; try done.
  - unfold ppath.dirname. rewrite removelast_last, xfsWrite_bind.
    rewrite (mkdirpPromise_existing fs (xfs.Directory ch)) by done.
    rewrite xfsWrite_bind, (symlinkPromise_child fs nmPath ch Hnm Hch).
    assert (∃ ch' x, xfs.lookupNode fs nmPath = Some (xfs.Directory ch')
                     ∧ updatedAt [s] x ch ch') as Hsame
      by (exists ch, (entryAt ch [s]); split; [done|by apply updatedAt_refl]).
    destruct t as [|t0 t']; [by intros [= <- _]|].
    destruct (ch !! s) eqn:Es; [by intros [= <- _]|].
    intros E.
    pose proof (Hk (xfs.updateDir fs nmPath (insert s (xfs.Symlink (t0 :: t'))))) as Hst.
    rewrite E in Hst. simpl in Hst. subst fs'.
    eexists _, _. split; [by rewrite (lookupNode_updateDir _ _ _ _ Hch)|].
    exact (updatedAt_top s (Some (xfs.Symlink (t0 :: t'))) ch Hkey Hsc).
  - pose proof Hkey as [Hs Hc]%entryKey_two.
    destruct (startsWith_at_plain _ Hs) as [Hps _].
    change (nmPath ++ [s; c]) with (nmPath ++ [s] ++ [c]). rewrite app_assoc.
    unfold ppath.dirname. rewrite removelast_last, xfsWrite_bind.
    rewrite (mkdirpPromise_child fs nmPath ch s Hnm Hps Hch).
    2:{ intros t' Et'. by specialize (Hsc s _ Hs Et'). }
    destruct (ch !! s) as [node|] eqn:Es.
    + destruct (scopesAreDirectories_lookup _ _ _ Hsc Hs Es) as [sub ->].
      rewrite xfsWrite_bind, (symlinkPromise_child fs (nmPath ++ [s]) sub);
        [|by apply plainPath_snoc|by rewrite lookupNode_snoc, Hch].
      assert (∃ ch' x, xfs.lookupNode fs nmPath = Some (xfs.Directory ch')
                       ∧ updatedAt [s; c] x ch ch') as Hsame
        by (exists ch, (entryAt ch [s; c]); split; [done|by apply updatedAt_refl]).
      destruct t as [|t0 t']; [by intros [= <- _]|].
      destruct (sub !! c) eqn:Ec; [by intros [= <- _]|].
      intros E.
      pose proof (Hk (xfs.updateDir fs (nmPath ++ [s])
                        (insert c (xfs.Symlink (t0 :: t'))))) as Hst.
      rewrite E in Hst. simpl in Hst. subst fs'.
      eexists _, _. split; [by rewrite (lookupNode_updateDir_scope fs nmPath ch Hch s sub)|].
      exact (updatedAt_scoped s c (Some (xfs.Symlink (t0 :: t'))) ch sub Hkey Hsc
               (or_introl Es)).
    + set (fs1 := xfs.updateDir fs nmPath (insert s (xfs.Directory ∅))).
      assert (xfs.lookupNode fs1 nmPath = Some (xfs.Directory (<[s := xfs.Directory ∅]> ch)))
        as Hch1 by (unfold fs1; by rewrite (lookupNode_updateDir _ _ _ _ Hch)).
      rewrite xfsWrite_bind, (symlinkPromise_child fs1 (nmPath ++ [s]) ∅);
        [|by apply plainPath_snoc|by rewrite lookupNode_snoc, Hch1, lookup_insert_eq].
      assert (∃ ch' x, xfs.lookupNode fs1 nmPath = Some (xfs.Directory ch')
                       ∧ updatedAt [s; c] x ch ch') as Hsame.
      { eexists _, None. split; [exact Hch1|].
        pose proof (updatedAt_scoped s c None ch ∅ Hkey Hsc (or_intror (conj Es eq_refl)))
          as Hup.
        replace (partial_alter (λ _, None) c (∅ : gmap string xfs.Node))
          with (∅ : gmap string xfs.Node) in Hup; [done|].
        symmetry. exact (delete_id ∅ c (lookup_empty c)). }
      destruct t as [|t0 t']; [by intros [= <- _]|].
      rewrite lookup_empty. intros E.
      pose proof (Hk (xfs.updateDir fs1 (nmPath ++ [s])
                        (insert c (xfs.Symlink (t0 :: t'))))) as Hst.
      rewrite E in Hst. simpl in Hst. subst fs'.
      eexists _, _. split.
      * rewrite (lookupNode_updateDir_app _ _ _ _ _ Hch1). simpl.
        by rewrite lookup_insert_eq, insert_insert_eq.
      * exact (updatedAt_scoped s c (Some (xfs.Symlink (t0 :: t'))) ch ∅ Hkey Hsc
                 (or_intror (conj Es eq_refl))).
Qed.

End KeyOutcomes.

Section TurnChanges.

Context {su : structUtils.Impl}.
Variables (this : PnpmInstaller) (nmPath : list string).
Hypothesis Hnm : plainPath nmPath.

Lemma linkDependency_outcome (fs fs' : xfs.Node) (ch : gmap string xfs.Node)
    (ext : JsMap.t xfs.Dirent) (descriptor : Descriptor) (dependency : Locator)
    (r : Result (JsMap.t xfs.Dirent)) :
  xfs.lookupNode fs nmPath = Some (xfs.Directory ch) →
  scopesAreDirectories ch →
  wfIdent descriptor →
  linkDependency this nmPath ext (descriptor, dependency) fs = (fs', r) →
  ∃ ch' x, xfs.lookupNode fs' nmPath = Some (xfs.Directory ch')
           ∧ updatedAt (dependencyKey descriptor) x ch ch'.
Proof using Hnm.
  intros Hch Hsc Hwf. destruct (dependencyKey_entryKey _ Hwf) as [Hkey _].
  assert (∃ ch' x, xfs.lookupNode fs nmPath = Some (xfs.Directory ch')
                   ∧ updatedAt (dependencyKey descriptor) x ch ch') as Hsame
    by (exists ch, (entryAt ch (dependencyKey descriptor));
        split; [done|by apply updatedAt_refl]).
  unfold linkDependency. plain_disk.
  destruct (locations this !! _) as [src|] eqn:El; [|by intros [= <- _]].
  cbv zeta.
  change (toPortablePath (structUtils.stringifyIdent descriptor))
    with (dependencyKey descriptor).
  set (key := dependencyKey descriptor) in *.
  set (t := ppath.relative (ppath.dirname (ppath.join nmPath key)) src).
  assert (∀ (k : StateErr xfs.Node (JsMap.t xfs.Dirent)),
    k = (xfsWrite (xfs.mkdirpPromise (ppath.dirname (ppath.join nmPath key)));;
         xfsWrite (xfs.symlinkPromise t (ppath.join nmPath key));;
         mret (JsMap.delete key ext)) →
    (xfsWrite (xfs.removePromise (ppath.join nmPath key));; k) fs = (fs', r) →
    ∃ ch' x, xfs.lookupNode fs' nmPath = Some (xfs.Directory ch')
             ∧ updatedAt key x ch ch') as Hreplace.
  { intros k -> E. rewrite xfsWrite_bind in E.
    destruct (removePromise_key fs nmPath ch Hnm Hch Hsc key Hkey)
      as (fs1 & ch1 & Hrm & Hch1 & Hup1).
    rewrite Hrm in E. pose proof Hup1 as (_ & _ & _ & Hsc1).
    destruct (create_outcome fs1 nmPath ch1 Hnm Hch1 Hsc1 key t _ fs' r Hkey
                (λ fs0, mret_state _ fs0) E) as (ch' & x & Hch' & Hup).
    exists ch', x. split; [done|]. by eapply updatedAt_trans. }
  destruct (JsMap.get key ext) as [existing|].
  - destruct (xfs.isSymbolicLink existing).
    + rewrite xfsRead_bind. destruct (xfs.readlinkPromise _ fs) as [cur|e].
      * case_bool_decide; [by intros [= <- _]|by apply Hreplace].
      * by intros [= <- _].
    + by apply Hreplace.
  - intros E.
    exact (create_outcome fs nmPath ch Hnm Hch Hsc key t _ fs' r Hkey
             (λ fs0, mret_state _ fs0) E).
Qed.

(** The loop over the dependencies changes the entries the dependencies
    name, and the scopes that hold them, at most. *)
Lemma linkDependencies_outcome (dependencies : list (Descriptor * Locator))
    (fs fs' : xfs.Node) (ch : gmap string xfs.Node) (ext : JsMap.t xfs.Dirent)
    (r : Result (JsMap.t xfs.Dirent)) :
  xfs.lookupNode fs nmPath = Some (xfs.Directory ch) →
  scopesAreDirectories ch →
  Forall (λ entry : Descriptor * Locator, wfIdent entry.1) dependencies →
  linkDependencies this nmPath dependencies ext fs = (fs', r) →
  ∃ ch',
    xfs.lookupNode fs' nmPath = Some (xfs.Directory ch')
    ∧ scopesAreDirectories ch'
    ∧ (∀ key, entryKey key = true → key ∉ dependencyKey <$> dependencies.*1 →
              entryAt ch' key = entryAt ch key)
    ∧ (∀ n, startsWith n "." = true → ch' !! n = ch !! n).
Proof using Hnm.
  revert fs ch ext.
  induction dependencies as [|[descriptor dependency] rest IH]; intros fs ch ext Hch Hsc Hwf.
  - intros [= <- _]. by exists ch.
  - rewrite linkDependencies_cons. inversion Hwf as [|? ? Hwf1 Hwfr]; subst. simpl in Hwf1.
    destruct (linkDependency this nmPath ext (descriptor, dependency) fs)
      as [fs1 r1] eqn:E.
    destruct (linkDependency_outcome fs fs1 ch ext descriptor dependency r1 Hch Hsc Hwf1 E)
      as (ch1 & x & Hch1 & (_ & Hother & Hdots & Hsc1)).
    assert (∀ key, entryKey key = true →
                   key ∉ dependencyKey <$> ((descriptor, dependency) :: rest).*1 →
                   entryAt ch1 key = entryAt ch key) as Hfirst.
    { intros key Hkey Hout. apply Hother; [done|]. intros ->. apply Hout. by left. }
    destruct r1 as [ext1|e].
    + intros Hrest.
      destruct (IH fs1 ch1 ext1 Hch1 Hsc1 Hwfr Hrest) as (ch' & Hch' & Hsc' & Hkeep & Hd').
      exists ch'. split; [done|]. split; [done|]. split.
      * intros key Hkey Hout. rewrite Hkeep, Hfirst; [done..|].
        intros Hin. apply Hout. by right.
      * intros n Hn. by rewrite Hd', Hdots.
    + intros [= <- _]. by exists ch1.
Qed.

End TurnChanges.

Section FailedReconciliation.

Context {su : structUtils.Impl}.

Lemma reconcile_failed (this : PnpmInstaller) (pkgPath : list string)
    (dependencies : list (Descriptor * Locator)) (fs fs' : xfs.Node) (e : Error) :
  plainDependent fs pkgPath →
  Forall (λ entry : Descriptor * Locator, wfIdent entry.1) dependencies →
  reconcile this pkgPath dependencies fs = (fs', Err e) →
  (∀ key, entryKey key = true → key ∉ dependencyKey <$> dependencies.*1 →
          xfs.lookupNode fs' ((pkgPath ++ [nodeModules]) ++ key)
          = xfs.lookupNode fs ((pkgPath ++ [nodeModules]) ++ key))
  ∧ (∀ n, startsWith n "." = true →
          xfs.lookupNode fs' (pkgPath ++ [nodeModules; n])
          = xfs.lookupNode fs (pkgPath ++ [nodeModules; n])).
Proof.
  intros Hdep Hwf. pose proof Hdep as [Hp _].
  assert (plainPath (pkgPath ++ [nodeModules])) as Hnm by by apply plainPath_snoc.
  unfold reconcile. plain_disk. unfold xfsRead. rewrite xfsWrite_bind.
  destruct (xfs.mkdirpPromise _ fs) as [fs1|e1] eqn:Emk.
  2:{ by intros [= <- _]. }
  destruct (mkdirpPromise_dependent _ _ _ Hdep Emk) as (ch1 & Hch1 & Hsc1 & Horig).
  rewrite join_plain by by constructor.
  unfold mbind at 1. unfold StateErr_bind at 1.
  destruct (listExtraneous_disk fs1 _ ch1 Hnm Hch1 Hsc1) as (ext & -> & Hsound & Hcomplete).
  unfold mbind, StateErr_bind.
  destruct (linkDependencies this _ dependencies ext fs1) as [fs2 r2] eqn:Elink.
  destruct (linkDependencies_outcome this _ Hnm dependencies fs1 fs2 ch1 ext r2 Hch1 Hsc1
              Hwf Elink) as (ch2 & Hch2 & Hsc2 & Hkeep & Hdots).
  destruct r2 as [ext2|e2].
  - destruct (linkDependencies_post this _ Hnm dependencies [] fs1 fs2 ch1 ch1 ext ext2
                Hch1 (reconciling_start this _ ch1 ext Hsc1 Hsound Hcomplete)
                Hwf Elink) as (ch2' & Hch2' & (Hsc2' & Hsound2 & _)).
    destruct (removeExtraneous_post _ Hnm (JsMap.keys ext2) fs2 ch2' Hch2' Hsc2')
      as (fs3 & ch3 & -> & _); [|done].
    apply Forall_forall. intros key [d Hd]%JsMap_elem_of_keys. by destruct (Hsound2 _ _ Hd).
  - intros [= <- _].
    assert (∀ key, xfs.lookupNode fs ((pkgPath ++ [nodeModules]) ++ key) = entryAt ch1 key
                   ∨ key = []) as Hbefore.
    { intros key. destruct key as [|k key]; [by right|]. left.
      rewrite lookupNode_app.
      destruct (xfs.lookupNode fs (pkgPath ++ [nodeModules])) as [node|].
      - destruct Horig as [-> _]. done.
      - subst ch1. done. }
    split.
    + intros key Hkey Hout. rewrite (lookupNode_entry _ _ _ ch2 Hch2), Hkeep by done.
      destruct (Hbefore key) as [->| ->]; done.
    + intros n Hn.
      change (pkgPath ++ [nodeModules; n]) with (pkgPath ++ [nodeModules] ++ [n]).
      rewrite !app_assoc, (lookupNode_entry _ _ _ ch2 Hch2), entryAt_one, (Hdots n Hn).
      destruct (Hbefore [n]) as [->|?]; [|done]. by rewrite entryAt_one.
Qed.

(** X15. A reconciliation that fails cleans nothing up. For a dependent that is
    reconciled, installed in a directory reached without links whose
    dependency directory, where there is one, has directories for scopes,
    and dependencies whose identifiers are package names: when the call
    fails after the wait, every entry of the dependency directory that
    bears the name of no dependency, and every entry whose name starts with
    a dot, is on the disk as the wait left it. The entries that are no
    dependency are removed by a call that ends well only. *)
Theorem failed_reconciliation_removes_nothing :
  ∀ (locator : Locator) (dependencies : list (Descriptor * Locator))
    (m m1 m' : Machine) (pkgPath : list string) (e : Error),
    awaitPendingCopies m = (m1, Ok tt) →
    isPnpmVirtualCompatible (this m) locator = true →
    locations (this m) !! locatorHash locator = Some pkgPath →
    plainDependent (disk m1) pkgPath →
    Forall (λ entry : Descriptor * Locator, wfIdent entry.1) dependencies →
    attachInternalDependencies locator dependencies m = (m', Err e) →
    (∀ key, entryKey key = true → key ∉ dependencyKey <$> dependencies.*1 →
            xfs.lookupNode (disk m') ((pkgPath ++ [nodeModules]) ++ key)
            = xfs.lookupNode (disk m1) ((pkgPath ++ [nodeModules]) ++ key))
    ∧ (∀ n, startsWith n "." = true →
            xfs.lookupNode (disk m') (pkgPath ++ [nodeModules; n])
            = xfs.lookupNode (disk m1) (pkgPath ++ [nodeModules; n])).
Proof.
  intros locator dependencies m m1 m' pkgPath e Ewait Hc Hreg Hdep Hwf.
  rewrite (attachInternalDependencies_reconciles _ _ _ _ _ Ewait Hc Hreg).
  destruct (reconcile (this m) pkgPath dependencies (disk m1)) as [fs' r] eqn:E.
  intros [= <- ->]. cbn [disk]. by eapply reconcile_failed.
Qed.

End FailedReconciliation.

(** ** What every call keeps *)

Section Invariants.

Context {su : structUtils.Impl}.

Lemma installPackage_locations (pkg : Package) (fetchResult : FetchResult) (m : Machine)
    (h : string) :
  is_Some (locations (this m) !! h) →
  is_Some (locations (this (installPackage pkg fetchResult m).1) !! h).
Proof.
  intros Hh. unfold installPackage.
  destruct (linkType pkg); simpl; [| |done]; rewrite lookup_insert_is_Some;
    destruct (decide (locatorHash pkg = h)); auto.
Qed.

Lemma perform_state (c : Call) (m : Machine) :
  (perform c m).1
  = match c with
    | CallInstallPackage pkg fetchResult => (installPackage pkg fetchResult m).1
    | CallAttachInternalDependencies locator dependencies =>
        (attachInternalDependencies locator dependencies m).1
    | _ => m
    end.
Proof.
  destruct c as [pkg fetchResult|locator dependencies|locator dependentPaths|];
    unfold perform, mbind, StateErr_bind.
  - by destruct (installPackage pkg fetchResult m) as [m1 [status|e]].
  - by destruct (attachInternalDependencies locator dependencies m) as [m1 [[]|e]].
  - done.
  - unfold finalizeInstall, mbind, StateErr_bind, getThis. by destruct (negb _).
Qed.

Lemma perform_keeps (c : Call) (m : Machine) :
  opts (this (perform c m).1) = opts (this m)
  ∧ customData (this (perform c m).1) = customData (this m)
  ∧ (∀ h, is_Some (locations (this m) !! h) →
          is_Some (locations (this (perform c m).1) !! h))
  ∧ (length (pendingCopies (this m)) <= length (pendingCopies (this (perform c m).1)))%nat.
Proof.
  rewrite perform_state.
  destruct c as [pkg fetchResult|locator dependencies|locator dependentPaths|]; [| |done..].
  - destruct (installPackage_step pkg fetchResult m) as (_ & Ho & Hc & Hp).
    split; [done|]. split; [done|]. split; [intros h; apply installPackage_locations|].
    rewrite Hp, length_app. lia.
  - destruct (awaitPendingCopies m) as [m1 r] eqn:E.
    rewrite (attachInternalDependencies_this _ _ _ _ _ E).
    destruct (awaitPendingCopies_this _ _ _ E) as (Ho & Hl & Hc).
    split; [done|]. split; [done|]. split; [by rewrite Hl|].
    by rewrite (Forall2_length _ _ _ (awaitPendingCopies_later _ _ _ E)).
Qed.

(** X16. Through any sequence of installs, attachments of internal
    dependencies, attachments of external dependents and finalizations,
    whatever each of them answers, the installer keeps its options and its
    custom data, a locator that is registered stays registered, and no
    scheduled copy is dropped. *)
Theorem registered_packages_stay_registered :
  ∀ (calls : list Call) (m : Machine),
    opts (this (performAll calls m).1) = opts (this m)
    ∧ customData (this (performAll calls m).1) = customData (this m)
    ∧ (∀ h, is_Some (locations (this m) !! h) →
            is_Some (locations (this (performAll calls m).1) !! h))
    ∧ (length (pendingCopies (this m))
       <= length (pendingCopies (this (performAll calls m).1)))%nat.
Proof.
  induction calls as [|c calls IH]; intros m; [done|].
  rewrite performAll_cons. cbn [fst].
  destruct (perform_keeps c m) as (Ho & Hc & Hl & Hp).
  destruct (IH (perform c m).1) as (Ho1 & Hc1 & Hl1 & Hp1).
  split; [by rewrite Ho1|]. split; [by rewrite Hc1|]. split; [auto|lia].
Qed.

End Invariants.

Lemma failed_reconciliation_removes_nothing_witness :
  @attachInternalDependencies Sample.impl Sample.rootLocator Sample.repeatedDependencies
    Sample.machine1
  = ((@attachInternalDependencies Sample.impl Sample.rootLocator Sample.repeatedDependencies
        Sample.machine1).1, Err (FsError EEXIST))
  ∧ xfs.lookupNode (disk Sample.machine2) ["proj"; "node_modules"; "stale"]
    = Some (xfs.Symlink [".store"; "stale"])
  ∧ xfs.lookupNode
      (disk (@attachInternalDependencies Sample.impl Sample.rootLocator
               Sample.repeatedDependencies Sample.machine1).1)
      ["proj"; "node_modules"; "stale"]
    = Some (xfs.Symlink [".store"; "stale"]).
Proof.
  assert (awaitPendingCopies Sample.machine1 = (Sample.machine2, Ok tt)) as Ewait
    by (vm_compute; reflexivity).
  assert (@isPnpmVirtualCompatible Sample.impl (this Sample.machine1) Sample.rootLocator
          = true) as Hc by (vm_compute; reflexivity).
  assert (locations (this Sample.machine1) !! locatorHash Sample.rootLocator = Some ["proj"])
    as Hreg by (vm_compute; reflexivity).
  assert (plainDependent (disk Sample.machine2) ["proj"]) as Hdep
    by (apply plainDependent_check; vm_compute; reflexivity).
  assert (Forall (λ entry : Descriptor * Locator, wfIdent entry.1)
            Sample.repeatedDependencies) as Hwf by wf_idents.
  assert (@attachInternalDependencies Sample.impl Sample.rootLocator
            Sample.repeatedDependencies Sample.machine1
          = ((@attachInternalDependencies Sample.impl Sample.rootLocator
                Sample.repeatedDependencies Sample.machine1).1, Err (FsError EEXIST))) as E
    by (vm_compute; reflexivity).
  assert (xfs.lookupNode (disk Sample.machine2) ["proj"; "node_modules"; "stale"]
          = Some (xfs.Symlink [".store"; "stale"])) as Hstale by (vm_compute; reflexivity).
  split; [exact E|]. split; [exact Hstale|].
  destruct (@failed_reconciliation_removes_nothing Sample.impl _ _ _ _ _ _ _
              Ewait Hc Hreg Hdep Hwf E) as [Hkeep _].
  rewrite <- Hstale. apply (Hkeep ["stale"]); [reflexivity|].
  assert (dependencyKey <$> Sample.repeatedDependencies.*1
          = [["left-pad"]; ["@my"; "app"]; ["left-pad"]]) as -> by (vm_compute; reflexivity).
  intros Hin. repeat (apply elem_of_cons in Hin as [Hin|Hin]; [discriminate Hin|]).
  by apply elem_of_nil in Hin.
Defined.

(** ** Instances of the further properties on the sample project *)

Lemma installPackage_registers_what_it_returns_witness :
  locations (this (@installPackage Sample.impl (mkPackage Sample.leftPadLocator HARD)
                     Sample.leftPadFetch Sample.machine0).1)
    !! locatorHash Sample.leftPadLocator
  = Some ["proj"; "node_modules"; ".store"; "left-pad-npm-1.0.0"].
Proof.
  assert (@installPackage Sample.impl (mkPackage Sample.leftPadLocator HARD)
            Sample.leftPadFetch Sample.machine0
          = ((@installPackage Sample.impl (mkPackage Sample.leftPadLocator HARD)
                Sample.leftPadFetch Sample.machine0).1,
             Ok (mkInstallStatus ["proj"; "node_modules"; ".store"; "left-pad-npm-1.0.0"] None)))
    as E by (vm_compute; reflexivity).
  destruct (@installPackage_registers_what_it_returns Sample.impl _ _ _ _ _ E) as [H _].
  exact H.
Defined.

Lemma rejected_copy_fails_every_later_attach_witness :
  awaitPendingCopies Sample.blockedStart
  = ((awaitPendingCopies Sample.blockedStart).1, Err (FsError ENOTDIR))
  ∧ @attachInternalDependencies Sample.impl Sample.rootLocator Sample.rootDependencies
      Sample.blockedStart
    = ((awaitPendingCopies Sample.blockedStart).1, Err (FsError ENOTDIR))
  ∧ ∃ e',
      firstRejected (pendingCopies (this (awaitPendingCopies Sample.blockedStart).1)) = Some e'
      ∧ @attachInternalDependencies Sample.impl Sample.appLocator []
          (awaitPendingCopies Sample.blockedStart).1
        = ((awaitPendingCopies (awaitPendingCopies Sample.blockedStart).1).1, Err e').
Proof.
  assert (awaitPendingCopies Sample.blockedStart
          = ((awaitPendingCopies Sample.blockedStart).1, Err (FsError ENOTDIR))) as E
    by (vm_compute; reflexivity).
  split; [exact E|].
  destruct (@rejected_copy_fails_every_later_attach Sample.impl) as [_ H].
  exact (H Sample.rootLocator Sample.appLocator Sample.rootDependencies [] _ _ _ E).
Defined.

Lemma copies_are_waited_for_once_witness :
  @attachInternalDependencies Sample.impl Sample.rootLocator Sample.rootDependencies
    Sample.machine1
  = (Sample.machine3, Ok tt)
  ∧ awaitPendingCopies Sample.machine3 = (Sample.machine3, Ok tt).
Proof.
  assert (@attachInternalDependencies Sample.impl Sample.rootLocator Sample.rootDependencies
            Sample.machine1 = (Sample.machine3, Ok tt)) as E
    by (vm_compute; reflexivity).
  split; [exact E|].
  destruct (@copies_are_waited_for_once Sample.impl _ _ _ _ E) as (_ & H & _).
  exact H.
Defined.

Lemma rootDependencies_linkable :
  Forall (@linkable Sample.impl (this Sample.machine1) (ppath.join ["proj"] [nodeModules]))
    Sample.rootDependencies.
Proof.
  repeat constructor.
  - exists ["proj"; "node_modules"; ".store"; "left-pad-npm-1.0.0"].
    split; [vm_compute; reflexivity|vm_compute; discriminate].
  - exists ["proj"; "packages"; "app"].
    split; [vm_compute; reflexivity|vm_compute; discriminate].
Qed.

Lemma rootDependencies_NoDup : NoDup (dependencyKey <$> Sample.rootDependencies.*1).
Proof.
  assert (dependencyKey <$> Sample.rootDependencies.*1 = [["left-pad"]; ["@my"; "app"]]) as ->
    by (vm_compute; reflexivity).
  apply NoDup_cons. split; [by intros ?%list_elem_of_singleton|apply NoDup_singleton].
Qed.

Lemma reconciliation_ends_well_witness :
  awaitPendingCopies Sample.machine1 = (Sample.machine2, Ok tt)
  ∧ @isPnpmVirtualCompatible Sample.impl (this Sample.machine1) Sample.rootLocator = true
  ∧ locations (this Sample.machine1) !! locatorHash Sample.rootLocator = Some ["proj"]
  ∧ plainDependent (disk Sample.machine2) ["proj"]
  ∧ ∃ m', @attachInternalDependencies Sample.impl Sample.rootLocator Sample.rootDependencies
            Sample.machine1 = (m', Ok tt).
Proof.
  assert (awaitPendingCopies Sample.machine1 = (Sample.machine2, Ok tt)) as Ewait
    by (vm_compute; reflexivity).
  assert (@isPnpmVirtualCompatible Sample.impl (this Sample.machine1) Sample.rootLocator
          = true) as Hc by (vm_compute; reflexivity).
  assert (locations (this Sample.machine1) !! locatorHash Sample.rootLocator = Some ["proj"])
    as Hreg by (vm_compute; reflexivity).
  assert (plainDependent (disk Sample.machine2) ["proj"]) as Hdep
    by (apply plainDependent_check; vm_compute; reflexivity).
  split; [exact Ewait|]. split; [exact Hc|]. split; [exact Hreg|]. split; [exact Hdep|].
  exact (@reconciliation_ends_well Sample.impl _ _ _ _ _ Ewait Hc Hreg Hdep
           rootDependencies_wf rootDependencies_NoDup rootDependencies_linkable).
Defined.

Lemma repeated_name_fails_with_EEXIST_witness :
  awaitPendingCopies Sample.machine1 = (Sample.machine2, Ok tt)
  ∧ plainDependent (disk Sample.machine2) ["proj"]
  ∧ ∃ m', @attachInternalDependencies Sample.impl Sample.rootLocator
            Sample.repeatedDependencies Sample.machine1
          = (m', Err (FsError EEXIST)).
Proof.
  assert (awaitPendingCopies Sample.machine1 = (Sample.machine2, Ok tt)) as Ewait
    by (vm_compute; reflexivity).
  assert (@isPnpmVirtualCompatible Sample.impl (this Sample.machine1) Sample.rootLocator
          = true) as Hc by (vm_compute; reflexivity).
  assert (locations (this Sample.machine1) !! locatorHash Sample.rootLocator = Some ["proj"])
    as Hreg by (vm_compute; reflexivity).
  assert (plainDependent (disk Sample.machine2) ["proj"]) as Hdep
    by (apply plainDependent_check; vm_compute; reflexivity).
  split; [exact Ewait|]. split; [exact Hdep|].
  apply (@repeated_name_fails_with_EEXIST Sample.impl Sample.rootLocator
           Sample.rootDependencies []
           (mkDescriptor Sample.leftPad "^1.1.0") Sample.leftPadLocator
           _ _ _ Ewait Hc Hreg Hdep).
  - apply Forall_app. split; [exact rootDependencies_wf|]. wf_idents.
  - exact rootDependencies_NoDup.
  - apply Forall_app. split; [exact rootDependencies_linkable|].
    repeat constructor. exists ["proj"; "node_modules"; ".store"; "left-pad-npm-1.0.0"].
    split; [vm_compute; reflexivity|vm_compute; discriminate].
  - assert (dependencyKey <$> Sample.rootDependencies.*1 = [["left-pad"]; ["@my"; "app"]])
      as -> by (vm_compute; reflexivity).
    assert (dependencyKey (mkDescriptor Sample.leftPad "^1.1.0") = ["left-pad"]) as ->
      by (vm_compute; reflexivity).
    by left.
Defined.

Lemma reconciliation_stays_in_the_dependency_directory_witness :
  awaitPendingCopies Sample.machine1 = (Sample.machine2, Ok tt)
  ∧ plainDependent (disk Sample.machine2) ["proj"]
  ∧ xfs.lookupNode
      (disk (@attachInternalDependencies Sample.impl Sample.rootLocator
               Sample.rootDependencies Sample.machine1).1)
      ["proj"; "packages"; "app"; "package.json"]
    = xfs.lookupNode (disk Sample.machine2) ["proj"; "packages"; "app"; "package.json"].
Proof.
  assert (awaitPendingCopies Sample.machine1 = (Sample.machine2, Ok tt)) as Ewait
    by (vm_compute; reflexivity).
  assert (@isPnpmVirtualCompatible Sample.impl (this Sample.machine1) Sample.rootLocator
          = true) as Hc by (vm_compute; reflexivity).
  assert (locations (this Sample.machine1) !! locatorHash Sample.rootLocator = Some ["proj"])
    as Hreg by (vm_compute; reflexivity).
  assert (plainDependent (disk Sample.machine2) ["proj"]) as Hdep
    by (apply plainDependent_check; vm_compute; reflexivity).
  split; [exact Ewait|]. split; [exact Hdep|].
  apply (@reconciliation_stays_in_the_dependency_directory Sample.impl _ _ _ _ _
           Ewait Hc Hreg Hdep rootDependencies_wf).
  - intros [k Hk]. discriminate Hk.
  - intros [k Hk]. discriminate Hk.
Defined.

Lemma no_dependency_leaves_an_empty_directory_witness :
  awaitPendingCopies Sample.machine1 = (Sample.machine2, Ok tt)
  ∧ xfs.lookupNode (disk Sample.machine2) ["proj"; "packages"; "app"]
    = Some (Sample.dir [("package.json", Sample.packageJson)])
  ∧ @attachInternalDependencies Sample.impl Sample.appLocator [] Sample.machine1
    = (mkMachine (this Sample.machine2)
         (xfs.updateDir (disk Sample.machine2) ["proj"; "packages"; "app"]
            (insert nodeModules (xfs.Directory ∅))),
       Ok tt).
Proof.
  assert (awaitPendingCopies Sample.machine1 = (Sample.machine2, Ok tt)) as Ewait
    by (vm_compute; reflexivity).
  assert (@isPnpmVirtualCompatible Sample.impl (this Sample.machine1) Sample.appLocator
          = true) as Hc by (vm_compute; reflexivity).
  assert (locations (this Sample.machine1) !! locatorHash Sample.appLocator
          = Some ["proj"; "packages"; "app"]) as Hreg by (vm_compute; reflexivity).
  assert (xfs.lookupNode (disk Sample.machine2) ["proj"; "packages"; "app"]
          = Some (Sample.dir [("package.json", Sample.packageJson)])) as Hpch
    by (vm_compute; reflexivity).
  split; [exact Ewait|]. split; [exact Hpch|].
  apply (@no_dependency_leaves_an_empty_directory Sample.impl _ _ _ _
           (list_to_map [("package.json", Sample.packageJson)]) Ewait Hc Hreg).
  - repeat constructor.
  - exact Hpch.
  - vm_compute. reflexivity.
Defined.

